(** * pulsar.async: deferred values and the protocol pipeline

    A shallow embedding of [pulsar/async/defer.py] and
    [pulsar/async/transports/protocols.py], and the properties of the
    deferred engine, the generator driver, the multi-deferred aggregator, the
    connection and the producer that are checked against it.

    Conventions of the embedding.
    - Python objects with identity (deferreds) live in a heap and are named
      by references; containers, failures and exceptions are values.
    - A method that may raise returns a [res]; the heap it returns holds the
      mutations made before the exception left the method.
    - Recursion between objects (a callback of one deferred draining another)
      is bounded by a fuel argument; [None] means that the fuel ran out, or
      that a reference names no object of the heap.
    - The logger is an external collaborator: calls to it, and the
      [_failure_logged] stamp it leaves on an error, are not modelled.
    - Generator objects and tuples are not among the modelled values; the
      generator driver is modelled on its own, over the items its generator
      produces (module [Generator]). *)

From Stdlib Require Import ZArith String.
From Stdlib.Strings Require Import Byte.
From stdpp Require Import base option list strings pretty.

#[local] Set Warnings "-register-all".

Module Defer.

(** ** Values *)

Abbreviation ref := nat.

(** An exception instance: its class name and its message.  Every modelled
    class derives from [Exception]. *)
Record exn := Exn { eclass : string; emsg : string }.

(** The third component of an error record: a live traceback, nothing, or
    the pre-formatted lines of a [remote_stacktrace]. *)
Inductive trace :=
| LiveTrace (id : nat)
| NoTrace
| FormattedTrace (lines : list string).

(** The second component of an error record: usually an exception instance,
    but a record may carry [None] or an object that is no exception; the
    one modelled is a string, which is true unless empty and takes no
    attribute. *)
Inductive errobj :=
| ErrNone
| ErrExc (e : exn)
| ErrOther (repr : string).

(** An error record [(error_class, error, trace)], as [sys.exc_info()]
    returns it. *)
Record exc_info := ExcInfo {
  exc_type : option string;
  exc_value : errobj;
  exc_tb : trace
}.

Inductive key :=
| KInt (i : Z)
| KStr (s : string).

(** The special objects of the module. *)
Inductive sentinel := NOT_DONE | STOP_ON_FAILURE | CLEAR_ERRORS.

Inductive value :=
| VNone
| VInt (z : Z)
| VStr (s : string)
| VExc (e : exn)
| VFailure (traces : list exc_info)
| VList (l : list value)
| VDict (kvs : list (key * value))
| VDeferred (r : ref)
| VSentinel (s : sentinel).

#[global] Instance exn_eq_dec : EqDecision exn.
Proof. solve_decision. Defined.
#[global] Instance trace_eq_dec : EqDecision trace.
Proof. solve_decision. Defined.
#[global] Instance errobj_eq_dec : EqDecision errobj.
Proof. solve_decision. Defined.
#[global] Instance key_eq_dec : EqDecision key.
Proof. solve_decision. Defined.

(** What a call of a Python callable does: it returns a value or raises. *)
Inductive outcome :=
| Return (v : value)
| Raise (e : exn) (tb : trace).

(** The result of a method that may raise. *)
Inductive res (A : Type) :=
| Ok (a : A)
| Err (e : exn).
Arguments Ok {A} a.
Arguments Err {A} e.

(** The callables that end up in a callback queue: [pass_through], a
    function supplied by the user, the bound method [d._continue], and the
    closure [lambda result: m._deferred_done(key, result)]. *)
Inductive handler :=
| pass_through
| Fn (f : value → outcome)
| bound_continue (d : ref)
| deferred_done_lambda (m : ref) (k : key).

(** An argument of [add_callback]: a callable or any other object. *)
Inductive pyobj :=
| Callable (c : handler)
| NonCallable (v : value).

(** What the [handle_value] hook of a multi-deferred does with a value:
    it returns the very same object, returns another one, or raises. *)
Inductive hook_outcome :=
| HookSame
| HookNew (val : value)
| HookRaise (e : exn) (tb : trace).

(** ** Exceptions raised by the module *)

Definition RuntimeError (msg : string) : exn := Exn "RuntimeError" msg.
Definition AlreadyCalledError : exn := Exn "AlreadyCalledError" "Deferred already called".
Definition TypeError (msg : string) : exn := Exn "TypeError" msg.
Definition IndexError : exn := Exn "IndexError" "list assignment index out of range".
Definition DeferredFailure (msg : string) : exn := Exn "DeferredFailure" msg.

(** The traceback of an exception raised by the library's own code. *)
Definition own_trace : trace := LiveTrace 0.

Definition raised {A} (r : res A) (k : A → outcome) : outcome :=
  match r with
  | Ok a => k a
  | Err e => Raise e own_trace
  end.

(** ** Objects *)

Record multideferred := MultiDeferred {
  _locked : bool;
  _deferred : list (key * ref);
  _failures : list exc_info;
  log_failure : bool;
  fireOnOneErrback : bool;
  handle_value : option (value → hook_outcome);
  _stream : value
}.

(** A deferred.  [result] is absent until the deferred is called; [multi]
    holds the attributes that the subclass [MultiDeferred] adds. *)
Record deferred := Deferred {
  _called : bool;
  _runningCallbacks : bool;
  paused : Z;
  _callbacks : list (handler * handler);
  result : option value;
  multi : option multideferred
}.

Abbreviation heap := (list deferred).

(** [Deferred()] *)
Definition new_deferred : deferred :=
  {| _called := false; _runningCallbacks := false; paused := 0;
     _callbacks := []; result := None; multi := None |}.

Definition set_callbacks (q : list (handler * handler)) (d : deferred) : deferred :=
  {| _called := _called d; _runningCallbacks := _runningCallbacks d;
     paused := paused d; _callbacks := q; result := result d; multi := multi d |}.
Definition set_running (b : bool) (d : deferred) : deferred :=
  {| _called := _called d; _runningCallbacks := b;
     paused := paused d; _callbacks := _callbacks d; result := result d;
     multi := multi d |}.
Definition set_paused (p : Z) (d : deferred) : deferred :=
  {| _called := _called d; _runningCallbacks := _runningCallbacks d;
     paused := p; _callbacks := _callbacks d; result := result d;
     multi := multi d |}.
Definition set_result (v : value) (d : deferred) : deferred :=
  {| _called := _called d; _runningCallbacks := _runningCallbacks d;
     paused := paused d; _callbacks := _callbacks d; result := Some v;
     multi := multi d |}.
Definition set_called (b : bool) (d : deferred) : deferred :=
  {| _called := b; _runningCallbacks := _runningCallbacks d;
     paused := paused d; _callbacks := _callbacks d; result := result d;
     multi := multi d |}.
Definition set_multi (m : multideferred) (d : deferred) : deferred :=
  {| _called := _called d; _runningCallbacks := _runningCallbacks d;
     paused := paused d; _callbacks := _callbacks d; result := result d;
     multi := Some m |}.

Definition set_locked (b : bool) (m : multideferred) : multideferred :=
  {| _locked := b; _deferred := _deferred m; _failures := _failures m;
     log_failure := log_failure m; fireOnOneErrback := fireOnOneErrback m;
     handle_value := handle_value m; _stream := _stream m |}.
Definition set_deferred (p : list (key * ref)) (m : multideferred) : multideferred :=
  {| _locked := _locked m; _deferred := p; _failures := _failures m;
     log_failure := log_failure m; fireOnOneErrback := fireOnOneErrback m;
     handle_value := handle_value m; _stream := _stream m |}.
Definition set_failures (f : list exc_info) (m : multideferred) : multideferred :=
  {| _locked := _locked m; _deferred := _deferred m; _failures := f;
     log_failure := log_failure m; fireOnOneErrback := fireOnOneErrback m;
     handle_value := handle_value m; _stream := _stream m |}.
Definition set_stream (s : value) (m : multideferred) : multideferred :=
  {| _locked := _locked m; _deferred := _deferred m; _failures := _failures m;
     log_failure := log_failure m; fireOnOneErrback := fireOnOneErrback m;
     handle_value := handle_value m; _stream := s |}.

(** ** Helpers on values *)

(** [bool(x)] *)
Definition truthy (v : value) : bool :=
  match v with
  | VNone => false
  | VInt z => negb (z =? 0)%Z
  | VStr s => negb (String.eqb s "")
  | VExc _ => true
  | VFailure t => negb (bool_decide (t = []))
  | VList l => match l with [] => false | _ => true end
  | VDict kvs => match kvs with [] => false | _ => true end
  | VDeferred _ => true
  | VSentinel _ => true
  end.

Definition is_failure (v : value) : bool :=
  match v with VFailure _ => true | _ => false end.

Definition is_async (v : value) : bool :=
  match v with VDeferred _ => true | _ => false end.

(** [isinstance(value, (dict, list, tuple, set, frozenset))] *)
Definition is_container (v : value) : bool :=
  match v with VList _ | VDict _ => true | _ => false end.

Definition is_None (o : pyobj) : bool :=
  match o with NonCallable VNone => true | _ => false end.

Definition is_empty {A} (l : list A) : bool :=
  match l with [] => true | _ => false end.

(** The record [sys.exc_info()] gives while [e], raised with traceback
    [tb], is being handled. *)
Definition handling (e : exn) (tb : trace) : exc_info :=
  ExcInfo (Some (eclass e)) (ErrExc e) tb.

(** [sys.exc_info()] when no exception is being handled. *)
Definition no_exc_info : exc_info := ExcInfo None ErrNone NoTrace.

(** [Failure.append], on the list of records of the failure.  [exc] is what
    [sys.exc_info()] returns at the call. *)
Definition Failure_append (exc : exc_info) (traces : list exc_info)
    (trace : value) : list exc_info :=
  if truthy trace then
    match trace with
    | VFailure t => traces ++ t
    | VExc _ => traces ++ [exc]
    | _ => traces
    end
  else traces.

(** [as_failure(value)]; [exc] is what [sys.exc_info()] returns at the
    call. *)
Definition as_failure (exc : exc_info) (v : value) : value :=
  match v with
  | VExc e =>
      if decide (ErrExc e = exc_value exc)
      then VFailure [exc]
      else VFailure [ExcInfo (Some (eclass e)) (ErrExc e) NoTrace]
  | _ => v
  end.

(** [Deferred._add_exception], called while [e] is being handled. *)
Definition _add_exception (r : value) (e : exn) (tb : trace) : value :=
  match r with
  | VFailure t => VFailure (Failure_append (handling e tb) t (VExc e))
  | _ => VFailure (Failure_append (handling e tb) [] (VExc e))
  end.

(** What [Failure.raise_all] ends with: the call
    [raise_error_trace(error, trace)], a fresh exception, or a plain
    return. *)
Inductive raising :=
| raise_error_trace (error : errobj) (trace : trace)
| raise_new (e : exn)
| no_raise.

(** [isinstance(record[1], Exception)] *)
Definition holds_exception (i : exc_info) : bool :=
  match exc_value i with ErrExc _ => true | _ => false end.

(** [Failure.trace]: the last record, or [(None, None, None)]. *)
Definition Failure_trace (traces : list exc_info) : exc_info :=
  default no_exc_info (last traces).

Definition AttributeError (msg : string) : exn := Exn "AttributeError" msg.

(** [Failure.log], with the default logger.  [flag] is what the attribute
    [_failure_logged] of the error of the last record holds when that error
    is an exception instance ([False] when it was never set); [getattr]
    finds no such attribute on [None] or on a string.  A failure not logged
    yet sets the attribute on the error, when the error is true, and hands
    every record to the logger: the result is the records logged and the
    attribute after the call.  [setattr] on a string raises
    [AttributeError]. *)
Definition Failure_log (traces : list exc_info) (flag : bool)
    : res (list exc_info * bool) :=
  match exc_value (Failure_trace traces) with
  | ErrExc _ => if flag then Ok ([], true) else Ok (traces, true)
  | ErrOther s =>
      if String.eqb s "" then Ok (traces, flag)
      else Err (AttributeError "'str' object has no attribute '_failure_logged'")
  | ErrNone => Ok (traces, flag)
  end.

(** The exception that [log_failure(value)] ends with, if any, on a value
    that is no deferred: [Failure.log] runs on a failure, and fails on one
    whose last record holds a string that is not empty, whatever the
    attribute of the error holds. *)
Definition log_failure_raises (v : value) : option exn :=
  match v with
  | VFailure t =>
      match Failure_log t false with
      | Err e => Some e
      | Ok _ => None
      end
  | _ => None
  end.

(** [Failure.raise_all], on the list of records of the failure, with [flag]
    as for [Failure_log]: the records left, how the call ends, and what
    [self.log()] logged and left in the attribute. *)
Definition raise_all (traces : list exc_info) (first : bool) (flag : bool)
    : list exc_info * raising * (list exc_info * bool) :=
  let at_pos := if first then head traces else last traces in
  if negb (is_empty traces) && from_option holds_exception false at_pos then
    match last traces with
    | Some popped =>
        let traces := removelast traces in
        match Failure_log traces flag with
        | Err e => (traces, raise_new e, ([], flag))
        | Ok logged =>
            (traces, raise_error_trace (exc_value popped) (exc_tb popped), logged)
        end
    | None => (traces, no_raise, ([], flag))
    end
  else
    match Failure_log traces flag with
    | Err e => (traces, raise_new e, ([], flag))
    | Ok logged =>
        let N := length traces in
        if decide (N = 1) then
          (traces, raise_new (DeferredFailure "There was one failure during callbacks."),
           logged)
        else if decide (1 < N) then
          (traces, raise_new (DeferredFailure
             ("There were " +:+ pretty N +:+ " failures during callbacks.")), logged)
        else (traces, no_raise, logged)
    end.

(** [Deferred.result_or_self] *)
Definition result_or_self (self : ref) (d : deferred) : option value :=
  if _called d && is_empty (_callbacks d) then result d
  else Some (VDeferred self).

(** [maybe_async(val)], called outside an [except] block. *)
Definition maybe_async (h : heap) (val : value) : option value :=
  match val with
  | VDeferred r => d ← h !! r; result_or_self r d
  | _ => Some (as_failure no_exc_info val)
  end.

(** ** Dictionaries and list cells *)

Fixpoint dict_set {V} (k : key) (v : V) (d : list (key * V)) : list (key * V) :=
  match d with
  | [] => [(k, v)]
  | (k', v') :: d' =>
      if decide (k = k') then (k, v) :: d' else (k', v') :: dict_set k v d'
  end.

(** [d.pop(key, None)], the popped value dropped. *)
Fixpoint dict_pop {V} (k : key) (d : list (key * V)) : list (key * V) :=
  match d with
  | [] => []
  | (k', v') :: d' =>
      if decide (k = k') then d' else (k', v') :: dict_pop k d'
  end.

(** [l[i] = v] on a list: a negative index counts from the end, an index
    out of range raises [IndexError]. *)
Definition list_setitem (l : list value) (i : Z) (v : value) : res (list value) :=
  let n := Z.of_nat (length l) in
  if decide (0 ≤ i < n)%Z then Ok (<[Z.to_nat i := v]> l)
  else if decide (- n ≤ i < 0)%Z then Ok (<[Z.to_nat (n + i) := v]> l)
  else Err IndexError.

(** [iterdata(stream, start)] *)
Definition iterdata (stream : value) (start : nat) : option (res (list (key * value))) :=
  match stream with
  | VDict kvs => Some (Ok kvs)
  | VList l => Some (Ok (imap (λ i v, (KInt (Z.of_nat (start + i)), v)) l))
  | VStr s =>
      Some (Ok (imap (λ i c, (KInt (Z.of_nat (start + i)), VStr (String c "")))
                  (list_ascii_of_string s)))
  | VFailure _ => None
  | _ => Some (Err (TypeError "object is not iterable"))
  end.

(** [len(self._stream)] *)
Definition stream_len (s : value) : nat :=
  match s with
  | VList l => length l
  | VDict kvs => length kvs
  | _ => 0
  end.

(** [MultiDeferred._setitem]: the multi-deferred after the call and the
    exception the call ends with, if any.  An assignment that fails changes
    nothing; [log_failure], called on a failure when the attribute
    [log_failure] is set, may fail once the value is stored. *)
Definition _setitem (m : multideferred) (k : key) (v : value)
    : multideferred * option exn :=
  let stored :=
    match _stream m with
    | VList l =>
        match k with
        | KInt i =>
            if decide (i = Z.of_nat (length l)) then Ok (VList (l ++ [v]))
            else match list_setitem l i v with
                 | Ok l' => Ok (VList l')
                 | Err e => Err e
                 end
        | KStr _ => Err (TypeError "list indices must be integers")
        end
    | VDict kvs => Ok (VDict (dict_set k v kvs))
    | _ => Err (TypeError "object does not support item assignment")
    end in
  match stored with
  | Err e => (m, Some e)
  | Ok s =>
      let m' := set_stream s m in
      if is_failure v then
        match (if log_failure m then log_failure_raises v else None) with
        | Some e => (m', Some e)
        | None => (set_failures (Failure_append no_exc_info (_failures m') v) m', None)
        end
      else (m', None)
  end.

(** ** The methods, one level of recursion unfolded

    The methods call each other across objects.  [knot] holds the entry
    points through which they recurse; the methods below are written over
    the knot of the next lower fuel. *)

Record knot := Knot {
  _run_callbacks_rec : ref → heap → option heap;
  while_rec : ref → heap → option heap;
  _add_rec : ref → key → value → heap → option (res unit * heap)
}.

Section methods.
Variable K : knot.

(** [Deferred.add_callback]; the reference returned is [self]. *)
Definition add_callback (self : ref) (callback errback : pyobj) (h : heap)
    : option (res ref * heap) :=
  let errback := if is_None errback then Callable pass_through else errback in
  match callback, errback with
  | Callable cb, Callable eb =>
      d ← h !! self;
      let h1 := <[self := set_callbacks (_callbacks d ++ [(cb, eb)]) d]> h in
      h2 ← _run_callbacks_rec K self h1;
      Some (Ok self, h2)
  | _, _ => Some (Err (TypeError "callback must be callable"), h)
  end.

(** [Deferred.add_errback] *)
Definition add_errback (self : ref) (errback : pyobj) (h : heap) :=
  add_callback self (Callable pass_through) errback h.

(** [Deferred.add_both] *)
Definition add_both (self : ref) (callback : pyobj) (h : heap) :=
  add_callback self callback callback h.

(** [Deferred.callback]; [exc] is what [sys.exc_info()] returns at the
    call. *)
Definition callback_in (exc : exc_info) (self : ref) (r : value) (h : heap)
    : option (res value * heap) :=
  d ← h !! self;
  if is_async r then
    Some (Err (RuntimeError "Received a deferred instance from callback function"), h)
  else if _called d then Some (Err AlreadyCalledError, h)
  else
    let h1 := <[self := set_called true (set_result (as_failure exc r) d)]> h in
    h2 ← _run_callbacks_rec K self h1;
    d2 ← h2 !! self;
    r2 ← result d2;
    Some (Ok r2, h2).

(** [Deferred.callback], called outside an [except] block. *)
Definition callback (self : ref) (r : value) (h : heap) : option (res value * heap) :=
  callback_in no_exc_info self r h.

(** [Deferred._continue]: store the result, [_unpause], return the result. *)
Definition _continue (self : ref) (r : value) (h : heap) : option (outcome * heap) :=
  d ← h !! self;
  let h1 := <[self := set_paused (paused d - 1) (set_result r d)]> h in
  h2 ← _run_callbacks_rec K self h1;
  d2 ← h2 !! self;
  r2 ← result d2;
  Some (Return r2, h2).

(** [MultiDeferred._finish] *)
Definition _finish (self : ref) (h : heap) : option (res unit * heap) :=
  d ← h !! self;
  m ← multi d;
  if negb (_locked m) then
    Some (Err (RuntimeError "MultiDeferred cannot finish until completed."), h)
  else if negb (is_empty (_deferred m)) then
    Some (Err (RuntimeError "MultiDeferred cannot finish whilst waiting for dependents"), h)
  else
    let r := if fireOnOneErrback m && truthy (VFailure (_failures m))
             then VFailure (_failures m) else _stream m in
    '(c, h1) ← callback self r h;
    match c with
    | Ok _ => Some (Ok (), h1)
    | Err e => Some (Err e, h1)
    end.

(** [MultiDeferred._deferred_done] *)
Definition _deferred_done (self : ref) (k : key) (r : value) (h : heap)
    : option (outcome * heap) :=
  d ← h !! self;
  m ← multi d;
  let m1 := set_deferred (dict_pop k (_deferred m)) m in
  let '(m2, failed) := _setitem m1 k r in
  let h2 := <[self := set_multi m2 d]> h in
  match failed with
  | Some e => Some (Raise e own_trace, h2)
  | None =>
      if _locked m2 && is_empty (_deferred m2) && negb (_called d) then
        '(f, h3) ← _finish self h2;
        Some (raised f (λ _, Return r), h3)
      else Some (Return r, h2)
  end.

(** Calling a callable of a callback queue. *)
Definition call (c : handler) (arg : value) (h : heap) : option (outcome * heap) :=
  match c with
  | pass_through => Some (Return arg, h)
  | Fn f => Some (f arg, h)
  | bound_continue d => _continue d arg h
  | deferred_done_lambda m k => _deferred_done m k arg h
  end.

(** The [while self._callbacks] loop of [Deferred._run_callbacks]: one
    iteration, then the rest of the loop. *)
Definition while_callbacks (self : ref) (h : heap) : option heap :=
  d ← h !! self;
  match _callbacks d with
  | [] => Some h
  | callbacks :: rest =>
      r ← result d;
      let callback := if is_failure r then callbacks.2 else callbacks.1 in
      let h1 := <[self := set_running true (set_callbacks rest d)]> h in
      '(out, h2) ← call callback r h1;
      d2 ← h2 !! self;
      match out with
      | Return v =>
          r' ← maybe_async h2 v;
          let d3 := set_running false (set_result r' d2) in
          match r' with
          | VDeferred inner =>
              let h3 := <[self := set_paused (paused d3 + 1) d3]> h2 in
              '(_, h4) ← add_both inner (Callable (bound_continue self)) h3;
              Some h4
          | _ => while_rec K self (<[self := d3]> h2)
          end
      | Raise e tb =>
          r2 ← result d2;
          let d3 := set_result (_add_exception r2 e tb) (set_running false d2) in
          while_rec K self (<[self := d3]> h2)
      end
  end.

(** [Deferred._run_callbacks] *)
Definition _run_callbacks (self : ref) (h : heap) : option heap :=
  d ← h !! self;
  if negb (_called d) || _runningCallbacks d || negb (paused d =? 0)%Z
  then Some h
  else while_callbacks self h.

(** [MultiDeferred.lock]; the reference returned is [self]. *)
Definition lock (self : ref) (h : heap) : option (res ref * heap) :=
  d ← h !! self;
  m ← multi d;
  if _locked m then
    Some (Err (RuntimeError "MultiDeferred cannot be locked twice."), h)
  else
    let m1 := set_locked true m in
    let h1 := <[self := set_multi m1 d]> h in
    if is_empty (_deferred m1) then
      '(f, h2) ← _finish self h1;
      match f with
      | Ok _ => Some (Ok self, h2)
      | Err e => Some (Err e, h2)
      end
    else Some (Ok self, h1).

(** [MultiDeferred.update] *)
Fixpoint update_loop (self : ref) (items : list (key * value)) (h : heap)
    : option (res unit * heap) :=
  match items with
  | [] => Some (Ok (), h)
  | (k, v) :: items' =>
      '(a, h1) ← _add_rec K self k v h;
      match a with
      | Ok _ => update_loop self items' h1
      | Err e => Some (Err e, h1)
      end
  end.

Definition update (self : ref) (stream : value) (h : heap) : option (res unit * heap) :=
  d ← h !! self;
  m ← multi d;
  items ← iterdata stream (stream_len (_stream m));
  match items with
  | Ok items => update_loop self items h
  | Err e => Some (Err e, h)
  end.

(** [MultiDeferred.__init__], with the default [type=None]: the new object
    is allocated at the end of the heap. *)
Definition MultiDeferred_init (data : value) (fire : bool)
    (hv : option (value → hook_outcome)) (log : bool) (h : heap)
    : option (res ref * heap) :=
  let stream := match data with VDict _ => VDict [] | _ => VList [] end in
  let self := length h in
  let m := {| _locked := false; _deferred := []; _failures := [];
              log_failure := log; fireOnOneErrback := fire;
              handle_value := hv; _stream := stream |} in
  let h1 := h ++ [set_multi m new_deferred] in
  if truthy data then
    '(u, h2) ← update self data h1;
    match u with
    | Ok _ => Some (Ok self, h2)
    | Err e => Some (Err e, h2)
    end
  else Some (Ok self, h1).

(** [MultiDeferred._make] *)
Definition _make (self : ref) (v : value) (h : heap) : option (res value * heap) :=
  d ← h !! self;
  m ← multi d;
  '(i, h1) ← MultiDeferred_init v (fireOnOneErrback m) (handle_value m) false h;
  match i with
  | Err e => Some (Err e, h1)
  | Ok md =>
      '(l, h2) ← lock md h1;
      match l with
      | Err e => Some (Err e, h2)
      | Ok md' => v' ← maybe_async h2 (VDeferred md'); Some (Ok v', h2)
      end
  end.

(** [MultiDeferred._add_deferred] *)
Definition _add_deferred (self : ref) (k : key) (v : ref) (h : heap)
    : option (res unit * heap) :=
  d ← h !! self;
  m ← multi d;
  let h1 := <[self := set_multi (set_deferred (dict_set k v (_deferred m)) m) d]> h in
  '(a, h2) ← add_both v (Callable (deferred_done_lambda self k)) h1;
  match a with
  | Ok _ => Some (Ok (), h2)
  | Err e => Some (Err e, h2)
  end.

(** The end of [MultiDeferred._add]: store the value and, when it is a
    deferred, wait for it. *)
Definition _add_store (self : ref) (k : key) (v : value) (h : heap)
    : option (res unit * heap) :=
  d ← h !! self;
  m ← multi d;
  let '(m', failed) := _setitem m k v in
  let h1 := <[self := set_multi m' d]> h in
  match failed with
  | Some e => Some (Err e, h1)
  | None =>
      match v with
      | VDeferred r => _add_deferred self k r h1
      | _ => Some (Ok (), h1)
      end
  end.

(** [MultiDeferred._add] *)
Definition _add (self : ref) (k : key) (v : value) (h : heap)
    : option (res unit * heap) :=
  d ← h !! self;
  m ← multi d;
  if _locked m then
    Some (Err (RuntimeError "MultiDeferred cannot add a dependent once locked."), h)
  else
    v1 ← maybe_async h v;
    '(mk, h1) ← (if is_container v1 then _make self v1 h else Some (Ok v1, h));
    match mk with
    | Err e => Some (Err e, h1)
    | Ok v2 =>
        match (if is_async v2 then None else handle_value m) with
        | Some hook =>
            match hook v2 with
            | HookRaise e tb => _add_store self k (as_failure (handling e tb) (VExc e)) h1
            | HookSame => _add_store self k v2 h1
            | HookNew val => _add_rec K self k val h1
            end
        | None => _add_store self k v2 h1
        end
    end.

End methods.

(** ** Tying the knot *)

Definition no_fuel : knot :=
  {| _run_callbacks_rec := λ _ _, None;
     while_rec := λ _ _, None;
     _add_rec := λ _ _ _ _, None |}.

Fixpoint fuel (n : nat) : knot :=
  match n with
  | 0 => no_fuel
  | S n' =>
      {| _run_callbacks_rec := _run_callbacks (fuel n');
         while_rec := while_callbacks (fuel n');
         _add_rec := _add (fuel n') |}
  end.

(** [multi_async(iterable)] *)
Definition multi_async (K : knot) (iterable : value) (h : heap)
    : option (res ref * heap) :=
  '(i, h1) ← MultiDeferred_init K iterable false None false h;
  match i with
  | Ok md => lock K md h1
  | Err e => Some (Err e, h1)
  end.

(** ** Other entry points *)

(** [make_async(val)]: the deferred returned. *)
Definition make_async (K : knot) (val : value) (h : heap) : option (res ref * heap) :=
  v ← maybe_async h val;
  match v with
  | VDeferred r => Some (Ok r, h)
  | _ =>
      let d := length h in
      '(c, h1) ← callback K d v (h ++ [new_deferred]);
      match c with
      | Ok _ => Some (Ok d, h1)
      | Err e => Some (Err e, h1)
      end
  end.

(** The double quote of a message. *)
Definition dquote : string := String (Ascii.ascii_of_nat 34) EmptyString.

(** [MultiDeferred.append] *)
Definition append (K : knot) (self : ref) (v : value) (h : heap)
    : option (res unit * heap) :=
  d ← h !! self;
  m ← multi d;
  match _stream m with
  | VList l => _add K self (KInt (Z.of_nat (length l))) v h
  | _ =>
      Some (Err (RuntimeError ("Cannot append a value to a " +:+ dquote +:+ "dict"
                               +:+ dquote +:+ " type multideferred")), h)
  end.

End Defer.

(** * The generator driver ([DeferredGenerator]) *)

Module Generator.
Import Defer.

(** What [next(gen)] gives: a yielded value, or an exception raised by the
    body of the generator.  The end of the list is [StopIteration]. *)
Inductive item :=
| Yield (v : value)
| GenRaise (e : exn) (tb : trace).

(** The attributes [DeferredGenerator] adds to the deferred at [self].
    [gen] and [errors] are [None] once the driver has concluded. *)
Record DeferredGenerator := mkDeferredGenerator {
  gen : option (list item);
  max_errors : Z;
  timeout : Z;
  errors : option (list exc_info);
  _start : Z;
  self : ref
}.

(** A call posted with [loop.call_soon_threadsafe]. *)
Inductive task :=
| check_async_task (r : value)
| consume_task.

(** The heap of deferreds, the driver, the calls posted on the event loop
    and the reading of [default_timer()]. *)
Record world := World {
  objects : heap;
  driver : DeferredGenerator;
  loop : list task;
  clock : Z
}.

Definition set_gen (g : option (list item)) (s : DeferredGenerator) :=
  {| gen := g; max_errors := max_errors s; timeout := timeout s;
     errors := errors s; _start := _start s; self := self s |}.
Definition set_errors (e : option (list exc_info)) (s : DeferredGenerator) :=
  {| gen := gen s; max_errors := max_errors s; timeout := timeout s;
     errors := e; _start := _start s; self := self s |}.
Definition set_start (t : Z) (s : DeferredGenerator) :=
  {| gen := gen s; max_errors := max_errors s; timeout := timeout s;
     errors := errors s; _start := t; self := self s |}.

Definition set_objects (h : heap) (w : world) :=
  {| objects := h; driver := driver w; loop := loop w; clock := clock w |}.
Definition set_driver (s : DeferredGenerator) (w : world) :=
  {| objects := objects w; driver := s; loop := loop w; clock := clock w |}.
Definition set_loop (l : list task) (w : world) :=
  {| objects := objects w; driver := driver w; loop := l; clock := clock w |}.
Definition set_clock (t : Z) (w : world) :=
  {| objects := objects w; driver := driver w; loop := loop w; clock := t |}.

(** [loop.call_soon_threadsafe(f, *args)] *)
Definition call_soon_threadsafe (t : task) (w : world) : world :=
  set_loop (loop w ++ [t]) w.

Definition Timeout : exn := RuntimeError "Timeout!".

Section driver.
Variable K : knot.

(** [DeferredGenerator.should_stop]; [exc] is what [sys.exc_info()] returns
    at the call. *)
Definition should_stop (exc : exc_info) (failure : value) (w : world)
    : option (bool * world) :=
  errs ← errors (driver w);
  let errs' := Failure_append exc errs failure in
  let s := set_errors (Some errs') (driver w) in
  Some (negb (max_errors s =? 0)%Z && (max_errors s <=? Z.of_nat (length errs'))%Z,
        set_driver s w).

(** [DeferredGenerator.conclude] *)
Definition conclude (last_result : value) (w : world) : option (res value * world) :=
  errs ← errors (driver w);
  let r := if is_empty errs then last_result else VFailure errs in
  let w1 := set_driver (set_errors None (set_gen None (driver w))) w in
  '(c, h) ← callback K (self (driver w1)) r (objects w1);
  Some (c, set_objects h w1).

(** The beginning of [DeferredGenerator._consume]: the start time is
    taken, and a failure handed over as last result goes to [should_stop]. *)
Definition begin_consume (last_result : value) (w : world) : option (bool * world) :=
  let w := set_driver (set_start (clock w) (driver w)) w in
  if is_failure last_result
  then should_stop no_exc_info last_result w
  else Some (false, w).

(** [DeferredGenerator._consume] and [DeferredGenerator._check_async],
    which call each other once for every item the generator produces:
    [consume_from items] is [_consume] with [items] left in the generator.
    A generator that raised is finished. *)
Fixpoint consume_from (items : list item) (last_result : value) (w : world)
    : option (res value * world) :=
  sw ← begin_consume last_result w;
  let w := sw.2 in
  if sw.1 : bool then conclude VNone w
  else
    match items with
    | [] => conclude last_result (set_driver (set_gen (Some []) (driver w)) w)
    | GenRaise e tb :: _ =>
        let w := set_driver (set_gen (Some []) (driver w)) w in
        sw ← should_stop (handling e tb) (VExc e) w;
        let w := sw.2 in
        if sw.1 : bool then conclude VNone w
        else
          (* [self._consume()]: the generator is finished *)
          let w := set_driver (set_start (clock w) (driver w)) w in
          conclude VNone w
    | Yield v :: rest =>
        let w := set_driver (set_gen (Some rest) (driver w)) w in
        r ← maybe_async (objects w) v;
        if is_async r then
          if (timeout (driver w) <? clock w - _start (driver w))%Z then
            '(c, h) ← callback_in K (handling Timeout own_trace)
                        (self (driver w)) (VExc Timeout) (objects w);
            Some (c, set_objects h w)
          else Some (Ok VNone, call_soon_threadsafe (check_async_task r) w)
        else
          match r with
          | VSentinel NOT_DONE => Some (Ok VNone, call_soon_threadsafe consume_task w)
          | VSentinel CLEAR_ERRORS =>
              _ ← errors (driver w);
              consume_from rest VNone (set_driver (set_errors (Some []) (driver w)) w)
          | _ => consume_from rest r w
          end
    end.

(** [DeferredGenerator._consume] *)
Definition _consume (last_result : value) (w : world) : option (res value * world) :=
  items ← gen (driver w);
  consume_from items last_result w.

(** [DeferredGenerator._check_async] *)
Definition _check_async (v : value) (w : world) : option (res value * world) :=
  r ← maybe_async (objects w) v;
  if is_async r then
    if (timeout (driver w) <? clock w - _start (driver w))%Z then
      '(c, h) ← callback_in K (handling Timeout own_trace)
                  (self (driver w)) (VExc Timeout) (objects w);
      Some (c, set_objects h w)
    else Some (Ok VNone, call_soon_threadsafe (check_async_task r) w)
  else
    match r with
    | VSentinel NOT_DONE => Some (Ok VNone, call_soon_threadsafe consume_task w)
    | VSentinel CLEAR_ERRORS =>
        _ ← errors (driver w);
        _consume VNone (set_driver (set_errors (Some []) (driver w)) w)
    | _ => _consume r w
    end.

(** [DeferredGenerator.__init__]: the deferred of the driver is allocated
    at the end of the heap, and the generator is consumed at once. *)
Definition DeferredGenerator_init (g : list item) (max_errs : option Z)
    (tmo : Z) (h : heap) (now : Z) : option (res value * world) :=
  let m := match max_errs with
           | Some m => if (m =? 0)%Z then 0%Z else Z.max 1 m
           | None => 0%Z
           end in
  let s := {| gen := Some g; max_errors := m; timeout := tmo;
              errors := Some []; _start := now; self := length h |} in
  _consume VNone
    {| objects := h ++ [new_deferred]; driver := s; loop := []; clock := now |}.

(** One turn of the event loop at time [now]: the oldest posted call is
    run. *)
Definition loop_turn (now : Z) (w : world) : option (res value * world) :=
  match loop w with
  | [] => Some (Ok VNone, set_clock now w)
  | t :: ts =>
      let w := set_clock now (set_loop ts w) in
      match t with
      | check_async_task r => _check_async r w
      | consume_task => _consume VNone w
      end
  end.

(** The event loop runs one turn at each of the given times, until no call
    is posted or a call raises. *)
Fixpoint run_loop (times : list Z) (w : world) : option (res value * world) :=
  match times with
  | [] => Some (Ok VNone, w)
  | now :: times' =>
      if is_empty (loop w) then Some (Ok VNone, w)
      else
        '(r, w1) ← loop_turn now w;
        match r with
        | Ok _ => run_loop times' w1
        | Err e => Some (Err e, w1)
        end
  end.

End driver.

End Generator.

(** * Connections and producers ([transports/protocols.py]) *)

Module Protocols.
Import Defer.

Abbreviation bytes := (list byte).

(** ** Event handlers

    The deferred behind a one time event is represented by its fired flag
    and the callbacks added to it; a listener is named, and its invocation
    is recorded as a notice. *)

Inductive listener :=
| _add_connection (producer : nat)
| _remove_connection (producer : nat)
| user_listener (id : nat).

(** What is registered on an event: the [safe_callback] wrapper that
    [bind_event] builds, or the listener as it is. *)
Inductive registered :=
| safe_callback (l : listener)
| unwrapped (l : listener).

(** How a callback was added to the deferred of a one time event. *)
Inductive addition :=
| add_both (c : registered)
| add_callback (c : registered).

Record one_time := OneTime {
  fired : bool;
  additions : list addition
}.

Record EventHandler := mkEventHandler {
  ONE_TIME_EVENTS : list (string * one_time);
  MANY_TIMES_EVENTS : list (string * list registered)
}.

(** [EventHandler.__init__], from the two tuples of names of the class. *)
Definition EventHandler_init (one many : list string) : EventHandler :=
  {| ONE_TIME_EVENTS := (λ e, (e, OneTime false [])) <$> one;
     MANY_TIMES_EVENTS := (λ e, (e, [])) <$> many |}.

Fixpoint assoc {V} (name : string) (l : list (string * V)) : option V :=
  match l with
  | [] => None
  | (n, v) :: l' => if String.eqb name n then Some v else assoc name l'
  end.

Fixpoint assoc_set {V} (name : string) (v : V) (l : list (string * V))
    : list (string * V) :=
  match l with
  | [] => []
  | (n, v') :: l' =>
      if String.eqb name n then (n, v) :: l' else (n, v') :: assoc_set name v l'
  end.

(** [EventHandler.bind_event]; an unknown event is only logged. *)
Definition bind_event (event : string) (callback : listener) (eh : EventHandler)
    : EventHandler :=
  let callback := safe_callback callback in
  match assoc event (ONE_TIME_EVENTS eh) with
  | Some d =>
      {| ONE_TIME_EVENTS :=
           assoc_set event (OneTime (fired d) (additions d ++ [add_both callback]))
             (ONE_TIME_EVENTS eh);
         MANY_TIMES_EVENTS := MANY_TIMES_EVENTS eh |}
  | None =>
      match assoc event (MANY_TIMES_EVENTS eh) with
      | Some l =>
          {| ONE_TIME_EVENTS := ONE_TIME_EVENTS eh;
             MANY_TIMES_EVENTS := assoc_set event (l ++ [callback]) (MANY_TIMES_EVENTS eh) |}
      | None => eh
      end
  end.

(** [EventHandler.copy_many_times_events(other)], with no names given. *)
Definition copy_many_times_events (other : list (string * list registered))
    (eh : EventHandler) : EventHandler :=
  foldl (λ eh '(name, callbacks),
    match assoc name (MANY_TIMES_EVENTS eh) with
    | Some l =>
        {| ONE_TIME_EVENTS := ONE_TIME_EVENTS eh;
           MANY_TIMES_EVENTS := assoc_set name (l ++ callbacks) (MANY_TIMES_EVENTS eh) |}
    | None =>
        match assoc name (ONE_TIME_EVENTS eh) with
        | Some d =>
            {| ONE_TIME_EVENTS :=
                 assoc_set name
                   (OneTime (fired d) (additions d ++ (add_callback <$> callbacks)))
                   (ONE_TIME_EVENTS eh);
               MANY_TIMES_EVENTS := MANY_TIMES_EVENTS eh |}
        | None => eh
        end
    end) eh other.

(** ** Consumers and connections *)

(** The data an event is fired with. *)
Inductive event_data :=
| the_consumer (c : nat)
| the_result (v : value)
| NOTHING.

(** What the [data_received] method of a consumer class does with the bytes
    it is fed: it may call [self.finished(result)] and then returns what it
    did not consume ([None] or bytes), or it raises. *)
Inductive reaction :=
| Returns (finished : option event_data) (leftover : option bytes)
| Raises (e : exn).

(** A class of consumers: what [data_received] does at the [n]-th feed. *)
Definition consumer_class := Z → bytes → reaction.

Record ProtocolConsumer := mkProtocolConsumer {
  consumer_events : EventHandler;
  _connection : bool;
  _current_request : option value;
  _data_received_count : Z;
  _request_processed : Z;
  _reconnect_retries : Z;
  data_received_method : consumer_class
}.

Record Connection := mkConnection {
  connection_events : EventHandler;
  _address : string;
  _session : Z;
  _processed : Z;
  _timeout : Z;
  _idle_timeout : option nat;
  _current_consumer : option nat;
  _consumer_factory : consumer_class;
  _producer : nat;
  closed : bool
}.

(** A listener called with the data of an event. *)
Record notice := Notice {
  event_name : string;
  notified : registered;
  with_data : event_data
}.

(** One connection, the consumers made for it, the handles
    [call_later] has armed and the listeners called so far. *)
Record world := World {
  connection : Connection;
  consumers : list ProtocolConsumer;
  armed : list nat;
  handles : nat;
  notices : list notice
}.

Definition ProtocolError : exn := Exn "ProtocolError" "".
Definition AssertionError (msg : string) : exn := Exn "AssertionError" msg.

(** [Connection.__init__] *)
Definition Connection_init (address : string) (session timeout : Z)
    (consumer_factory : consumer_class) (producer : nat) : Connection :=
  {| connection_events :=
       EventHandler_init ["connection_made"; "connection_lost"]
         ["data_received"; "pre_request"; "post_request"];
     _address := address; _session := session; _processed := 0;
     _timeout := timeout; _idle_timeout := None; _current_consumer := None;
     _consumer_factory := consumer_factory; _producer := producer;
     closed := false |}.

Definition set_current_consumer (c : option nat) (k : Connection) : Connection :=
  {| connection_events := connection_events k; _address := _address k;
     _session := _session k; _processed := _processed k; _timeout := _timeout k;
     _idle_timeout := _idle_timeout k; _current_consumer := c;
     _consumer_factory := _consumer_factory k; _producer := _producer k;
     closed := closed k |}.
Definition set_processed (n : Z) (k : Connection) : Connection :=
  {| connection_events := connection_events k; _address := _address k;
     _session := _session k; _processed := n; _timeout := _timeout k;
     _idle_timeout := _idle_timeout k; _current_consumer := _current_consumer k;
     _consumer_factory := _consumer_factory k; _producer := _producer k;
     closed := closed k |}.
Definition set_idle_timeout (t : option nat) (k : Connection) : Connection :=
  {| connection_events := connection_events k; _address := _address k;
     _session := _session k; _processed := _processed k; _timeout := _timeout k;
     _idle_timeout := t; _current_consumer := _current_consumer k;
     _consumer_factory := _consumer_factory k; _producer := _producer k;
     closed := closed k |}.
Definition set_connection_events (e : EventHandler) (k : Connection) : Connection :=
  {| connection_events := e; _address := _address k;
     _session := _session k; _processed := _processed k; _timeout := _timeout k;
     _idle_timeout := _idle_timeout k; _current_consumer := _current_consumer k;
     _consumer_factory := _consumer_factory k; _producer := _producer k;
     closed := closed k |}.

Definition set_consumer_connection (b : bool) (c : ProtocolConsumer) : ProtocolConsumer :=
  {| consumer_events := consumer_events c; _connection := b;
     _current_request := _current_request c;
     _data_received_count := _data_received_count c;
     _request_processed := _request_processed c;
     _reconnect_retries := _reconnect_retries c;
     data_received_method := data_received_method c |}.
Definition set_consumer_events (e : EventHandler) (c : ProtocolConsumer) : ProtocolConsumer :=
  {| consumer_events := e; _connection := _connection c;
     _current_request := _current_request c;
     _data_received_count := _data_received_count c;
     _request_processed := _request_processed c;
     _reconnect_retries := _reconnect_retries c;
     data_received_method := data_received_method c |}.
Definition fed (c : ProtocolConsumer) : ProtocolConsumer :=
  {| consumer_events := consumer_events c; _connection := _connection c;
     _current_request := _current_request c;
     _data_received_count := _data_received_count c + 1;
     _request_processed := _request_processed c;
     _reconnect_retries := 0;
     data_received_method := data_received_method c |}.

Definition with_connection (k : Connection) (w : world) : world :=
  {| connection := k; consumers := consumers w; armed := armed w;
     handles := handles w; notices := notices w |}.
Definition with_consumers (cs : list ProtocolConsumer) (w : world) : world :=
  {| connection := connection w; consumers := cs; armed := armed w;
     handles := handles w; notices := notices w |}.
Definition with_notices (n : list notice) (w : world) : world :=
  {| connection := connection w; consumers := consumers w; armed := armed w;
     handles := handles w; notices := n |}.

(** Whether what is registered is a [safe_callback] wrapper, which swallows
    what the listener raises and returns what it was given. *)
Definition is_wrapped (c : registered) : bool :=
  match c with safe_callback _ => true | unwrapped _ => false end.

(** [log_failure(event_data)], for data that is no deferred; a consumer
    or a handler is no failure. *)
Definition log_event_data (data : event_data) : option exn :=
  match data with
  | the_result v => log_failure_raises v
  | _ => None
  end.

(** [EventHandler.fire_event], called while no exception is being handled:
    the handler after the call, the listeners called, and the exception the
    call ends with, if any.  The data goes through [as_failure] first.  A
    one time event calls back its deferred: with a deferred as data this
    raises [RuntimeError], on a second firing [AlreadyCalledError], both
    before any listener is called; otherwise the callbacks added to it run
    in order, those added by [add_callback] being passed over when the data
    is a failure.  The listeners of a many times event are called in order.
    [log_failure] comes last, so that what it raises leaves the event
    fired.  The signal of [pulsar.utils.events] is not modelled.  There is
    no result where the model has none to give: when a listener registered
    without its wrapper would be called, as its return value and its
    exceptions are its own, and when [log_failure] would look into a
    deferred. *)
Definition fire_event (event : string) (data : event_data) (eh : EventHandler)
    : option (EventHandler * list notice * option exn) :=
  let data := match data with
              | the_result v => the_result (as_failure no_exc_info v)
              | _ => data
              end in
  let deferred_data := match data with
                       | the_result (VDeferred _) => true
                       | _ => false
                       end in
  let failure_data := match data with
                      | the_result (VFailure _) => true
                      | _ => false
                      end in
  match assoc event (ONE_TIME_EVENTS eh) with
  | Some d =>
      if deferred_data then
        Some (eh, [],
              Some (RuntimeError "Received a deferred instance from callback function"))
      else if fired d then Some (eh, [], Some AlreadyCalledError)
      else if forallb (λ a, match a with
                            | add_both c | add_callback c => is_wrapped c
                            end) (additions d)
      then
        Some ({| ONE_TIME_EVENTS := assoc_set event (OneTime true []) (ONE_TIME_EVENTS eh);
                 MANY_TIMES_EVENTS := MANY_TIMES_EVENTS eh |},
              omap (λ a, match a with
                         | add_both c => Some (Notice event c data)
                         | add_callback c =>
                             if failure_data then None else Some (Notice event c data)
                         end) (additions d),
              log_event_data data)
      else None
  | None =>
      if deferred_data then None
      else
        match assoc event (MANY_TIMES_EVENTS eh) with
        | Some l =>
            if forallb is_wrapped l
            then Some (eh, (λ c, Notice event c data) <$> l, log_event_data data)
            else None
        | None => Some (eh, [], log_event_data data)
        end
  end.

(** [Connection._cancel_timeout] *)
Definition _cancel_timeout (w : world) : world :=
  match _idle_timeout (connection w) with
  | Some t =>
      {| connection := set_idle_timeout None (connection w);
         consumers := consumers w;
         armed := filter (λ t', t' ≠ t) (armed w);
         handles := handles w; notices := notices w |}
  | None => w
  end.

(** [Connection._add_idle_timeout] *)
Definition _add_idle_timeout (w : world) : world :=
  let k := connection w in
  if negb (closed k) && negb (bool_decide (is_Some (_idle_timeout k)))
     && negb (_timeout k =? 0)%Z
  then
    {| connection := set_idle_timeout (Some (handles w)) k;
       consumers := consumers w;
       armed := armed w ++ [handles w];
       handles := S (handles w); notices := notices w |}
  else w.

(** [Connection.set_consumer] *)
Definition set_consumer (c : nat) (w : world) : option (res unit * world) :=
  match _current_consumer (connection w) with
  | Some _ => Some (Err (AssertionError "Consumer is not None"), w)
  | None =>
      cons ← consumers w !! c;
      let k := set_processed (_processed (connection w) + 1)
                 (set_current_consumer (Some c) (connection w)) in
      let w1 := with_consumers (<[c := set_consumer_connection true cons]> (consumers w))
                  (with_connection k w) in
      '(eh, ns, raised) ← fire_event "pre_request" (the_consumer c) (connection_events k);
      let w2 := with_notices (notices w1 ++ ns)
                  (with_connection (set_connection_events eh k) w1) in
      match raised with
      | Some e => Some (Err e, w2)
      | None => Some (Ok (), w2)
      end
  end.

(** [ProtocolConsumer.__init__(connection)], as the consumer factory of
    the connection calls it. *)
Definition ProtocolConsumer_init (cls : consumer_class) (w : world)
    : option (res nat * world) :=
  let c := length (consumers w) in
  let cons := {| consumer_events := EventHandler_init ["finish"] ["data_received"];
                 _connection := false; _current_request := None;
                 _data_received_count := 0; _request_processed := 1;
                 _reconnect_retries := 0; data_received_method := cls |} in
  '(r, w1) ← set_consumer c (with_consumers (consumers w ++ [cons]) w);
  match r with
  | Ok _ => Some (Ok c, w1)
  | Err e => Some (Err e, w1)
  end.

(** [Connection.finished]; an exception out of either event leaves the
    consumer current. *)
Definition Connection_finished (c : nat) (result : event_data) (w : world)
    : option (res unit * world) :=
  if bool_decide (_current_consumer (connection w) = Some c) then
    cons ← consumers w !! c;
    '(eh, ns, raised) ←
      fire_event "post_request" (the_consumer c) (connection_events (connection w));
    let w1 := with_notices (notices w ++ ns)
                (with_connection (set_connection_events eh (connection w)) w) in
    match raised with
    | Some e => Some (Err e, w1)
    | None =>
        '(ceh, cns, raised) ← fire_event "finish" result (consumer_events cons);
        let cons := set_consumer_events ceh cons in
        let w2 := with_notices (notices w1 ++ cns)
                    (with_consumers (<[c := cons]> (consumers w1)) w1) in
        match raised with
        | Some e => Some (Err e, w2)
        | None =>
            Some (Ok (),
                  with_consumers (<[c := set_consumer_connection false cons]> (consumers w2))
                    (with_connection (set_current_consumer None (connection w2)) w2))
        end
    end
  else Some (Err (RuntimeError ""), w).

(** [ProtocolConsumer.finished] *)
Definition ProtocolConsumer_finished (c : nat) (result : event_data) (w : world)
    : option (res unit * world) :=
  cons ← consumers w !! c;
  if _connection cons then Connection_finished c result w else Some (Ok (), w).

(** [ProtocolConsumer._data_received] *)
Definition _data_received (c : nat) (data : bytes) (w : world)
    : option (res (option bytes) * world) :=
  cons ← consumers w !! c;
  let cons := fed cons in
  let w1 := with_consumers (<[c := cons]> (consumers w)) w in
  match data_received_method cons (_data_received_count cons) data with
  | Raises e => Some (Err e, w1)
  | Returns fin leftover =>
      match fin with
      | Some result =>
          '(r, w2) ← ProtocolConsumer_finished c result w1;
          match r with
          | Ok _ => Some (Ok leftover, w2)
          | Err e => Some (Err e, w2)
          end
      | None => Some (Ok leftover, w1)
      end
  end.

(** [bool(data)] *)
Definition has_data (data : option bytes) : option bytes :=
  match data with
  | Some (b :: l) => Some (b :: l)
  | _ => None
  end.

(** The consumer of one pass of the loop: the current one, or a new one
    from the consumer factory when there is none. *)
Definition current_or_new (w : world) : option (res nat * world) :=
  match _current_consumer (connection w) with
  | Some c => Some (Ok c, w)
  | None => ProtocolConsumer_init (_consumer_factory (connection w)) w
  end.

(** The [while data] loop of [Connection.data_received]; the fuel bounds
    the number of iterations. *)
Fixpoint data_loop (n : nat) (data : option bytes) (w : world)
    : option (res unit * world) :=
  match has_data data with
  | None => Some (Ok (), w)
  | Some data =>
      match n with
      | 0 => None
      | S n' =>
          '(mk, w1) ← current_or_new w;
          match mk with
          | Err e => Some (Err e, w1)
          | Ok consumer =>
              '(r, w2) ← _data_received consumer data w1;
              match r with
              | Err e => Some (Err e, w2)
              | Ok data' =>
                  if bool_decide (is_Some (has_data data'))
                     && bool_decide (is_Some (_current_consumer (connection w2)))
                  then Some (Err ProtocolError, w2)
                  else data_loop n' data' w2
              end
          end
      end
  end.

(** [Connection.data_received] *)
Definition data_received (n : nat) (data : option bytes) (w : world)
    : option (res unit * world) :=
  '(r, w1) ← data_loop n data (_cancel_timeout w);
  match r with
  | Ok _ => Some (Ok (), _add_idle_timeout w1)
  | Err e => Some (Err e, w1)
  end.

(** ** Producers *)

Record Producer := mkProducer {
  producer_id : nat;
  producer_events : EventHandler;
  _received : Z;
  producer_timeout : Z;
  _max_connections : Z;
  _concurrent_connections : list Z
}.

(** [Producer.__init__], with the default connection factory. *)
Definition Producer_init (id : nat) (max_connections timeout : Z) : Producer :=
  {| producer_id := id; producer_events := EventHandler_init [] [];
     _received := 0; producer_timeout := timeout;
     _max_connections := max_connections; _concurrent_connections := [] |}.

Definition set_received (n : Z) (p : Producer) : Producer :=
  {| producer_id := producer_id p; producer_events := producer_events p;
     _received := n; producer_timeout := producer_timeout p;
     _max_connections := _max_connections p;
     _concurrent_connections := _concurrent_connections p |}.

(** [Producer.new_connection]: the connection built, or the exception, and
    the producer after the call. *)
Definition new_connection (address : string) (consumer_factory : consumer_class)
    (producer : option Producer) (self : Producer) : res Connection * Producer :=
  if negb (_max_connections self =? 0)%Z && (_max_connections self <=? _received self)%Z
  then (Err (RuntimeError "Too many connections"), self)
  else
    let session := (_received self + 1)%Z in
    let self := set_received session self in
    let producer := default self producer in
    let conn := Connection_init address session (producer_timeout self)
                  consumer_factory (producer_id producer) in
    let eh := bind_event "connection_made" (_add_connection (producer_id self))
                (connection_events conn) in
    let eh := copy_many_times_events (MANY_TIMES_EVENTS (producer_events producer)) eh in
    let eh := bind_event "connection_lost" (_remove_connection (producer_id self)) eh in
    (Ok (set_connection_events eh conn), self).

End Protocols.

(** * Properties of the deferred engine *)

Module DeferTheory.
Import Defer.

(** ** A deferred, once called, stays called

    No method removes an object from the heap or resets [_called]. *)

Definition keeps (h h' : heap) : Prop :=
  ∀ r d, h !! r = Some d → ∃ d', h' !! r = Some d' ∧ (_called d = true → _called d' = true).

Lemma keeps_refl h : keeps h h.
Proof. intros r d H. eauto. Qed.
Lemma keeps_trans h1 h2 h3 : keeps h1 h2 → keeps h2 h3 → keeps h1 h3.
Proof. intros A B r d H. destruct (A _ _ H) as (d' & H' & C). destruct (B _ _ H') as (d'' & H'' & D). eauto. Qed.
Lemma keeps_insert h r d d' :
  h !! r = Some d → (_called d = true → _called d' = true) → keeps h (<[r := d']> h).
Proof.
  intros H C r0 d0 H0. destruct (decide (r = r0)) as [->|N].
  - exists d'. rewrite list_lookup_insert_eq; [|by eapply lookup_lt_Some]. split; [done|]. intros. apply C. congruence.
  - exists d0. rewrite list_lookup_insert_ne; done.
Qed.
Lemma keeps_app h l : keeps h (h ++ l).
Proof. intros r d H. exists d. split; [|done]. by apply lookup_app_l_Some. Qed.

Ltac inv_some :=
  repeat match goal with
  | H : (_ ≫= _) = Some _ |- _ => apply bind_Some in H; destruct H as (? & ? & H)
  | H : Some _ = Some _ |- _ => inversion H; subst; clear H
  | H : None = Some _ |- _ => discriminate H
  | H : (let '(_, _) := ?x in _) = Some _ |- _ => destruct x
  | H : match ?x with _ => _ end = Some _ |- _ => destruct x eqn:?
  end.

Record knot_keeps (K : knot) : Prop := {
  kk_run : ∀ self h h', _run_callbacks_rec K self h = Some h' → keeps h h';
  kk_while : ∀ self h h', while_rec K self h = Some h' → keeps h h';
  kk_add : ∀ self k v h r h', _add_rec K self k v h = Some (r, h') → keeps h h'
}.

Ltac keeps_last :=
  first [ eassumption
        | (eapply keeps_insert; [eassumption | simpl; tauto])
        | apply keeps_app ].
Ltac keeps_step :=
  first [ apply keeps_refl | keeps_last | (eapply keeps_trans; [ | keeps_last ]) ].

Section keeps_methods.
Variable K : knot.
Hypothesis HK : knot_keeps K.

Ltac use_knot :=
  repeat match goal with
  | H : _run_callbacks_rec K _ _ = Some _ |- _ => apply (kk_run K HK) in H
  | H : while_rec K _ _ = Some _ |- _ => apply (kk_while K HK) in H
  | H : _add_rec K _ _ _ _ = Some _ |- _ => apply (kk_add K HK) in H
  end.

Lemma add_callback_keeps self cb eb h r h' :
  add_callback K self cb eb h = Some (r, h') → keeps h h'.
Proof.
  unfold add_callback. intros H. inv_some; use_knot; repeat keeps_step.
Qed.

Lemma callback_keeps self v h r h' :
  callback K self v h = Some (r, h') → keeps h h'.
Proof.
  unfold callback, callback_in. intros H. inv_some; use_knot; repeat keeps_step.
Qed.

Lemma _continue_keeps self v h r h' :
  _continue K self v h = Some (r, h') → keeps h h'.
Proof.
  unfold _continue. intros H. inv_some; use_knot; repeat keeps_step.
Qed.

Lemma _finish_keeps self h r h' :
  _finish K self h = Some (r, h') → keeps h h'.
Proof.
  unfold _finish. intros H. inv_some;
  repeat match goal with H : callback K _ _ _ = Some _ |- _ => apply callback_keeps in H end;
  repeat keeps_step.
Qed.

Lemma _deferred_done_keeps self k v h r h' :
  _deferred_done K self k v h = Some (r, h') → keeps h h'.
Proof.
  unfold _deferred_done. intros H. inv_some;
  repeat match goal with H : _finish K _ _ = Some _ |- _ => apply _finish_keeps in H end;
  repeat keeps_step.
Qed.

Lemma call_keeps c v h r h' :
  call K c v h = Some (r, h') → keeps h h'.
Proof.
  unfold call. intros H. destruct c; inv_some; repeat keeps_step.
  - eapply _continue_keeps; eauto.
  - eapply _deferred_done_keeps; eauto.
Qed.

Lemma while_callbacks_keeps self h h' :
  while_callbacks K self h = Some h' → keeps h h'.
Proof.
  unfold while_callbacks, add_both. intros H. inv_some; use_knot;
  repeat match goal with
  | H : call K _ _ _ = Some _ |- _ => apply call_keeps in H
  | H : add_callback K _ _ _ _ = Some _ |- _ => apply add_callback_keeps in H
  end.
  all: repeat keeps_step.
Qed.

Lemma _run_callbacks_keeps self h h' :
  _run_callbacks K self h = Some h' → keeps h h'.
Proof.
  unfold _run_callbacks. intros H. inv_some; [apply keeps_refl|].
  by eapply while_callbacks_keeps.
Qed.

Lemma lock_keeps self h r h' :
  lock K self h = Some (r, h') → keeps h h'.
Proof.
  unfold lock. intros H. inv_some;
  repeat match goal with H : _finish K _ _ = Some _ |- _ => apply _finish_keeps in H end;
  repeat keeps_step.
Qed.

Lemma update_loop_keeps self items : ∀ h r h',
  update_loop K self items h = Some (r, h') → keeps h h'.
Proof.
  induction items as [|[k v] items IH]; simpl; intros h r h' H; inv_some; use_knot.
  - apply keeps_refl.
  - eapply keeps_trans; [eassumption|]. eauto.
  - done.
Qed.

Lemma update_keeps self s h r h' :
  update K self s h = Some (r, h') → keeps h h'.
Proof.
  unfold update. intros H. inv_some; [by eapply update_loop_keeps | apply keeps_refl].
Qed.

Lemma MultiDeferred_init_keeps data fire hv log h r h' :
  MultiDeferred_init K data fire hv log h = Some (r, h') → keeps h h'.
Proof.
  unfold MultiDeferred_init. intros H. inv_some;
  repeat match goal with H : update K _ _ _ = Some _ |- _ => apply update_keeps in H end;
  repeat keeps_step.
Qed.

Lemma _make_keeps self v h r h' :
  _make K self v h = Some (r, h') → keeps h h'.
Proof.
  unfold _make. intros H. inv_some;
  repeat match goal with
  | H : MultiDeferred_init K _ _ _ _ _ = Some _ |- _ => apply MultiDeferred_init_keeps in H
  | H : lock K _ _ = Some _ |- _ => apply lock_keeps in H
  end; repeat keeps_step.
Qed.

Lemma _add_deferred_keeps self k v h r h' :
  _add_deferred K self k v h = Some (r, h') → keeps h h'.
Proof.
  unfold _add_deferred, add_both. intros H. inv_some;
  repeat match goal with
  | H : add_callback K _ _ _ _ = Some _ |- _ => apply add_callback_keeps in H
  end; repeat keeps_step.
Qed.

Lemma _add_store_keeps self k v h r h' :
  _add_store K self k v h = Some (r, h') → keeps h h'.
Proof.
  unfold _add_store. intros H. inv_some;
  repeat match goal with
  | H : _add_deferred K _ _ _ _ = Some _ |- _ => apply _add_deferred_keeps in H
  end; repeat keeps_step.
Qed.

Lemma _add_keeps self k v h r h' :
  _add K self k v h = Some (r, h') → keeps h h'.
Proof.
  unfold _add. intros H. inv_some; use_knot;
  repeat match goal with
  | H : _add_store K _ _ _ _ = Some _ |- _ => apply _add_store_keeps in H
  | H : _make K _ _ _ = Some _ |- _ => apply _make_keeps in H
  end; repeat keeps_step.
Qed.
End keeps_methods.

Lemma fuel_keeps n : knot_keeps (fuel n).
Proof.
  induction n as [|n IH]; split; simpl; try discriminate.
  - intros *. by apply _run_callbacks_keeps.
  - intros *. by apply while_callbacks_keeps.
  - intros *. by apply _add_keeps.
Qed.

(** A deferred without callbacks, after [callback(v)]. *)
Definition drained_once (v : value) : deferred :=
  {| _called := true; _runningCallbacks := false; paused := 0;
     _callbacks := []; result := Some v; multi := None |}.

(** ** Single settlement *)

(** C1.  After a first successful [d.callback(v)], a second call
    [d.callback(w)], with [w] a value, fails with [AlreadyCalledError] and
    changes nothing; and [d.callback(v)] with [v] a deferred fails with
    [RuntimeError] (the spec's ProgrammingError) and leaves [d] as it was, so
    that an unsettled [d] stays unsettled. *)
Theorem callback_single_settlement :
  (∀ n n' self v w h r h',
     callback (fuel n) self v h = Some (Ok r, h') →
     is_async w = false →
     callback (fuel n') self w h' = Some (Err AlreadyCalledError, h'))
  ∧ (∀ K self inner h,
       is_Some (h !! self) →
       callback K self (VDeferred inner) h =
       Some (Err (RuntimeError "Received a deferred instance from callback function"), h)).
Proof.
  split.
  - intros n n' self v w h r h' H Hw. unfold callback, callback_in in H.
    destruct (h !! self) as [d|] eqn:Hd; [simpl in H|done].
    destruct (is_async v); [done|]. destruct (_called d); [done|].
    destruct (_run_callbacks_rec (fuel n) self _) as [h2|] eqn:Hrun; [simpl in H|done].
    apply (kk_run _ (fuel_keeps n)) in Hrun.
    destruct (Hrun self (set_called true (set_result (as_failure no_exc_info v) d)))
      as (d' & Hd' & Hc).
    { apply list_lookup_insert_eq. by eapply lookup_lt_Some. }
    rewrite Hd' in H. simpl in H. destruct (result d'); [simpl in H|done].
    injection H as <- <-.
    unfold callback, callback_in. rewrite Hd'. simpl. rewrite Hw. rewrite Hc; done.
  - intros K self inner h [d Hd]. unfold callback, callback_in. by rewrite Hd.
Qed.

Lemma callback_single_settlement_witness :
  callback (fuel 1) 0 (VInt 2) [drained_once (VInt 1)] =
  Some (Err AlreadyCalledError, [drained_once (VInt 1)]).
Proof.
  apply (proj1 callback_single_settlement 1 1 0 (VInt 1) (VInt 2)
           [new_deferred] (VInt 1)); reflexivity.
Defined.

(** Where the two guards meet, the test of the argument comes first: on a
    deferred already called, [callback] with a deferred as argument raises
    [RuntimeError], and the deferred stays called. *)
Lemma callback_with_deferred_after_settlement :
  callback (fuel 1) 0 (VInt 1) [new_deferred; new_deferred] =
    Some (Ok (VInt 1), [drained_once (VInt 1); new_deferred])
  ∧ callback (fuel 1) 0 (VDeferred 1) [drained_once (VInt 1); new_deferred] =
    Some (Err (RuntimeError "Received a deferred instance from callback function"),
          [drained_once (VInt 1); new_deferred])
  ∧ RuntimeError "Received a deferred instance from callback function"
    ≠ AlreadyCalledError
  ∧ _called (drained_once (VInt 1)) = true.
Proof. by repeat split. Qed.

(** ** [result_or_self] *)

(** [d.add_callback(lambda _: inner); d.callback(None)], with [inner] not
    called: the deferred [d] as it is left. *)
Definition paused_scenario : option deferred :=
  '(_, h1) ← add_callback (fuel 3) 0 (Callable (Fn (λ _, Return (VDeferred 1))))
               (NonCallable VNone) [new_deferred; new_deferred];
  '(_, h2) ← callback (fuel 3) 0 VNone h1;
  h2 !! 0.

Definition paused_outer : deferred :=
  {| _called := true; _runningCallbacks := false; paused := 1;
     _callbacks := []; result := Some (VDeferred 1); multi := None |}.

(** C4 (as amended).  [result_or_self] returns the stored result exactly
    when the deferred has been called and its callback queue is empty,
    whatever its pause depth; in every other state it returns the deferred
    itself. *)
Theorem result_or_self_spec self d :
  (_called d = true → _callbacks d = [] → result_or_self self d = result d)
  ∧ (_called d = false ∨ _callbacks d ≠ [] →
     result_or_self self d = Some (VDeferred self)).
Proof.
  unfold result_or_self. split.
  - by intros -> ->.
  - intros [->|Hq]; [done|]. destruct (_callbacks d); [done|]. by rewrite andb_false_r.
Qed.

Lemma result_or_self_spec_witness :
  result_or_self 0 paused_outer = result paused_outer.
Proof. apply (proj1 (result_or_self_spec 0 paused_outer)); reflexivity. Defined.

(** C4, as stated, fails on a deferred that is called, has an empty queue
    and is paused: [result_or_self] returns the stored result (the deferred
    it waits for), not the deferred itself. *)
Lemma result_or_self_while_paused :
  paused_scenario = Some paused_outer
  ∧ (0 < paused paused_outer)%Z
  ∧ result_or_self 0 paused_outer = Some (VDeferred 1)
  ∧ result_or_self 0 paused_outer ≠ Some (VDeferred 0).
Proof. by repeat split. Qed.

(** ** [add_callback] with an argument that is not callable *)

(** [hasattr(o, '__call__')] *)
Definition is_callable (o : pyobj) : bool :=
  match o with Callable _ => true | NonCallable _ => false end.

(** C10.  When the callback, or an errback that was supplied (not [None]),
    is not callable, [add_callback] raises [TypeError] and the heap, hence
    the deferred, is unchanged: no pair is appended and nothing is drained. *)
Theorem add_callback_not_callable K self cb eb h :
  is_callable cb = false ∨ (is_None eb = false ∧ is_callable eb = false) →
  add_callback K self cb eb h = Some (Err (TypeError "callback must be callable"), h).
Proof.
  unfold add_callback. intros [Hcb|[Hn Heb]].
  - destruct cb; [done|]. done.
  - rewrite Hn. destruct eb; [done|]. by destruct cb.
Qed.

Lemma add_callback_not_callable_witness :
  add_callback (fuel 1) 0 (Callable pass_through) (NonCallable (VInt 3)) [new_deferred] =
  Some (Err (TypeError "callback must be callable"), [new_deferred]).
Proof. apply add_callback_not_callable. right. split; reflexivity. Defined.

(** ** [Failure.raise_all] *)

(** The message of the [DeferredFailure] raised for [N] records. *)
Definition count_message (N : nat) : string :=
  if decide (N = 1) then "There was one failure during callbacks."
  else "There were " +:+ pretty N +:+ " failures during callbacks.".

(** What [setattr] raises on a string. *)
Definition no_attribute : exn :=
  AttributeError "'str' object has no attribute '_failure_logged'".

(** C5 (as amended).  With [first=False], a failure whose last record holds
    an exception loses that record, which is raised again with its own trace;
    so does, whatever [first], a failure with a single such record.  A failure
    whose record at the chosen end holds no exception keeps its records and
    raises a [DeferredFailure] that reports their number.  An empty failure
    raises nothing.  In each case [self.log()] runs on the records left
    before anything is raised; when it fails, its [AttributeError] is what
    [raise_all] raises, the record popped staying removed, and it fails
    exactly when the error of the last record left is a string that is not
    empty. *)
Theorem raise_all_spec :
  (∀ (traces : list exc_info) i flag logged,
     last traces = Some i → holds_exception i = true →
     Failure_log (removelast traces) flag = Ok logged →
     raise_all traces false flag =
     (removelast traces, raise_error_trace (exc_value i) (exc_tb i), logged))
  ∧ (∀ i first flag,
       holds_exception i = true →
       raise_all [i] first flag
       = ([], raise_error_trace (exc_value i) (exc_tb i), ([], flag)))
  ∧ (∀ first flag, raise_all [] first flag = ([], no_raise, ([], flag)))
  ∧ (∀ (traces : list exc_info) (first : bool) i flag logged,
       (if first then head traces else last traces) = Some i →
       holds_exception i = false →
       Failure_log traces flag = Ok logged →
       raise_all traces first flag =
       (traces, raise_new (DeferredFailure (count_message (length traces))), logged))
  ∧ (∀ (traces : list exc_info) (first : bool) i flag e,
       (if first then head traces else last traces) = Some i →
       Failure_log (if holds_exception i then removelast traces else traces) flag
         = Err e →
       raise_all traces first flag =
       (if holds_exception i then removelast traces else traces, raise_new e,
        ([], flag)))
  ∧ (∀ (traces : list exc_info) flag s,
       exc_value (Failure_trace traces) = ErrOther s → s ≠ "" →
       Failure_log traces flag = Err no_attribute)
  ∧ (∀ (traces : list exc_info) flag,
       (∀ s, exc_value (Failure_trace traces) = ErrOther s → s = "") →
       ∃ logged, Failure_log traces flag = Ok logged).
Proof.
  split; [|split; [|split; [|split; [|split; [|split]]]]].
  - intros traces i flag logged Hl Hi Hlog. unfold raise_all. rewrite Hl.
    cbn [from_option]. rewrite Hi, Hlog. by destruct traces.
  - intros i first flag Hi. unfold raise_all. destruct first; simpl; by rewrite Hi.
  - by intros [] flag.
  - intros traces first i flag logged Hsel Hi Hlog. unfold raise_all. rewrite Hsel.
    cbn [from_option]. rewrite Hi, andb_false_r, Hlog. unfold count_message.
    destruct traces as [|t traces]; [by destruct first|].
    case_decide; [done|]. case_decide; [done|]. simpl in *. lia.
  - intros traces first i flag e Hsel Hlog. unfold raise_all. rewrite Hsel.
    cbn [from_option]. destruct (holds_exception i).
    + assert (is_empty traces = false) as -> by (destruct traces, first; done).
      cbn [negb andb].
      destruct (last traces) eqn:Hlast; [by rewrite Hlog|].
      apply last_None in Hlast. subst traces. by destruct first.
    + rewrite andb_false_r. by rewrite Hlog.
  - intros traces flag s Hs Hne. unfold Failure_log. rewrite Hs.
    destruct (String.eqb s "") eqn:E; [|done]. by apply String.eqb_eq in E.
  - intros traces flag Hs. unfold Failure_log.
    destruct (exc_value (Failure_trace traces)) as [|e|s] eqn:E.
    + by eexists.
    + destruct flag; by eexists.
    + rewrite (Hs s) by done. by eexists.
Qed.

Definition value_error : exc_info :=
  ExcInfo (Some "ValueError") (ErrExc (Exn "ValueError" "a")) (LiveTrace 1).
Definition key_error : exc_info :=
  ExcInfo (Some "KeyError") (ErrExc (Exn "KeyError" "b")) (LiveTrace 2).

Lemma raise_all_spec_witness :
  raise_all [value_error; key_error] false false =
  ([value_error], raise_error_trace (ErrExc (Exn "KeyError" "b")) (LiveTrace 2),
   ([value_error], true)).
Proof.
  apply (proj1 raise_all_spec [value_error; key_error] key_error false); reflexivity.
Defined.

(** Whether [Failure.log] fails does not depend on what the attribute
    holds, which is why [log_failure_raises] needs no attribute. *)
Lemma Failure_log_fails traces flag flag' e :
  Failure_log traces flag = Err e → Failure_log traces flag' = Err e.
Proof.
  unfold Failure_log. destruct (exc_value (Failure_trace traces)) as [|x|s]; [done| |].
  - by destruct flag.
  - by destruct (String.eqb s "").
Qed.

(** A record that holds a string: [(str, 'abc', None)]. *)
Definition text_error : exc_info := ExcInfo (Some "str") (ErrOther "abc") NoTrace.

(** With a string in the last record left, the record popped is lost and
    [AttributeError] is raised in place of its error. *)
Lemma raise_all_string_record :
  raise_all [value_error; text_error; key_error] false false
  = ([value_error; text_error], raise_new no_attribute, ([], false)).
Proof. reflexivity. Qed.

(** C5, as stated, fails on the empty failure: [raise_all] returns without
    raising. *)
Lemma raise_all_empty_returns :
  raise_all [] true false = ([], no_raise, ([], false))
  ∧ raise_all [] false false = ([], no_raise, ([], false)).
Proof. by split. Qed.

(** ** Callbacks run in order

    [propagate] follows the words of the specification: the handler of a
    pair is its errback when the current result is a failure and its callback
    otherwise, and what it returns or raises is the next result. *)

(** A callable supplied by the user that never hands back a deferred. *)
Definition plain (c : handler) : Prop :=
  match c with
  | pass_through => True
  | Fn f => ∀ x, match f x with Return v => is_async v = false | Raise _ _ => True end
  | _ => False
  end.

Definition invoke (c : handler) (x : value) : outcome :=
  match c with
  | Fn f => f x
  | _ => Return x
  end.

Definition select (r : value) (pair : handler * handler) : handler :=
  if is_failure r then pair.2 else pair.1.

Definition step (r : value) (pair : handler * handler) : value :=
  match invoke (select r pair) r with
  | Return v => as_failure no_exc_info v
  | Raise e tb => _add_exception r e tb
  end.

Definition propagate (q : list (handler * handler)) (v : value) : value :=
  foldl step v q.

Lemma as_failure_not_async exc v : is_async v = false → is_async (as_failure exc v) = false.
Proof. destruct v; simpl; try done. by case_decide. Qed.

Lemma add_exception_not_async r e tb : is_async (_add_exception r e tb) = false.
Proof. by destruct r. Qed.

Lemma step_not_async r p : plain p.1 → plain p.2 → is_async r = false → is_async (step r p) = false.
Proof.
  intros H1 H2 Hr. unfold step, select.
  assert (plain (if is_failure r then p.2 else p.1)) as Hp by (by destruct (is_failure r)).
  destruct (if is_failure r then p.2 else p.1) as [|f| |]; simpl in *; try done.
  - by apply as_failure_not_async.
  - specialize (Hp r). destruct (f r); [by apply as_failure_not_async|apply add_exception_not_async].
Qed.

Lemma call_plain K c r h : plain c → call K c r h = Some (invoke c r, h).
Proof. by destruct c. Qed.

Lemma maybe_async_plain h v : is_async v = false → maybe_async h v = Some (as_failure no_exc_info v).
Proof. by destruct v. Qed.

Definition drained (r : value) (rest : list (handler * handler)) (d : deferred) : deferred :=
  {| _called := _called d; _runningCallbacks := false; paused := paused d;
     _callbacks := rest; result := Some r; multi := multi d |}.

Lemma not_async_case {A} (r : value) (a : ref → A) (b : A) :
  is_async r = false →
  match r with VDeferred inner => a inner | _ => b end = b.
Proof. by destruct r. Qed.

(** Draining a prefix of plain pairs. *)
Lemma while_plain_prefix q : ∀ m self h d r rest,
  h !! self = Some d →
  _callbacks d = q ++ rest →
  result d = Some r →
  _runningCallbacks d = false →
  Forall (λ p, plain p.1 ∧ plain p.2) q →
  is_async r = false →
  while_callbacks (fuel (length q + m)) self h =
  while_callbacks (fuel m) self (<[self := drained (propagate q r) rest d]> h).
Proof.
  induction q as [|p q IH]; intros m self h d r rest Hd Hq Hr Hrun Hplain Hnr.
  - simpl in *. f_equal. symmetry. rewrite list_insert_id; [done|].
    rewrite Hd. f_equal. destruct d; simpl in *; by subst.
  - apply Forall_cons in Hplain as [[Hp1 Hp2] Hplain].
    assert (self < length h) as Hlt by (by eapply lookup_lt_Some).
    cbn [length Nat.add fuel].
    unfold while_callbacks at 1. rewrite Hd. cbn [mbind option_bind]. rewrite Hq. cbn [app].
    rewrite Hr. cbn [mbind option_bind].
    assert (plain (if is_failure r then p.2 else p.1)) as Hp by (by destruct (is_failure r)).
    rewrite call_plain by done. cbn [mbind option_bind].
    rewrite list_lookup_insert_eq by done. cbn [mbind option_bind].
    assert (is_async (step r p) = false) as Hs by (by apply step_not_async).
    assert (propagate (p :: q) r = propagate q (step r p)) as -> by done.
    unfold step, select in *.
    destruct (invoke (if is_failure r then p.2 else p.1) r) as [v|e tb] eqn:Hinv.
    + assert (is_async v = false) as Hv.
      { destruct (if is_failure r then p.2 else p.1); simpl in *; try congruence.
        specialize (Hp r). by rewrite Hinv in Hp. }
      rewrite maybe_async_plain by done. cbn [mbind option_bind].
      rewrite not_async_case by done.
      cbn [while_rec fuel]. rewrite list_insert_insert_eq.
      erewrite (IH m self); cycle 1.
      { by apply list_lookup_insert_eq. }
      all: try done.
      by rewrite list_insert_insert_eq.
    + cbn [result set_running set_callbacks mbind option_bind]. rewrite Hr. cbn [mbind option_bind].
      cbn [while_rec fuel]. rewrite list_insert_insert_eq.
      erewrite (IH m self); cycle 1.
      { by apply list_lookup_insert_eq. }
      all: try done.
      by rewrite list_insert_insert_eq.
Qed.

Lemma while_empty K self h d :
  h !! self = Some d → _callbacks d = [] → while_callbacks K self h = Some h.
Proof. intros Hd Hq. unfold while_callbacks. rewrite Hd. simpl. by rewrite Hq. Qed.

Lemma while_plain q n self h d r :
  h !! self = Some d →
  _callbacks d = q →
  result d = Some r →
  _runningCallbacks d = false →
  Forall (λ p, plain p.1 ∧ plain p.2) q →
  is_async r = false →
  length q ≤ n →
  while_callbacks (fuel n) self h = Some (<[self := drained (propagate q r) [] d]> h).
Proof.
  intros Hd Hq Hr Hrun Hp Hnr Hn.
  replace n with (length q + (n - length q)) by lia.
  rewrite (while_plain_prefix q _ self h d r []); try done.
  - eapply while_empty; [apply list_lookup_insert_eq; by eapply lookup_lt_Some | done].
  - by rewrite app_nil_r.
Qed.

Lemma run_not_called K self h d :
  h !! self = Some d → _called d = false → _run_callbacks K self h = Some h.
Proof. intros Hd Hc. unfold _run_callbacks. rewrite Hd. simpl. by rewrite Hc. Qed.

Lemma run_ready K self h d :
  h !! self = Some d → _called d = true → _runningCallbacks d = false → paused d = 0%Z →
  _run_callbacks K self h = while_callbacks K self h.
Proof. intros Hd Hc Hr Hp. unfold _run_callbacks. rewrite Hd. simpl. by rewrite Hc, Hr, Hp. Qed.

(** Registering the pairs of [q] in order, each with one [add_callback]. *)
Fixpoint add_callbacks (K : knot) (self : ref) (q : list (handler * handler))
    (h : heap) : option heap :=
  match q with
  | [] => Some h
  | (cb, eb) :: q' =>
      '(r, h1) ← add_callback K self (Callable cb) (Callable eb) h;
      match r with
      | Ok _ => add_callbacks K self q' h1
      | Err _ => None
      end
  end.

Lemma add_callback_uncalled n self cb eb h d :
  h !! self = Some d → _called d = false →
  add_callback (fuel (S n)) self (Callable cb) (Callable eb) h =
  Some (Ok self, <[self := set_callbacks (_callbacks d ++ [(cb, eb)]) d]> h).
Proof.
  intros Hd Hc. unfold add_callback. simpl. rewrite Hd. simpl.
  rewrite (run_not_called _ self _ (set_callbacks (_callbacks d ++ [(cb, eb)]) d));
    [done | | done].
  apply list_lookup_insert_eq. by eapply lookup_lt_Some.
Qed.

Lemma add_callbacks_uncalled q : ∀ n self h d,
  h !! self = Some d → _called d = false →
  add_callbacks (fuel (S n)) self q h =
  Some (<[self := set_callbacks (_callbacks d ++ q) d]> h).
Proof.
  induction q as [|[cb eb] q IH]; intros n self h d Hd Hc.
  - simpl. rewrite app_nil_r. f_equal. symmetry. apply list_insert_id.
    rewrite Hd. by destruct d.
  - cbn [add_callbacks]. erewrite add_callback_uncalled by done. cbn [mbind option_bind].
    erewrite IH; [|apply list_lookup_insert_eq; by eapply lookup_lt_Some|done].
    rewrite list_insert_insert_eq. simpl. by rewrite <- app_assoc.
Qed.

(** [callback] on a deferred that was not called and holds plain pairs. *)
Lemma callback_plain n self v h d exc :
  h !! self = Some d →
  _called d = false → _runningCallbacks d = false → paused d = 0%Z →
  Forall (λ p, plain p.1 ∧ plain p.2) (_callbacks d) →
  is_async v = false →
  length (_callbacks d) + 1 ≤ n →
  callback_in (fuel n) exc self v h =
  Some (Ok (propagate (_callbacks d) (as_failure exc v)),
        <[self := drained (propagate (_callbacks d) (as_failure exc v)) []
                    (set_called true d)]> h).
Proof.
  intros Hd Hc Hr Hp Hplain Hv Hn.
  destruct n as [|n]; [lia|].
  assert (self < length h) as Hlt by (by eapply lookup_lt_Some).
  unfold callback_in. rewrite Hd. cbn [mbind option_bind]. rewrite Hv, Hc.
  change (_run_callbacks_rec (fuel (S n))) with (_run_callbacks (fuel n)).
  erewrite run_ready; [| by apply list_lookup_insert_eq | done..].
  erewrite while_plain; [| by apply list_lookup_insert_eq | done | done | done | done | | ].
  - cbn [mbind option_bind]. rewrite list_insert_insert_eq.
    rewrite list_lookup_insert_eq by done. by cbn [mbind option_bind].
  - by apply as_failure_not_async.
  - simpl. lia.
Qed.

Definition inc : handler :=
  Fn (λ x, match x with
           | VInt z => Return (VInt (z + 1))
           | _ => Raise (TypeError "unsupported operand type(s) for +") (LiveTrace 1)
           end).
Definition boom : handler := Fn (λ _, Raise (Exn "ValueError" "boom") (LiveTrace 2)).
Definition recover : handler := Fn (λ _, Return (VInt 42)).
Definition double : handler :=
  Fn (λ x, match x with
           | VInt z => Return (VInt (z * 2))
           | _ => Raise (TypeError "unsupported operand type(s) for *") (LiveTrace 3)
           end).

(** The chain of the first scenario: [x + 1], a callback that raises
    [ValueError], an errback that returns [42], [x * 2], then [callback(1)]. *)
Definition recovery_scenario : option (res value * heap) :=
  '(_, h1) ← add_callback (fuel 5) 0 (Callable inc) (NonCallable VNone) [new_deferred];
  '(_, h2) ← add_callback (fuel 5) 0 (Callable boom) (NonCallable VNone) h1;
  '(_, h3) ← add_errback (fuel 5) 0 (Callable recover) h2;
  '(_, h4) ← add_callback (fuel 5) 0 (Callable double) (NonCallable VNone) h3;
  callback (fuel 5) 0 (VInt 1) h4.

(** C2.  Callbacks registered in order on a fresh deferred, none of which
    hands back a deferred, are run by [callback(v)] in that order: each
    handler gets what its predecessor produced, the errback of a pair is
    taken exactly when the current result is a failure, and the result left
    is [propagate q v].  The chain [x + 1], raise [ValueError], errback
    returning [42], [x * 2], called with [1], leaves [84]. *)
Theorem callbacks_propagate_in_order :
  (∀ n self q v h d,
     h !! self = Some d →
     _called d = false → _runningCallbacks d = false → paused d = 0%Z →
     _callbacks d = [] →
     Forall (λ p, plain p.1 ∧ plain p.2) q →
     is_async v = false →
     length q + 1 ≤ n →
     ∃ h1,
       add_callbacks (fuel n) self q h = Some h1 ∧
       callback (fuel n) self v h1 =
       Some (Ok (propagate q (as_failure no_exc_info v)),
             <[self := drained (propagate q (as_failure no_exc_info v)) []
                         (set_called true d)]> h))
  ∧ recovery_scenario =
    Some (Ok (VInt 84), [drained (VInt 84) [] (set_called true new_deferred)]).
Proof.
  split.
  - intros n self q v h d Hd Hc Hr Hp Hq Hplain Hv Hn.
    destruct n as [|n]; [lia|].
    assert (self < length h) as Hlt by (by eapply lookup_lt_Some).
    eexists. split; [by apply add_callbacks_uncalled|].
    rewrite Hq. cbn [app].
    unfold callback, callback_in. rewrite list_lookup_insert_eq by done.
    cbn [mbind option_bind]. rewrite Hv. cbn [_called set_callbacks]. rewrite Hc.
    rewrite list_insert_insert_eq. cbn [_run_callbacks_rec fuel].
    erewrite run_ready; [| by apply list_lookup_insert_eq | done..].
    erewrite while_plain; [| by apply list_lookup_insert_eq | done | done | done | done | | ].
    + cbn [mbind option_bind]. rewrite list_insert_insert_eq.
      rewrite list_lookup_insert_eq by done. cbn [mbind option_bind]. simpl. done.
    + by apply as_failure_not_async.
    + simpl. lia.
  - vm_compute. reflexivity.
Qed.

Definition recovery_chain : list (handler * handler) :=
  [(inc, pass_through); (boom, pass_through); (pass_through, recover);
   (double, pass_through)].

Lemma plain_recovery_chain : Forall (λ p, plain p.1 ∧ plain p.2) recovery_chain.
Proof. repeat constructor; intros x; by destruct x. Qed.

Lemma callbacks_propagate_in_order_witness :
  ∃ h1,
    add_callbacks (fuel 5) 0 recovery_chain [new_deferred] = Some h1
    ∧ callback (fuel 5) 0 (VInt 1) h1 =
      Some (Ok (propagate recovery_chain (as_failure no_exc_info (VInt 1))),
            <[0 := drained (propagate recovery_chain (as_failure no_exc_info (VInt 1)))
                     [] (set_called true new_deferred)]> [new_deferred]).
Proof.
  apply (proj1 callbacks_propagate_in_order 5 0 recovery_chain (VInt 1)
           [new_deferred] new_deferred);
    first [ reflexivity | apply plain_recovery_chain ].
Defined.

(** ** A callback that hands back a deferred *)

Lemma run_rec_S n : _run_callbacks_rec (fuel (S n)) = _run_callbacks (fuel n).
Proof. done. Qed.
Lemma while_rec_S n : while_rec (fuel (S n)) = while_callbacks (fuel n).
Proof. done. Qed.
Lemma add_rec_S n : _add_rec (fuel (S n)) = _add (fuel n).
Proof. done. Qed.

Abbreviation plain_pairs := (Forall (λ p : handler * handler, plain p.1 ∧ plain p.2)).

Definition lifted (v : value) : Prop := as_failure no_exc_info v = v.

Lemma as_failure_lifted exc v : lifted (as_failure exc v).
Proof. destruct v; try done. simpl. by case_decide. Qed.

Lemma step_lifted r p : lifted (step r p).
Proof.
  unfold step. destruct (invoke _ r); [apply as_failure_lifted|]. by destruct r.
Qed.

Lemma propagate_lifted q : ∀ v, lifted v → lifted (propagate q v).
Proof.
  induction q as [|p q IH]; intros v Hv; [done|]. apply IH, step_lifted.
Qed.

Lemma propagate_not_async q : ∀ v,
  plain_pairs q → is_async v = false → is_async (propagate q v) = false.
Proof.
  induction q as [|p q IH]; intros v Hq Hv; [done|].
  apply Forall_cons in Hq as [[H1 H2] Hq]. apply IH; [done|]. by apply step_not_async.
Qed.

(** The deferred [d] after a callback handed back the deferred [inner]. *)
Definition waiting_for (inner : ref) (rest : list (handler * handler)) (d : deferred)
    : deferred :=
  {| _called := _called d; _runningCallbacks := false; paused := paused d + 1;
     _callbacks := rest; result := Some (VDeferred inner); multi := multi d |}.

Lemma while_pauses m self inner h d di r p rest f :
  self ≠ inner →
  h !! self = Some d → h !! inner = Some di →
  result d = Some r → _callbacks d = p :: rest →
  select r p = Fn f → f r = Return (VDeferred inner) →
  _called di = false →
  while_callbacks (fuel (S m)) self h =
  Some (<[inner := set_callbacks (_callbacks di ++ [(bound_continue self, bound_continue self)]) di]>
          (<[self := waiting_for inner rest d]> h)).
Proof.
  intros Hne Hd Hdi Hr Hq Hsel Hf Hci.
  assert (self < length h) as Hlt by (by eapply lookup_lt_Some).
  unfold while_callbacks. rewrite Hd. cbn [mbind option_bind]. rewrite Hq, Hr.
  cbn [mbind option_bind]. unfold select in Hsel. rewrite Hsel. cbn [call]. rewrite Hf.
  cbn [mbind option_bind]. rewrite list_lookup_insert_eq by done. cbn [mbind option_bind].
  unfold maybe_async. rewrite list_lookup_insert_ne by done. rewrite Hdi.
  cbn [mbind option_bind]. unfold result_or_self. rewrite Hci. cbn [andb mbind option_bind].
  rewrite list_insert_insert_eq.
  unfold add_both, add_callback. cbn [is_None].
  rewrite list_lookup_insert_ne by done. rewrite Hdi. cbn [mbind option_bind].
  rewrite run_rec_S.
  erewrite run_not_called; [| apply list_lookup_insert_eq; rewrite length_insert; by eapply lookup_lt_Some | done].
  cbn [mbind option_bind]. done.
Qed.

Lemma while_resumes m self inner h d di y rest :
  self ≠ inner →
  h !! self = Some d → h !! inner = Some di →
  result di = Some y → _runningCallbacks di = false →
  _callbacks di = [(bound_continue self, bound_continue self)] →
  _called d = true → _runningCallbacks d = false → paused d = 1%Z →
  _callbacks d = rest → plain_pairs rest →
  is_async y = false → lifted y →
  length rest ≤ m →
  while_callbacks (fuel (S (S m))) inner h =
  Some (<[inner := drained (propagate rest y) [] di]>
          (<[self := drained (propagate rest y) [] (set_paused 0 d)]> h)).
Proof.
  intros Hne Hd Hdi Hy Hri Hqi Hc Hr Hp Hq Hplain Hay Hly Hm.
  assert (self < length h) as Hlt by (by eapply lookup_lt_Some).
  assert (inner < length h) as Hlti by (by eapply lookup_lt_Some).
  unfold while_callbacks at 1. rewrite Hdi. cbn [mbind option_bind]. rewrite Hqi, Hy.
  cbn [mbind option_bind].
  assert ((if is_failure y then (bound_continue self, bound_continue self).2
           else (bound_continue self, bound_continue self).1) = bound_continue self) as ->
    by (by destruct (is_failure y)).
  cbn [call]. unfold _continue. rewrite list_lookup_insert_ne by done. rewrite Hd.
  cbn [mbind option_bind]. rewrite run_rec_S.
  erewrite run_ready; [| by (apply list_lookup_insert_eq; rewrite length_insert) | simpl; done | simpl; done | simpl; lia ].
  erewrite while_plain; [| by (apply list_lookup_insert_eq; rewrite length_insert) | simpl; done | simpl; done | simpl; done | done | done | simpl; lia ].
  cbn [mbind option_bind]. rewrite list_insert_insert_eq.
  rewrite list_lookup_insert_eq by (by rewrite length_insert).
  cbn [mbind option_bind result drained].
  rewrite list_lookup_insert_ne by done. rewrite list_lookup_insert_eq by done.
  cbn [mbind option_bind].
  assert (is_async (propagate rest y) = false) as Hz by (by apply propagate_not_async).
  rewrite maybe_async_plain by done. cbn [mbind option_bind].
  rewrite not_async_case by (by apply as_failure_not_async).
  rewrite (propagate_lifted rest y Hly).
  rewrite while_rec_S.
  erewrite while_empty; [| apply list_lookup_insert_eq; by rewrite !length_insert | done].
  f_equal. rewrite (list_insert_insert_ne _ self inner) by done.
  rewrite list_insert_insert_eq. f_equal.
  unfold drained. simpl. by rewrite Hp.
Qed.

Ltac side :=
  first [ done
        | by apply list_lookup_insert_eq; rewrite ?length_insert
        | by rewrite list_lookup_insert_ne by done;
             apply list_lookup_insert_eq; rewrite ?length_insert
        | by rewrite list_lookup_insert_ne by done
        | by apply as_failure_not_async
        | simpl; lia ].

(** C3 (as amended).  When a callback of [d] hands back a deferred [inner]
    that has not been called, the pause depth of [d] goes up by one and its
    remaining callbacks stay in the queue.  When [inner.callback(x)] fires
    later, [d] resumes with the result [inner] has when the continuation
    runs, that is [as_failure(x)] passed through the callbacks [inner] already
    had ([x] itself when it had none and [x] is no exception), and hands it to
    its next callback. *)
Theorem nested_deferred_pause_resume n self inner h d di v x pre p rest qi f :
  self ≠ inner →
  h !! self = Some d → h !! inner = Some di →
  _called d = false → _runningCallbacks d = false → paused d = 0%Z →
  _callbacks d = pre ++ p :: rest →
  _called di = false → _runningCallbacks di = false → paused di = 0%Z →
  _callbacks di = qi →
  plain_pairs pre → plain_pairs rest → plain_pairs qi →
  is_async v = false → is_async x = false →
  select (propagate pre (as_failure no_exc_info v)) p = Fn f →
  f (propagate pre (as_failure no_exc_info v)) = Return (VDeferred inner) →
  length pre + length qi + length rest + 3 ≤ n →
  let y := propagate qi (as_failure no_exc_info x) in
  let z := propagate rest y in
  ∃ h1 h2,
    callback (fuel n) self v h = Some (Ok (VDeferred inner), h1)
    ∧ h1 !! self = Some (waiting_for inner rest (set_called true d))
    ∧ paused (waiting_for inner rest (set_called true d)) = (paused d + 1)%Z
    ∧ callback (fuel n) inner x h1 = Some (Ok z, h2)
    ∧ h2 !! self = Some (drained z [] (set_called true d))
    ∧ h2 !! inner = Some (drained z [] (set_called true di)).
Proof.
  intros Hne Hd Hdi Hc Hr Hp Hq Hci Hri Hpi Hqi Hpre Hrest Hpqi Hv Hx Hsel Hf Hn y z.
  assert (self < length h) as Hlt by (by eapply lookup_lt_Some).
  assert (inner < length h) as Hlti by (by eapply lookup_lt_Some).
  set (r := propagate pre (as_failure no_exc_info v)) in *.
  set (dc := set_called true (set_result (as_failure no_exc_info v) d)).
  set (d1 := waiting_for inner rest (set_called true d)).
  set (di1 := set_callbacks (qi ++ [(bound_continue self, bound_continue self)]) di).
  assert (is_async y = false) as Hy
    by (by apply propagate_not_async; [|apply as_failure_not_async]).
  assert (lifted y) as Hly by (by apply propagate_lifted, as_failure_lifted).
  assert (callback (fuel n) self v h =
          Some (Ok (VDeferred inner), <[inner := di1]> (<[self := d1]> h))) as H1.
  { destruct n as [|n1]; [lia|].
    unfold callback, callback_in. rewrite Hd. cbn [mbind option_bind]. rewrite Hv, Hc.
    rewrite run_rec_S.
    rewrite (run_ready _ self _ dc); [| side ..].
    replace n1 with (length pre + S (n1 - length pre - 1)) by lia.
    rewrite (while_plain_prefix pre _ self _ dc (as_failure no_exc_info v) (p :: rest));
      [| side ..].
    rewrite list_insert_insert_eq.
    rewrite (while_pauses _ self inner _
               (drained r (p :: rest) dc) di r p rest f); [| side ..].
    cbn [mbind option_bind].
    rewrite list_lookup_insert_ne by done. rewrite list_insert_insert_eq.
    rewrite list_lookup_insert_eq by done.
    simpl. by rewrite Hqi. }
  exists (<[inner := di1]> (<[self := d1]> h)).
  exists (<[inner := drained z [] (set_called true di)]>
            (<[self := drained z [] (set_called true d)]> h)).
  split; [done|]. split; [side|].
  split; [done|]. split; last split; [| side ..].
  destruct n as [|n1]; [lia|].
  set (dic := set_called true (set_result (as_failure no_exc_info x) di1)).
  unfold callback, callback_in.
  rewrite list_lookup_insert_eq by (by rewrite length_insert).
  cbn [mbind option_bind]. rewrite Hx. cbn [_called di1 set_callbacks]. rewrite Hci.
  rewrite run_rec_S. fold dic. rewrite list_insert_insert_eq.
  rewrite (run_ready _ inner _ dic); [| side ..].
  replace n1 with (length qi + S (S (n1 - length qi - 2))) by lia.
  rewrite (while_plain_prefix qi _ inner _ dic (as_failure no_exc_info x)
             [(bound_continue self, bound_continue self)]); [| side ..].
  rewrite (list_insert_insert_eq _ inner).
  rewrite (while_resumes _ self inner _ d1
             (drained y [(bound_continue self, bound_continue self)] dic) y rest);
    [| side ..].
  cbn [mbind option_bind]. rewrite list_lookup_insert_eq by (by rewrite !length_insert).
  cbn [mbind option_bind]. simpl. do 2 f_equal.
  rewrite (list_insert_insert_ne _ self inner) by done.
  rewrite (list_insert_insert_eq _ inner).
  rewrite (list_insert_insert_eq _ self).
  unfold drained. simpl. by rewrite Hp.
Qed.

Definition hand_back_inner : handler := Fn (λ _, Return (VDeferred 1)).

(** [lambda v: v + "!"] *)
Definition exclaim : handler :=
  Fn (λ v, match v with
           | VStr s => Return (VStr (s +:+ "!"))
           | _ => Raise (TypeError "unsupported operand type(s) for +") (LiveTrace 4)
           end).

(** [d], with [lambda _: inner] and [lambda v: v + "!"] registered. *)
Definition outer : deferred :=
  set_callbacks [(hand_back_inner, pass_through); (exclaim, pass_through)] new_deferred.

Lemma nested_deferred_pause_resume_witness :
  ∃ h1 h2,
    callback (fuel 4) 0 VNone [outer; new_deferred] = Some (Ok (VDeferred 1), h1)
    ∧ h1 !! 0 = Some (waiting_for 1 [(exclaim, pass_through)] (set_called true outer))
    ∧ paused (waiting_for 1 [(exclaim, pass_through)] (set_called true outer))
      = (paused outer + 1)%Z
    ∧ callback (fuel 4) 1 (VStr "hi") h1 = Some (Ok (VStr "hi!"), h2)
    ∧ h2 !! 0 = Some (drained (VStr "hi!") [] (set_called true outer))
    ∧ h2 !! 1 = Some (drained (VStr "hi!") [] (set_called true new_deferred)).
Proof.
  apply (nested_deferred_pause_resume 4 0 1 [outer; new_deferred] outer new_deferred
           VNone (VStr "hi")
           [] (hand_back_inner, pass_through) [(exclaim, pass_through)] []
           (λ _, Return (VDeferred 1)));
    first [ reflexivity | discriminate | apply le_n
          | repeat constructor; intros x; by destruct x ].
Defined.

(** [lambda v: [v]]: the list keeps what the callback was given. *)
Definition keep : handler := Fn (λ v, Return (VList [v])).

(** [inner.add_callback(lambda x: x + 1)], then
    [d.add_callback(lambda _: inner)], [d.add_callback(lambda v: [v])],
    [d.callback(None)] and [inner.callback(1)]: the result of [d]. *)
Definition resumed_scenario : option (option value) :=
  '(_, h1) ← add_callback (fuel 5) 1 (Callable inc) (NonCallable VNone)
               [new_deferred; new_deferred];
  '(_, h2) ← add_callback (fuel 5) 0 (Callable hand_back_inner) (NonCallable VNone) h1;
  '(_, h3) ← add_callback (fuel 5) 0 (Callable keep) (NonCallable VNone) h2;
  '(_, h4) ← callback (fuel 5) 0 VNone h3;
  '(_, h5) ← callback (fuel 5) 1 (VInt 1) h4;
  result <$> h5 !! 0.

(** C3, as stated, fails when [inner] already had callbacks: [d] resumes
    with what they made of [x], here [2], not with [x = 1]. *)
Lemma resumes_with_result_of_inner :
  resumed_scenario = Some (Some (VList [VInt 2]))
  ∧ resumed_scenario ≠ Some (Some (VList [VInt 1])).
Proof. split; [by vm_compute|]. vm_compute. discriminate. Qed.

End DeferTheory.

(** * MultiDeferred: a collection resolves once its deferreds are called *)

Module MultiTheory.

Import Defer DeferTheory.

(** A cell of a multi-deferred: its key, the value the stream holds for it,
    and the deferred it waits for, if any. *)
Definition cell : Type := key * value * option ref.

Definition cell_key (c : cell) : key := c.1.1.
Definition cell_value (c : cell) : value := c.1.2.
Definition cell_pending (c : cell) : option ref := c.2.

(** The stream and the pending dictionary made of the cells. *)
Definition mkstream (dict : bool) (cells : list cell) : value :=
  if dict then VDict ((λ c, (cell_key c, cell_value c)) <$> cells)
  else VList (cell_value <$> cells).

Definition pendings (cells : list cell) : list (key * ref) :=
  omap (λ c, (λ r, (cell_key c, r)) <$> cell_pending c) cells.

(** The keys of a dictionary are distinct; those of a list count from [0]. *)
Definition keys_ok (dict : bool) (cells : list cell) : Prop :=
  if dict then NoDup (cell_key <$> cells)
  else cell_key <$> cells = (λ i, KInt (Z.of_nat i)) <$> seq 0 (length cells).

(** The cell at [k] receives [v] and waits no more. *)
Definition settle (k : key) (v : value) (cells : list cell) : list cell :=
  (λ c, if decide (cell_key c = k) then (k, v, None) else c) <$> cells.

Lemma keys_settle k v cells : cell_key <$> settle k v cells = cell_key <$> cells.
Proof.
  unfold settle. rewrite <- list_fmap_compose. apply list_fmap_ext.
  intros _ c _. simpl. by case_decide.
Qed.

Lemma length_settle k v cells : length (settle k v cells) = length cells.
Proof. apply length_fmap. Qed.

Lemma keys_ok_settle dict k v cells : keys_ok dict cells → keys_ok dict (settle k v cells).
Proof.
  unfold keys_ok. rewrite keys_settle, length_settle. done.
Qed.

Lemma seq_keys_nodup s n : NoDup ((λ i, KInt (Z.of_nat i)) <$> seq s n).
Proof.
  apply NoDup_fmap_2; [|apply NoDup_seq]. intros i j H. injection H. lia.
Qed.

Lemma keys_ok_nodup dict cells : keys_ok dict cells → NoDup (cell_key <$> cells).
Proof. destruct dict; simpl; [done|]. intros ->. apply seq_keys_nodup. Qed.

Lemma settle_absent k v cells : k ∉ cell_key <$> cells → settle k v cells = cells.
Proof.
  intros H. unfold settle. rewrite <- (list_fmap_id cells) at 2.
  apply list_fmap_ext. intros i c Hc. simpl. case_decide; [|done].
  exfalso. apply H. apply list_elem_of_fmap. exists c. split; [done|].
  by eapply list_elem_of_lookup_2.
Qed.

Lemma pendings_cons c cells :
  pendings (c :: cells) =
  match cell_pending c with
  | Some r => (cell_key c, r) :: pendings cells
  | None => pendings cells
  end.
Proof. unfold pendings. simpl. by destruct (cell_pending c). Qed.

Lemma settle_cons k v c cells :
  settle k v (c :: cells) =
  (if decide (cell_key c = k) then (k, v, None) else c) :: settle k v cells.
Proof. done. Qed.

Lemma dict_pop_absent {V} k (d : list (key * V)) : k ∉ d.*1 → dict_pop k d = d.
Proof.
  induction d as [|[k' v'] d IH]; [done|]. simpl. intros H.
  apply not_elem_of_cons in H as [Hk H]. rewrite decide_False by done. f_equal. by apply IH.
Qed.

Lemma pendings_keys cells : (pendings cells).*1 ⊆ cell_key <$> cells.
Proof.
  induction cells as [|c cells IH]; [done|]. rewrite pendings_cons.
  destruct (cell_pending c); simpl; [by apply list_subseteq_skip|by apply list_subseteq_cons].
Qed.

Lemma pendings_settle k v cells :
  NoDup (cell_key <$> cells) →
  dict_pop k (pendings cells) = pendings (settle k v cells).
Proof.
  induction cells as [|c cells IH]; [done|]. intros Hnd.
  apply NoDup_cons in Hnd as [Hc Hnd]. fold (fmap cell_key cells) in *.
  rewrite settle_cons, !pendings_cons. case_decide as Hk.
  - subst k. rewrite settle_absent by done. simpl.
    destruct (cell_pending c); simpl.
    + by rewrite decide_True.
    + apply dict_pop_absent. intros H. by apply Hc, pendings_keys.
  - destruct (cell_pending c); simpl; [|by apply IH].
    rewrite decide_False by done. f_equal. by apply IH.
Qed.

Lemma dict_set_settle k v cells :
  NoDup (cell_key <$> cells) →
  k ∈ cell_key <$> cells →
  dict_set k v ((λ c, (cell_key c, cell_value c)) <$> cells) =
  (λ c, (cell_key c, cell_value c)) <$> settle k v cells.
Proof.
  induction cells as [|c cells IH]; [by intros _ ?%elem_of_nil|].
  intros Hnd H. rewrite fmap_cons in Hnd. apply NoDup_cons in Hnd as [Hc Hnd].
  rewrite settle_cons. simpl. case_decide as Hk.
  - subst k. rewrite decide_True by done. by rewrite settle_absent.
  - rewrite decide_False by done. f_equal. apply IH; [done|].
    apply elem_of_cons in H as [?|?]; done.
Qed.

Lemma values_settle_seq v cells : ∀ s i,
  cell_key <$> cells = (λ i, KInt (Z.of_nat i)) <$> seq s (length cells) →
  s ≤ i →
  cell_value <$> settle (KInt (Z.of_nat i)) v cells = <[i - s := v]> (cell_value <$> cells).
Proof.
  induction cells as [|c cells IH]; [done|]. intros s i Hkeys Hi.
  cbn [length seq] in Hkeys. rewrite !fmap_cons in Hkeys. injection Hkeys as Hc Hkeys.
  rewrite settle_cons. rewrite Hc. destruct (decide (s = i)) as [->|Hne].
  - rewrite decide_True by done. rewrite Nat.sub_diag. simpl. f_equal.
    rewrite settle_absent; [done|]. rewrite Hkeys.
    intros (j & Hj & Hin)%list_elem_of_fmap. apply elem_of_seq in Hin.
    injection Hj. lia.
  - rewrite decide_False by (intros [=]; lia).
    replace (i - s) with (S (i - S s)) by lia. simpl. f_equal.
    apply (IH (S s)); [done|lia].
Qed.

Lemma seq_key_elem k cells :
  cell_key <$> cells = (λ i, KInt (Z.of_nat i)) <$> seq 0 (length cells) →
  k ∈ cell_key <$> cells →
  ∃ i, k = KInt (Z.of_nat i) ∧ i < length cells.
Proof.
  intros -> (i & -> & Hi)%list_elem_of_fmap. apply elem_of_seq in Hi.
  exists i. split; [done|lia].
Qed.

(** [_setitem] on a cell that exists. *)
Lemma setitem_settle m dict cells k v :
  log_failure m = false →
  _stream m = mkstream dict cells →
  keys_ok dict cells →
  k ∈ cell_key <$> cells →
  ∃ fs, _setitem m k v =
        (set_failures fs (set_stream (mkstream dict (settle k v cells)) m), None).
Proof.
  intros Hlog Hs Hk Hin. unfold _setitem. rewrite Hs, Hlog. destruct dict; simpl in *.
  - rewrite dict_set_settle by done.
    destruct (is_failure v); eexists; [done|].
    instantiate (1 := _failures m). by destruct m.
  - destruct (seq_key_elem k cells Hk Hin) as (i & -> & Hi).
    rewrite length_fmap. rewrite decide_False by (intros [=]; lia).
    unfold list_setitem. rewrite length_fmap. rewrite decide_True by lia.
    rewrite Nat2Z.id. unfold mkstream.
    rewrite (values_settle_seq v cells 0 i) by (done || lia). rewrite Nat.sub_0_r.
    destruct (is_failure v); eexists; [done|].
    instantiate (1 := _failures m). by destruct m.
Qed.

(** A multi-deferred that is locked and waits: its reference, the kind of
    its stream, its cells and its callback queue. *)
Record desc := Desc {
  d_ref : ref;
  d_dict : bool;
  d_cells : list cell;
  d_hook : list (handler * handler)
}.

Definition with_cells (cells : list cell) (D : desc) : desc :=
  {| d_ref := d_ref D; d_dict := d_dict D; d_cells := cells; d_hook := d_hook D |}.

Definition waiting_node (D : desc) (d : deferred) : Prop :=
  _called d = false ∧ _runningCallbacks d = false ∧ paused d = 0%Z
  ∧ _callbacks d = d_hook D
  ∧ ∃ m, multi d = Some m ∧ _locked m = true ∧ fireOnOneErrback m = false
         ∧ log_failure m = false
         ∧ _stream m = mkstream (d_dict D) (d_cells D)
         ∧ _deferred m = pendings (d_cells D).

Definition local_ok (h : heap) (D : desc) : Prop :=
  keys_ok (d_dict D) (d_cells D) ∧ ∃ d, h !! d_ref D = Some d ∧ waiting_node D d.

Lemma local_ok_frame h h' D :
  h' !! d_ref D = h !! d_ref D → local_ok h D → local_ok h' D.
Proof. intros E [Hk (d & Hd & Hw)]. split; [done|]. exists d. by rewrite E. Qed.

Definition hook_of (m : ref) (k : key) : handler * handler :=
  (deferred_done_lambda m k, deferred_done_lambda m k).

(** The queue [hook] belongs to the first of [ancestors]; the queue of each
    node holds the hook of its parent, the last node has an empty queue. *)
Fixpoint hook_linked (hook : list (handler * handler)) (ancestors : list desc) : Prop :=
  match ancestors with
  | [] => hook = []
  | P :: rest =>
      (∃ k, hook = [hook_of (d_ref P) k] ∧ k ∈ cell_key <$> d_cells P)
      ∧ hook_linked (d_hook P) rest
  end.

Definition linked (child : desc) (ancestors : list desc) : Prop :=
  hook_linked (d_hook child) ancestors.

(** The key a hook settles. *)
Definition hook_key (hook : list (handler * handler)) : key :=
  match hook with
  | (deferred_done_lambda _ k, _) :: _ => k
  | _ => KInt 0
  end.

(** The key under which the parent waits for a node. *)
Definition parent_key (D : desc) : key := hook_key (d_hook D).

(** The heap [h'] after the cell [k] of [D] received [v] in [h]: nodes that
    are complete are called with their stream, and hand it to their parent;
    the first node that still waits has the cell settled; the nodes above it
    are as before. *)
Fixpoint chain_post (h h' : heap) (D : desc) (ancestors : list desc)
    (k : key) (v : value) : Prop :=
  let cells' := settle k v (d_cells D) in
  if is_empty (pendings cells') then
    (∃ d', h' !! d_ref D = Some d' ∧ _called d' = true
           ∧ result d' = Some (mkstream (d_dict D) cells'))
    ∧ match ancestors with
      | [] => True
      | P :: rest => chain_post h h' P rest (parent_key D) (mkstream (d_dict D) cells')
      end
  else local_ok h' (with_cells cells' D)
       ∧ Forall (λ A, h' !! d_ref A = h !! d_ref A) ancestors.

Lemma chain_post_frame h0 h0' h h' ancestors : ∀ D k v,
  (∀ r, r ∈ d_ref <$> D :: ancestors → h' !! r = h !! r) →
  (∀ r, r ∈ d_ref <$> ancestors → h0' !! r = h0 !! r) →
  chain_post h0 h D ancestors k v → chain_post h0' h' D ancestors k v.
Proof.
  induction ancestors as [|P rest IH]; intros D k v Hfr Hfr0; cbn [chain_post];
    destruct (is_empty _).
  - intros [(d' & Hd & Hrest) _]. split; [|done]. exists d'. rewrite Hfr; [done|].
    apply elem_of_cons. by left.
  - intros [Hl _]. split; [|done]. eapply local_ok_frame; [|done]. apply Hfr.
    apply elem_of_cons. by left.
  - intros [(d' & Hd & Hrest) Hp]. split.
    + exists d'. rewrite Hfr; [done|]. apply elem_of_cons. by left.
    + apply IH; [| |done].
      * intros r Hr. apply Hfr. rewrite fmap_cons. apply elem_of_cons. by right.
      * intros r Hr. apply Hfr0. rewrite fmap_cons. apply elem_of_cons. by right.
  - intros [Hl Hanc]. split.
    + eapply local_ok_frame; [|done]. apply Hfr. apply elem_of_cons. by left.
    + apply Forall_forall. intros A HA. rewrite Forall_forall in Hanc.
      assert (d_ref A ∈ d_ref <$> P :: rest) as Hin
        by (apply list_elem_of_fmap; by exists A).
      rewrite Hfr by (rewrite fmap_cons; apply elem_of_cons; by right).
      rewrite Hfr0 by done. by apply Hanc.
Qed.

Lemma mkstream_not_async dict cells : is_async (mkstream dict cells) = false.
Proof. by destruct dict. Qed.

Lemma mkstream_lifted exc dict cells : as_failure exc (mkstream dict cells) = mkstream dict cells.
Proof. by destruct dict. Qed.

Lemma mkstream_not_failure dict cells : is_failure (mkstream dict cells) = false.
Proof. by destruct dict. Qed.

(** The first part of [_deferred_done]: the key leaves the pending
    dictionary and the value is stored. *)
Lemma deferred_done_settles K h D k v :
  local_ok h D →
  k ∈ cell_key <$> d_cells D →
  ∃ d2,
    waiting_node (with_cells (settle k v (d_cells D)) D) d2
    ∧ _deferred_done K (d_ref D) k v h =
      if is_empty (pendings (settle k v (d_cells D))) then
        '(f, h3) ← _finish K (d_ref D) (<[d_ref D := d2]> h);
        Some (raised f (λ _, Return v), h3)
      else Some (Return v, <[d_ref D := d2]> h).
Proof.
  intros [Hkeys (d & Hd & Hc & Hr & Hp & Hq & m & Hm & Hl & Hf & Hlog & Hs & Hdef)] Hk.
  destruct (setitem_settle (set_deferred (dict_pop k (_deferred m)) m)
              (d_dict D) (d_cells D) k v) as [fs Hset]; [done..|].
  eexists. split; last first.
  - unfold _deferred_done. rewrite Hd. cbn [mbind option_bind]. rewrite Hm.
    cbn [mbind option_bind]. rewrite Hset.
    cbn [_locked _deferred set_failures set_stream set_deferred]. rewrite Hl, Hc.
    rewrite Hdef, (pendings_settle k v) by (by eapply keys_ok_nodup).
    cbn [andb negb]. rewrite andb_true_r. reflexivity.
  - unfold waiting_node. cbn.
    split; [done|]. split; [done|]. split; [done|]. split; [done|].
    eexists. split; [reflexivity|]. cbn.
    split; [done|]. split; [done|]. split; [done|]. split; [done|].
    reflexivity.
Qed.

(** A deferred whose queue holds one hook of a multi-deferred is called
    back: the hook runs between the two updates of the deferred. *)
Definition hooked (w : value) (dx : deferred) : deferred :=
  set_running true (set_callbacks [] (set_called true (set_result w dx))).

Definition handed (w : value) (dx : deferred) : deferred :=
  set_running false (set_result w (hooked w dx)).

Lemma callback_hooked n x w h dx r k h2 exc :
  h !! x = Some dx →
  _called dx = false → _runningCallbacks dx = false → paused dx = 0%Z →
  _callbacks dx = [hook_of r k] →
  is_async w = false →
  _deferred_done (fuel (S n)) r k (as_failure exc w) (<[x := hooked (as_failure exc w) dx]> h)
    = Some (Return (as_failure exc w), h2) →
  h2 !! x = Some (hooked (as_failure exc w) dx) →
  callback_in (fuel (S (S n))) exc x w h
    = Some (Ok (as_failure exc w), <[x := handed (as_failure exc w) dx]> h2).
Proof.
  intros Hx Hc Hr Hp Hq Hw Hup Hx2.
  assert (x < length h) as Hlt by (by eapply lookup_lt_Some).
  assert (x < length h2) as Hlt2 by (by eapply lookup_lt_Some).
  unfold callback_in. rewrite Hx. cbn [mbind option_bind]. rewrite Hw, Hc.
  rewrite run_rec_S.
  erewrite run_ready; [| by apply list_lookup_insert_eq | done..].
  unfold while_callbacks at 1. rewrite list_lookup_insert_eq by done.
  cbn [mbind option_bind _callbacks set_called set_result]. rewrite Hq.
  cbn [result set_called set_result mbind option_bind].
  assert ((if is_failure (as_failure exc w)
           then (hook_of r k).2 else (hook_of r k).1) = deferred_done_lambda r k) as ->
    by (by destruct (is_failure _)).
  cbn [call]. rewrite list_insert_insert_eq.
  unfold hooked in Hup, Hx2. cbn [set_running set_callbacks set_called set_result] in Hup, Hx2 |- *.
  cbn [_called _runningCallbacks paused _callbacks result multi] in Hup, Hx2 |- *.
  rewrite Hup. cbn [mbind option_bind]. rewrite Hx2. cbn [mbind option_bind].
  rewrite maybe_async_plain by (by apply as_failure_not_async).
  rewrite as_failure_lifted. cbn [mbind option_bind].
  rewrite not_async_case by (by apply as_failure_not_async).
  rewrite while_rec_S.
  erewrite while_empty; [| by apply list_lookup_insert_eq | done].
  cbn [mbind option_bind]. rewrite list_lookup_insert_eq by done.
  cbn [mbind option_bind]. reflexivity.
Qed.

Lemma finish_complete K x h d m :
  h !! x = Some d → multi d = Some m →
  _locked m = true → _deferred m = [] → fireOnOneErrback m = false →
  _finish K x h =
  '(c, h1) ← callback K x (_stream m) h;
  match c with
  | Ok _ => Some (Ok (), h1)
  | Err e => Some (Err e, h1)
  end.
Proof.
  intros Hx Hm Hl Hd Hf. unfold _finish. rewrite Hx. cbn [mbind option_bind].
  rewrite Hm. cbn [mbind option_bind]. by rewrite Hl, Hd, Hf.
Qed.

Lemma is_empty_nil {A} (l : list A) : is_empty l = true → l = [].
Proof. by destruct l. Qed.

(** The cell [k] of [D] receives [v]: the nodes that become complete are
    called in turn, up to the first one that still waits. *)
Lemma deferred_done_chain ancestors : ∀ D k v h j,
  local_ok h D →
  Forall (local_ok h) ancestors →
  linked D ancestors →
  NoDup (d_ref <$> D :: ancestors) →
  k ∈ cell_key <$> d_cells D →
  length ancestors + 1 ≤ j →
  ∃ h', _deferred_done (fuel j) (d_ref D) k v h = Some (Return v, h')
        ∧ chain_post h h' D ancestors k v
        ∧ (∀ r, r ∉ d_ref <$> D :: ancestors → h' !! r = h !! r)
        ∧ length h' = length h.
Proof.
  induction ancestors as [|P rest IH]; intros D k v h j HD Hanc Hlink Hnd Hk Hj.
  - destruct (deferred_done_settles (fuel j) h D k v HD Hk) as (d2 & Hw & ->).
    destruct HD as [Hkeys (d & Hd & _)].
    assert (d_ref D < length h) as Hlt by (by eapply lookup_lt_Some).
    cbn [chain_post]. destruct (is_empty _) eqn:He.
    + destruct Hw as (Hc & Hr & Hp & Hq & m & Hm & Hl & Hf & Hlog & Hs & Hdef).
      cbn [with_cells d_hook d_dict d_cells] in *. unfold linked in Hlink. simpl in Hlink.
      erewrite finish_complete;
        [| by apply list_lookup_insert_eq | done | done | | done];
        [| rewrite Hdef; by apply is_empty_nil].
      unfold callback.
      erewrite callback_plain; [| by apply list_lookup_insert_eq | try done ..];
        [| by rewrite Hq, Hlink | rewrite Hs; apply mkstream_not_async
         | rewrite Hq, Hlink; simpl; lia].
      cbn [mbind option_bind raised]. eexists. split; [reflexivity|].
      rewrite Hq, Hlink, Hs, mkstream_lifted. cbn [propagate foldl].
      rewrite list_insert_insert_eq.
      split; [|split].
      * split; [|done]. eexists. split; [by apply list_lookup_insert_eq|]. done.
      * intros r0 Hr0. apply list_lookup_insert_ne. intros <-. apply Hr0.
        apply elem_of_cons. by left.
      * by rewrite length_insert.
    + eexists. split; [reflexivity|]. split; [|split].
      * split; [|done]. split; [by apply keys_ok_settle|].
        exists d2. split; [by apply list_lookup_insert_eq|done].
      * intros r0 Hr0. apply list_lookup_insert_ne. intros <-. apply Hr0.
        apply elem_of_cons. by left.
      * by rewrite length_insert.
  - destruct (deferred_done_settles (fuel j) h D k v HD Hk) as (d2 & Hw & ->).
    destruct HD as [Hkeys (d & Hd & _)].
    assert (d_ref D < length h) as Hlt by (by eapply lookup_lt_Some).
    rewrite !fmap_cons in Hnd. apply NoDup_cons in Hnd as [HDnot Hnd].
    assert (d_ref D ≠ d_ref P) as HDP
      by (intros E; apply HDnot; rewrite E; apply elem_of_cons; by left).
    apply Forall_cons in Hanc as [HP Hrest].
    assert (∀ r0, (∃ A, A ∈ rest ∧ r0 = d_ref A) → d_ref D ≠ r0) as HDrest.
    { intros r0 (A & HA & ->) E. apply HDnot. rewrite E. apply elem_of_cons. right.
      apply list_elem_of_fmap. by exists A. }
    unfold linked in Hlink. cbn [hook_linked] in Hlink.
    destruct Hlink as [(kp & Hhook & Hkp) Hlink].
    cbn [chain_post]. destruct (is_empty _) eqn:He.
    + destruct Hw as (Hc & Hr & Hp & Hq & m & Hm & Hl & Hf & Hlog & Hs & Hdef).
      cbn [with_cells d_hook d_dict d_cells] in *.
      destruct j as [|[|j]]; [simpl in Hj; lia..|].
      set (w := mkstream (d_dict D) (settle k v (d_cells D))) in *.
      set (H1 := <[d_ref D := hooked w d2]> (<[d_ref D := d2]> h)).
      destruct (IH P kp w H1 (S j)) as (h2 & Hup & Hpost & Hfr & Hlen).
      { eapply local_ok_frame; [|done]. unfold H1.
        rewrite !list_lookup_insert_ne by done. done. }
      { apply Forall_forall. intros A HA. rewrite Forall_forall in Hrest.
        eapply local_ok_frame; [|by apply Hrest].
        unfold H1. rewrite !list_lookup_insert_ne; [done|apply HDrest; by exists A..]. }
      { done. } { done. } { done. } { simpl in Hj |- *. lia. }
      assert (as_failure no_exc_info w = w) as Hw by apply mkstream_lifted.
      assert (d_ref D < length h2) as Hlt2 by (rewrite Hlen; unfold H1; by rewrite !length_insert).
      pose proof (callback_hooked j (d_ref D) w (<[d_ref D:=d2]> h) d2 (d_ref P) kp h2
                    no_exc_info) as HG.
      rewrite Hw in HG.
      erewrite finish_complete;
        [| by apply list_lookup_insert_eq | done | done | | done];
        [| rewrite Hdef; by apply is_empty_nil].
      unfold callback. rewrite Hs. fold w. rewrite HG; first last.
      { rewrite Hfr.
        - unfold H1. by rewrite list_lookup_insert_eq by (by rewrite length_insert).
        - rewrite fmap_cons. done. }
      { exact Hup. }
      { apply mkstream_not_async. }
      { by rewrite Hq. }
      { done. } { done. } { done. }
      { by apply list_lookup_insert_eq. }
      cbn [mbind option_bind raised]. eexists. split; [reflexivity|].
      split; [|split].
      * split.
        -- eexists. split; [by apply list_lookup_insert_eq|]. done.
        -- assert (parent_key D = kp) as -> by (unfold parent_key; by rewrite Hhook).
           eapply chain_post_frame; [| |exact Hpost].
           ++ intros r0 Hr0. apply list_lookup_insert_ne. intros <-.
              rewrite fmap_cons in Hr0. by apply HDnot.
           ++ intros r0 Hr0. unfold H1. rewrite !list_lookup_insert_ne; [done|..];
                intros <-; apply HDnot; apply elem_of_cons; by right.
      * intros r0 Hr0. rewrite !fmap_cons in Hr0.
        apply not_elem_of_cons in Hr0 as [Hne Hr0].
        rewrite list_lookup_insert_ne by done. rewrite Hfr by (by rewrite fmap_cons).
        unfold H1. by rewrite !list_lookup_insert_ne by done.
      * rewrite length_insert, Hlen. unfold H1. by rewrite !length_insert.
    + eexists. split; [reflexivity|]. split; [|split].
      * split.
        -- split; [by apply keys_ok_settle|].
           exists d2. split; [by apply list_lookup_insert_eq|done].
        -- apply Forall_forall. intros A HA. apply list_lookup_insert_ne.
           intros E. apply HDnot. rewrite E. rewrite <- fmap_cons.
           apply list_elem_of_fmap. by exists A.
      * intros r0 Hr0. apply list_lookup_insert_ne. intros <-. apply Hr0.
        apply elem_of_cons. by left.
      * by rewrite length_insert.
Qed.

(** ** The tree of a multi-deferred

    A cell is settled, waits for a deferred of the caller, or waits for the
    multi-deferred made of a nested collection. *)
Inductive ptree :=
| Done (v : value)
| Wait (a : ref)
| Sub (r : ref) (dict : bool) (cells : list (key * ptree)).

Lemma ptree_nested_ind (P : ptree → Prop) :
  (∀ v, P (Done v)) →
  (∀ a, P (Wait a)) →
  (∀ r dict cells, Forall (λ c, P c.2) cells → P (Sub r dict cells)) →
  ∀ t, P t.
Proof.
  intros HD HW HS. fix IH 1. intros [v|a|r dict cells]; [apply HD|apply HW|].
  apply HS. induction cells as [|[k t] cells IHc]; constructor; [apply IH|apply IHc].
Qed.

Definition shown (t : ptree) : value :=
  match t with
  | Done v => v
  | Wait a => VDeferred a
  | Sub r _ _ => VDeferred r
  end.

Definition pend (t : ptree) : option ref :=
  match t with
  | Done _ => None
  | Wait a => Some a
  | Sub r _ _ => Some r
  end.

Definition cell_of (c : key * ptree) : cell := (c.1, shown c.2, pend c.2).

Fixpoint refs (t : ptree) : list ref :=
  match t with
  | Done _ => []
  | Wait a => [a]
  | Sub r _ cells => r :: mjoin ((λ c, refs c.2) <$> cells)
  end.

Fixpoint leaves (t : ptree) : list ref :=
  match t with
  | Done _ => []
  | Wait a => [a]
  | Sub _ _ cells => mjoin ((λ c, leaves c.2) <$> cells)
  end.

Fixpoint height (t : ptree) : nat :=
  match t with
  | Sub _ _ cells => S (foldr (λ c acc, height c.2 `max` acc) 0 cells)
  | _ => 0
  end.

Definition idle (hook : list (handler * handler)) (d : deferred) : Prop :=
  _called d = false ∧ _runningCallbacks d = false ∧ paused d = 0%Z
  ∧ _callbacks d = hook.

(** The heap holds the tree, whose root has the queue [hook]. *)
Fixpoint tinv (h : heap) (hook : list (handler * handler)) (t : ptree) : Prop :=
  match t with
  | Done _ => True
  | Wait a => ∃ d, h !! a = Some d ∧ idle hook d
  | Sub r dict cells =>
      local_ok h (Desc r dict (cell_of <$> cells) hook)
      ∧ pendings (cell_of <$> cells) ≠ []
      ∧ foldr (λ c acc, tinv h [hook_of r c.1] c.2 ∧ acc) True cells
  end.

(** The leaf [a] is called back with [v]. *)
Fixpoint fire (a : ref) (v : value) (t : ptree) : ptree :=
  match t with
  | Done w => Done w
  | Wait b => if decide (a = b) then Done v else Wait b
  | Sub r dict cells =>
      let cells' := (λ c, (c.1, fire a v c.2)) <$> cells in
      if is_empty (pendings (cell_of <$> cells'))
      then Done (mkstream dict (cell_of <$> cells'))
      else Sub r dict cells'
  end.

(** The value of the tree once every leaf [a] was called back with [σ a]. *)
Fixpoint eventual (σ : ref → value) (t : ptree) : value :=
  match t with
  | Done v => v
  | Wait a => σ a
  | Sub _ dict cells =>
      mkstream dict ((λ c, (c.1, eventual σ c.2, None)) <$> cells)
  end.

Lemma foldr_and_Forall {A} (P : A → Prop) (l : list A) :
  foldr (λ c acc, P c ∧ acc) True l ↔ Forall P l.
Proof.
  induction l as [|x l IH]; simpl; [by split|]. rewrite Forall_cons. by rewrite IH.
Qed.

Lemma tinv_Sub h hook r dict cells :
  tinv h hook (Sub r dict cells) ↔
  local_ok h (Desc r dict (cell_of <$> cells) hook)
  ∧ pendings (cell_of <$> cells) ≠ []
  ∧ Forall (λ c, tinv h [hook_of r c.1] c.2) cells.
Proof. cbn [tinv]. by rewrite foldr_and_Forall. Qed.

Lemma elem_of_join_fmap {A B} (f : A → list B) (l : list A) (x : B) :
  x ∈ mjoin (f <$> l) ↔ ∃ c, c ∈ l ∧ x ∈ f c.
Proof.
  rewrite list_elem_of_join. split.
  - intros (k & Hx & (c & -> & Hc)%list_elem_of_fmap). by exists c.
  - intros (c & Hc & Hx). exists (f c). split; [done|]. by apply list_elem_of_fmap_2.
Qed.

Lemma leaves_refs t : leaves t ⊆ refs t.
Proof.
  induction t as [v|a|r dict cells IH] using ptree_nested_ind; simpl; [done..|].
  intros x (c & Hc & Hx)%elem_of_join_fmap. apply elem_of_cons. right.
  apply elem_of_join_fmap. exists c. split; [done|].
  rewrite Forall_forall in IH. by apply IH.
Qed.

Lemma tinv_frame t : ∀ h h' hook,
  (∀ r, r ∈ refs t → h' !! r = h !! r) → tinv h hook t → tinv h' hook t.
Proof.
  induction t as [v|a|r dict cells IH] using ptree_nested_ind; intros h h' hook Hfr.
  - done.
  - simpl. intros (d & Hd & Hi). exists d. rewrite Hfr; [done|]. simpl. by left.
  - rewrite !tinv_Sub. intros (Hl & Hp & Hc). split; [|split; [done|]].
    + eapply local_ok_frame; [|done]. apply Hfr. simpl. by left.
    + rewrite Forall_forall in IH, Hc |- *. intros c Hin. eapply IH; [done| |by apply Hc].
      intros x Hx. apply Hfr. simpl. right. apply elem_of_join_fmap. by exists c.
Qed.

Lemma height_child r dict cells c : c ∈ cells → height c.2 < height (Sub r dict cells).
Proof.
  simpl. induction cells as [|c' cells IH]; [by intros ?%elem_of_nil|].
  intros [->|Hin]%elem_of_cons; simpl; [lia|]. specialize (IH Hin). lia.
Qed.

(** A cell is pending unless its tree is settled. *)
Lemma pendings_nil_Done cells :
  pendings (cell_of <$> cells) = [] → Forall (λ c, ∃ w, c.2 = Done w) cells.
Proof.
  induction cells as [|[k t] cells IH]; [done|]. rewrite fmap_cons, pendings_cons.
  destruct t; simpl; [|done..]. intros H. constructor; [by eexists|by apply IH].
Qed.

Lemma pendings_app c1 c2 : pendings (c1 ++ c2) = pendings c1 ++ pendings c2.
Proof. unfold pendings. apply omap_app. Qed.

Lemma settle_app k v c1 c2 : settle k v (c1 ++ c2) = settle k v c1 ++ settle k v c2.
Proof. unfold settle. apply fmap_app. Qed.

(** [fire] leaves a tree without the leaf as it is. *)
Lemma fire_absent a v t : ∀ h hook, tinv h hook t → a ∉ leaves t → fire a v t = t.
Proof.
  induction t as [w|b|r dict cells IH] using ptree_nested_ind; intros h hook Hinv Ha.
  - done.
  - simpl in *. rewrite decide_False; [done|]. intros ->. apply Ha. by left.
  - apply tinv_Sub in Hinv as (Hl & Hp & Hc). cbn [fire].
    assert ((λ c, (c.1, fire a v c.2)) <$> cells = cells) as ->.
    { rewrite <- (list_fmap_id cells) at 2. apply list_fmap_ext. intros i [k t] Hi.
      simpl. f_equal. apply list_elem_of_lookup_2 in Hi.
      rewrite Forall_forall in IH, Hc. eapply (IH _ Hi); [by apply (Hc _ Hi)|].
      intros Hin. apply Ha. simpl. apply elem_of_join_fmap. by exists (k, t). }
    destruct (pendings (cell_of <$> cells)); done.
Qed.

(** A fired tree is settled or keeps its root. *)
Lemma fire_root a v t :
  (∃ w, fire a v t = Done w)
  ∨ (pend (fire a v t) = pend t ∧ shown (fire a v t) = shown t).
Proof.
  destruct t as [w|b|r dict cells]; simpl.
  - left. by eexists.
  - case_decide; [left; by eexists|by right].
  - destruct (is_empty _); [left; by eexists|by right].
Qed.

Lemma elem_of_leaves_fire a v t : ∀ b, b ∈ leaves (fire a v t) ↔ b ∈ leaves t ∧ b ≠ a.
Proof.
  induction t as [w|c|r dict cells IH] using ptree_nested_ind; intros b.
  - simpl. split; [by intros ?%elem_of_nil|by intros [?%elem_of_nil _]].
  - simpl. case_decide as E; simpl.
    + subst c. split; [by intros ?%elem_of_nil|]. intros [->%list_elem_of_singleton ?]. done.
    + split.
      * intros ->%list_elem_of_singleton. split; [by left|]. by intros ->.
      * by intros [? _].
  - rewrite Forall_forall in IH. cbn [fire].
    set (cells' := (λ c, (c.1, fire a v c.2)) <$> cells).
    assert (b ∈ leaves (Sub r dict cells') ↔ b ∈ leaves (Sub r dict cells) ∧ b ≠ a) as Hsub.
    { simpl. rewrite !elem_of_join_fmap. split.
      - intros (c' & (c & -> & Hc)%list_elem_of_fmap & Hb). simpl in Hb.
        apply (IH _ Hc) in Hb as [Hb Hne]. split; [|done]. by exists c.
      - intros [(c & Hc & Hb) Hne]. exists (c.1, fire a v c.2). split.
        + apply list_elem_of_fmap. by exists c.
        + simpl. apply (IH _ Hc). done. }
    destruct (is_empty (pendings (cell_of <$> cells'))) eqn:He; [|done].
    rewrite <- Hsub. simpl. split; [by intros ?%elem_of_nil|].
    intros (c' & Hc' & Hb)%elem_of_join_fmap.
    apply is_empty_nil, pendings_nil_Done in He. rewrite Forall_forall in He.
    destruct (He _ Hc') as [w Hw]. rewrite Hw in Hb. done.
Qed.

Lemma final_fire σ a t : eventual σ (fire a (σ a) t) = eventual σ t.
Proof.
  induction t as [w|c|r dict cells IH] using ptree_nested_ind.
  - done.
  - simpl. case_decide; by subst.
  - rewrite Forall_forall in IH. cbn [fire].
    set (cells' := (λ c, (c.1, fire a (σ a) c.2)) <$> cells).
    assert (eventual σ (Sub r dict cells') = eventual σ (Sub r dict cells)) as Hsub.
    { simpl. f_equal. unfold cells'. rewrite <- list_fmap_compose.
      apply list_fmap_ext. intros i c Hi. simpl. f_equal. f_equal.
      apply IH. by eapply list_elem_of_lookup_2. }
    destruct (is_empty (pendings (cell_of <$> cells'))) eqn:He; [|done].
    rewrite <- Hsub. simpl. f_equal. apply list_fmap_ext. intros i c Hi.
    apply is_empty_nil, pendings_nil_Done in He. rewrite Forall_forall in He.
    apply list_elem_of_lookup_2 in Hi. destruct (He _ Hi) as [w Hw].
    unfold cell_of. destruct c as [k t]. simpl in *. by subst t.
Qed.

(** What the first ancestor has received when the tree below it settled
    with [w]. *)
Definition up_post (h h' : heap) (anc : list desc)
    (hook : list (handler * handler)) (w : value) : Prop :=
  match anc with
  | [] => True
  | P :: rest => chain_post h h' P rest (hook_key hook) w
  end.

Definition settled_root (h' : heap) (t : ptree) (w : value) : Prop :=
  ∃ r d, pend t = Some r ∧ h' !! r = Some d ∧ _called d = true ∧ result d = Some w.

Lemma cells_split_fire a v h r cells pre c post :
  cells = pre ++ c :: post →
  Forall (λ c, tinv h [hook_of r c.1] c.2) cells →
  (∀ c', c' ∈ pre ++ post → a ∉ leaves c'.2) →
  (λ c, (c.1, fire a v c.2)) <$> cells = pre ++ (c.1, fire a v c.2) :: post.
Proof.
  intros -> Hinv Ha. apply Forall_app in Hinv as [Hpre Hpost].
  apply Forall_cons in Hpost as [_ Hpost].
  rewrite fmap_app, fmap_cons. f_equal; [|f_equal].
  - rewrite <- (list_fmap_id pre) at 2. apply list_fmap_ext. intros i [k t] Hi.
    apply list_elem_of_lookup_2 in Hi. simpl. f_equal. rewrite Forall_forall in Hpre.
    eapply fire_absent; [by apply (Hpre _ Hi)|]. apply (Ha (k, t)).
    apply elem_of_app. by left.
  - rewrite <- (list_fmap_id post) at 2. apply list_fmap_ext. intros i [k t] Hi.
    apply list_elem_of_lookup_2 in Hi. simpl. f_equal. rewrite Forall_forall in Hpost.
    eapply fire_absent; [by apply (Hpost _ Hi)|]. apply (Ha (k, t)).
    apply elem_of_app. by right.
Qed.

Lemma cell_key_of cells : cell_key <$> (cell_of <$> cells) = cells.*1.
Proof. rewrite <- list_fmap_compose. by apply list_fmap_ext. Qed.

Lemma settle_split k w pre t post :
  NoDup ((pre ++ (k, t) :: post).*1) →
  settle k w (cell_of <$> pre ++ (k, t) :: post) = cell_of <$> pre ++ (k, Done w) :: post.
Proof.
  intros Hnd. rewrite fmap_app, fmap_cons in Hnd. simpl in Hnd.
  apply NoDup_app in Hnd as (_ & Hpre & Hnd). apply NoDup_cons in Hnd as [Hpost _].
  rewrite !fmap_app, !fmap_cons, settle_app, settle_cons. f_equal; [|f_equal].
  - apply settle_absent. rewrite cell_key_of. intros Hin. apply (Hpre _ Hin). by left.
  - unfold cell_of at 1. simpl. unfold cell_key. simpl. by rewrite decide_True.
  - apply settle_absent. by rewrite cell_key_of.
Qed.

(** A deferred of the caller that a multi-deferred waits for is called
    back. *)
Lemma callback_leaf h hook anc a v n d :
  h !! a = Some d →
  idle hook d →
  a ∉ d_ref <$> anc →
  NoDup (d_ref <$> anc) →
  Forall (local_ok h) anc →
  hook_linked hook anc →
  is_async v = false →
  length anc + 2 ≤ n →
  ∃ h', callback (fuel n) a v h = Some (Ok (as_failure no_exc_info v), h')
        ∧ (∀ r, r ∉ a :: (d_ref <$> anc) → h' !! r = h !! r)
        ∧ length h' = length h
        ∧ (∃ d', h' !! a = Some d' ∧ _called d' = true
                 ∧ result d' = Some (as_failure no_exc_info v))
        ∧ up_post h h' anc hook (as_failure no_exc_info v).
Proof.
  intros Ha (Hc & Hr & Hp & Hq) Hnot Hnd Hanc Hlink Hv Hn.
  assert (a < length h) as Hlt by (by eapply lookup_lt_Some).
  destruct anc as [|P rest].
  - simpl in Hlink. rewrite Hlink in Hq. unfold callback.
    rewrite (callback_plain n a v h d no_exc_info Ha Hc Hr Hp);
      [| by rewrite Hq | done | rewrite Hq; simpl; lia].
    rewrite Hq. cbn [propagate foldl].
    eexists. split; [reflexivity|]. split; [|split; [|split]].
    + intros r Hr0. apply list_lookup_insert_ne. intros <-. apply Hr0. by left.
    + by rewrite length_insert.
    + eexists. split; [by apply list_lookup_insert_eq|]. done.
    + done.
  - cbn [hook_linked] in Hlink. destruct Hlink as [(k & -> & Hk) Hlink].
    apply Forall_cons in Hanc as [HP Hrest].
    destruct n as [|[|j]]; [simpl in Hn; lia..|].
    set (v' := as_failure no_exc_info v).
    set (H1 := <[a := hooked v' d]> h).
    assert (∀ A, A ∈ P :: rest → a ≠ d_ref A) as Hne.
    { intros A HA ->. apply Hnot. apply list_elem_of_fmap. by exists A. }
    destruct (deferred_done_chain rest P k v' H1 (S j)) as (h2 & Hup & Hpost & Hfr & Hlen).
    { eapply local_ok_frame; [|done]. unfold H1.
      rewrite list_lookup_insert_ne; [done|]. apply Hne. by left. }
    { apply Forall_forall. intros A HA. rewrite Forall_forall in Hrest.
      eapply local_ok_frame; [|by apply Hrest]. unfold H1.
      rewrite list_lookup_insert_ne; [done|]. apply Hne. by right. }
    { done. } { done. } { done. } { simpl in Hn |- *. lia. }
    assert (a < length h2) as Hlt2 by (rewrite Hlen; unfold H1; by rewrite length_insert).
    unfold callback.
    rewrite (callback_hooked j a v h d (d_ref P) k h2 no_exc_info); try done; first last.
    { rewrite Hfr by done. unfold H1. by apply list_lookup_insert_eq. }
    eexists. split; [reflexivity|]. split; [|split; [|split]].
    + intros r Hr0. apply not_elem_of_cons in Hr0 as [Hra Hr0].
      rewrite list_lookup_insert_ne by done. rewrite Hfr by done.
      unfold H1. by rewrite list_lookup_insert_ne by done.
    + rewrite length_insert, Hlen. unfold H1. by rewrite length_insert.
    + eexists. split; [by apply list_lookup_insert_eq|]. done.
    + cbn [up_post hook_key hook_of]. eapply chain_post_frame; [| |exact Hpost].
      * intros r Hr0. apply list_lookup_insert_ne. intros <-. done.
      * intros r Hr0. unfold H1. rewrite list_lookup_insert_ne; [done|].
        intros <-. apply Hnot. rewrite fmap_cons. apply elem_of_cons. by right.
Qed.

Lemma refs_rearrange {A} (r : A) (p c q anc : list A) :
  (r :: (p ++ c ++ q)) ++ anc ≡ₚ (c ++ r :: anc) ++ (p ++ q).
Proof.
  etrans; [|apply Permutation_app; [apply Permutation_middle|reflexivity]].
  simpl. constructor.
  etrans; [apply Permutation_app; [apply Permutation_app_comm|reflexivity]|].
  rewrite <- !(assoc (++)). apply Permutation_app_head.
  etrans; [apply Permutation_app_comm|]. rewrite (assoc (++) anc).
  apply Permutation_app_tail, Permutation_app_comm.
Qed.

Definition after_fire (h h' : heap) (hook : list (handler * handler))
    (anc : list desc) (t t' : ptree) : Prop :=
  match t' with
  | Done w => settled_root h' t w ∧ up_post h h' anc hook w
  | _ => tinv h' hook t' ∧ Forall (λ A, h' !! d_ref A = h !! d_ref A) anc
  end.

(** A leaf of the tree is called back: the heap holds the fired tree, or,
    when the tree settled, its root was called and the first ancestor has
    received the value. *)
Lemma fire_leaf t : ∀ h hook anc a v n,
  tinv h hook t →
  NoDup (refs t ++ (d_ref <$> anc)) →
  Forall (local_ok h) anc →
  hook_linked hook anc →
  a ∈ leaves t →
  is_async v = false →
  height t + length anc + 2 ≤ n →
  ∃ h', callback (fuel n) a v h = Some (Ok (as_failure no_exc_info v), h')
        ∧ (∀ r, r ∉ refs t ++ (d_ref <$> anc) → h' !! r = h !! r)
        ∧ length h' = length h
        ∧ after_fire h h' hook anc t (fire a (as_failure no_exc_info v) t).
Proof.
  induction t as [w|b|r dict cells IH] using ptree_nested_ind;
    intros h hook anc a v n Hinv Hnd Hanc Hlink Ha Hv Hn.
  - by apply elem_of_nil in Ha.
  - simpl in Ha. apply list_elem_of_singleton in Ha as ->.
    destruct Hinv as (d & Hd & Hidle). simpl in Hnd, Hn.
    apply NoDup_cons in Hnd as [Hnot Hnd].
    destruct (callback_leaf h hook anc b v n d) as (h' & Hcb & Hfr & Hlen & Hset & Hup);
      [done..|lia|].
    exists h'. split; [done|]. split; [done|]. split; [done|].
    cbn [fire]. rewrite decide_True by done. split; [|done].
    destruct Hset as (d' & ? & ? & ?). by exists b, d'.
  - set (v' := as_failure no_exc_info v).
    apply tinv_Sub in Hinv as (Hl & Hp & Hc).
    cbn [leaves] in Ha. apply elem_of_join_fmap in Ha as (c & Hin & Ha).
    destruct (list_elem_of_split _ _ Hin) as (pre & post & Hcells).
    set (Dr := Desc r dict (cell_of <$> cells) hook) in *.
    assert (NoDup cells.*1) as Hkeys.
    { destruct Hl as [Hk _]. apply keys_ok_nodup in Hk. simpl in Hk.
      by rewrite cell_key_of in Hk. }
    (* the references of the children are apart *)
    assert (refs (Sub r dict cells) ++ (d_ref <$> anc) ≡ₚ
            (refs c.2 ++ r :: (d_ref <$> anc))
            ++ (mjoin ((λ c, refs c.2) <$> pre) ++ mjoin ((λ c, refs c.2) <$> post)))
      as Hperm.
    { cbn [refs]. rewrite Hcells, fmap_app, fmap_cons, join_app. simpl.
      apply refs_rearrange. }
    rewrite Hperm in Hnd. apply NoDup_app in Hnd as (Hnd1 & Hdisj & _).
    assert (∀ c' x, c' ∈ pre ++ post → x ∈ refs c'.2 →
            x ∉ refs c.2 ++ r :: (d_ref <$> anc)) as Hsib.
    { intros c' x Hc' Hx Hbad. apply (Hdisj _ Hbad).
      apply elem_of_app in Hc' as [Hc'|Hc']; apply elem_of_app; [left|right];
        apply elem_of_join_fmap; by exists c'. }
    assert (∀ c', c' ∈ pre ++ post → a ∉ leaves c'.2) as Hothers.
    { intros c' Hc' Hbad. apply (Hsib c' a Hc'); [by apply leaves_refs|].
      apply elem_of_app. left. by apply leaves_refs. }
    pose proof (cells_split_fire a v' h r cells pre c post Hcells Hc Hothers) as Hfire.
    (* the child that holds the leaf *)
    rewrite Forall_forall in IH. rewrite Forall_forall in Hc.
    destruct (IH c Hin h [hook_of r c.1] (Dr :: anc) a v n)
      as (h' & Hcb & Hfr & Hlen & Hafter).
    { by apply Hc. }
    { by rewrite fmap_cons. }
    { by constructor. }
    { cbn [hook_linked]. split; [|done]. exists c.1. split; [done|].
      unfold Dr. cbn [d_cells]. rewrite cell_key_of. by apply list_elem_of_fmap_2. }
    { done. } { done. }
    { pose proof (height_child r dict cells c Hin). cbn [length]. lia. }
    assert (∀ x, x ∉ refs (Sub r dict cells) ++ (d_ref <$> anc) → h' !! x = h !! x)
      as Hframe.
    { intros x Hx. apply Hfr. rewrite fmap_cons. intros Hbad. apply Hx.
      rewrite Hperm. apply elem_of_app. by left. }
    assert (Forall (λ c', tinv h' [hook_of r c'.1] c'.2) (pre ++ post)) as Hsibs.
    { apply Forall_forall. intros c' Hc'. eapply tinv_frame; [|apply Hc].
      - intros x Hx. apply Hfr. rewrite fmap_cons. by apply (Hsib c').
      - rewrite Hcells. apply elem_of_app in Hc' as [?|?]; apply elem_of_app;
          [by left|right; by right]. }
    exists h'. split; [done|]. split; [done|]. split; [done|].
    fold v' in Hafter. cbn [fire]. rewrite Hfire.
    destruct (fire a v' c.2) as [w|b|r' dict' cells'] eqn:Hf.
    + (* the child settled: the node received its value *)
      destruct Hafter as [_ Hup]. cbn [up_post hook_key hook_of] in Hup.
      assert (settle c.1 w (cell_of <$> cells) = cell_of <$> pre ++ (c.1, Done w) :: post)
        as Hsettle.
      { pose proof Hkeys as Hkeys'. rewrite Hcells in Hkeys' |- *. clear -Hkeys'.
        destruct c as [k tk]. by apply settle_split. }
      assert (∀ h0,
        local_ok h0 (with_cells (cell_of <$> pre ++ (c.1, Done w) :: post) Dr) →
        is_empty (pendings (cell_of <$> pre ++ (c.1, Done w) :: post)) = false →
        Forall (λ c', tinv h0 [hook_of r c'.1] c'.2) (pre ++ post) →
        tinv h0 hook (Sub r dict (pre ++ (c.1, Done w) :: post))) as Hwaits.
      { intros h0 Hlocal He Hs. apply tinv_Sub. split; [|split].
        - exact Hlocal.
        - intros E. by rewrite E in He.
        - apply Forall_app in Hs as [Hpre Hpost]. apply Forall_app. split; [done|].
          by constructor. }
      destruct anc as [|P rest]; cbn [chain_post] in Hup;
        cbn [d_cells d_dict d_ref d_hook with_cells Dr] in Hup; rewrite Hsettle in Hup;
        destruct (is_empty (pendings (cell_of <$> pre ++ (c.1, Done w) :: post))) eqn:He;
        cbn [after_fire].
      * destruct Hup as [(d' & Hd' & Hcalled & Hres) _]. split; [|done]. by exists r, d'.
      * destruct Hup as [Hlocal Hunch]. split; [|done]. by apply Hwaits.
      * destruct Hup as [(d' & Hd' & Hcalled & Hres) Hup]. split; [by exists r, d'|].
        exact Hup.
      * destruct Hup as [Hlocal Hunch]. split; [|done]. by apply Hwaits.
    + (* the child still waits *)
      destruct (fire_root a v' c.2) as [[w Hw]|[Hpend Hshown]]; [congruence|].
      rewrite Hf in Hpend, Hshown. destruct Hafter as [Hchild Hunch].
      apply Forall_cons in Hunch as [Hr Hunch].
      assert (cell_of <$> pre ++ (c.1, Wait b) :: post = cell_of <$> cells) as Hsame.
      { rewrite Hcells, !fmap_app, !fmap_cons. f_equal. f_equal.
        unfold cell_of. by rewrite <- Hpend, <- Hshown. }
      rewrite Hsame. destruct (is_empty (pendings (cell_of <$> cells))) eqn:He;
        [by apply is_empty_nil in He|].
      split; [|done]. apply tinv_Sub. rewrite Hsame. split; [|split; [done|]].
      * eapply local_ok_frame; [|exact Hl]. exact Hr.
      * apply Forall_app in Hsibs as [Hpre Hpost]. apply Forall_app. split; [done|].
        by constructor.
    + destruct (fire_root a v' c.2) as [[w Hw]|[Hpend Hshown]]; [congruence|].
      rewrite Hf in Hpend, Hshown. destruct Hafter as [Hchild Hunch].
      apply Forall_cons in Hunch as [Hr Hunch].
      assert (cell_of <$> pre ++ (c.1, Sub r' dict' cells') :: post = cell_of <$> cells)
        as Hsame.
      { rewrite Hcells, !fmap_app, !fmap_cons. f_equal. f_equal.
        unfold cell_of. by rewrite <- Hpend, <- Hshown. }
      rewrite Hsame. destruct (is_empty (pendings (cell_of <$> cells))) eqn:He;
        [by apply is_empty_nil in He|].
      split; [|done]. apply tinv_Sub. rewrite Hsame. split; [|split; [done|]].
      * eapply local_ok_frame; [|exact Hl]. exact Hr.
      * apply Forall_app in Hsibs as [Hpre Hpost]. apply Forall_app. split; [done|].
        by constructor.
Qed.

(** ** Building the tree *)

Lemma dict_set_fresh {V} k (v : V) (d : list (key * V)) :
  k ∉ d.*1 → dict_set k v d = d ++ [(k, v)].
Proof.
  induction d as [|[k' v'] d IH]; [done|]. simpl. intros H.
  apply not_elem_of_cons in H as [Hk H]. rewrite decide_False by done. f_equal. by apply IH.
Qed.

Lemma keys_ok_app_key dict cs c :
  keys_ok dict (cs ++ [c]) →
  (cell_key c ∉ cell_key <$> cs)
  ∧ (dict = false → cell_key c = KInt (Z.of_nat (length cs))).
Proof.
  intros Hk. split.
  - apply keys_ok_nodup in Hk. rewrite fmap_app in Hk. apply NoDup_app in Hk as (_ & Hd & _).
    intros Hin. apply (Hd _ Hin). simpl. by left.
  - intros ->. simpl in Hk. rewrite length_app, fmap_app in Hk. simpl in Hk.
    rewrite Nat.add_1_r, seq_S, fmap_app in Hk. simpl in Hk.
    apply app_inj_1 in Hk as [_ Hk]; [|by rewrite !length_fmap, length_seq].
    by injection Hk.
Qed.

(** [_setitem] on the next cell. *)
Lemma setitem_append m dict cs c :
  log_failure m = false →
  _stream m = mkstream dict cs →
  keys_ok dict (cs ++ [c]) →
  ∃ fs, _setitem m (cell_key c) (cell_value c) =
        (set_failures fs (set_stream (mkstream dict (cs ++ [c])) m), None).
Proof.
  intros Hlog Hs Hk. apply keys_ok_app_key in Hk as [Hfresh Hlist].
  unfold _setitem. rewrite Hs, Hlog. destruct dict; simpl.
  - rewrite dict_set_fresh; last first.
    { rewrite <- list_fmap_compose. exact Hfresh. }
    rewrite fmap_app. simpl.
    destruct (is_failure (cell_value c)); eexists; [done|].
    instantiate (1 := _failures m). by destruct m.
  - rewrite Hlist by done. rewrite length_fmap, decide_True by done.
    rewrite fmap_app. simpl.
    destruct (is_failure (cell_value c)); eexists; [done|].
    instantiate (1 := _failures m). by destruct m.
Qed.

(** A multi-deferred that is being filled. *)
Definition building (h : heap) (self : ref) (dict : bool) (cells : list (key * ptree))
    : Prop :=
  keys_ok dict (cell_of <$> cells)
  ∧ ∃ d m, h !! self = Some d ∧ idle [] d ∧ multi d = Some m
           ∧ _locked m = false ∧ fireOnOneErrback m = false
           ∧ log_failure m = false ∧ handle_value m = None
           ∧ _stream m = mkstream dict (cell_of <$> cells)
           ∧ _deferred m = pendings (cell_of <$> cells).

Lemma pendings_snoc cs c :
  pendings (cs ++ [c]) =
  pendings cs ++ match cell_pending c with Some r => [(cell_key c, r)] | None => [] end.
Proof. rewrite pendings_app, pendings_cons. by destruct (cell_pending c). Qed.

(** [_add_store] of a value that is not a deferred. *)
Lemma add_store_done K self dict cells h k w :
  building h self dict cells →
  keys_ok dict (cell_of <$> cells ++ [(k, Done w)]) →
  is_async w = false →
  ∃ d', _add_store K self k w h = Some (Ok (), <[self := d']> h)
        ∧ building (<[self := d']> h) self dict (cells ++ [(k, Done w)]).
Proof.
  intros [_ (d & m & Hd & Hidle & Hm & Hl & Hf & Hlog & Hv & Hs & Hp)] Hk Hw.
  assert (self < length h) as Hlt by (by eapply lookup_lt_Some).
  rewrite fmap_app in Hk. simpl in Hk.
  destruct (setitem_append m dict (cell_of <$> cells) (cell_of (k, Done w)) Hlog Hs Hk)
    as [fs Hset].
  unfold cell_of in Hset at 2 3. simpl in Hset. unfold cell_key, cell_value in Hset.
  simpl in Hset.
  unfold _add_store. rewrite Hd. cbn [mbind option_bind]. rewrite Hm.
  cbn [mbind option_bind]. rewrite Hset.
  rewrite not_async_case by done. eexists. split; [reflexivity|].
  split; [by rewrite fmap_app|]. eexists _, _.
  split; [by apply list_lookup_insert_eq|]. split; [exact Hidle|].
  split; [reflexivity|]. cbn. rewrite fmap_app. repeat split; try done.
  rewrite pendings_app, <- Hp. cbn. by rewrite app_nil_r.
Qed.

(** [_add_store] of a deferred that was not called: the multi-deferred
    waits for it, its queue receives the hook. *)
Lemma add_store_wait n self dict cells h k r dr t :
  building h self dict cells →
  keys_ok dict (cell_of <$> cells ++ [(k, t)]) →
  shown t = VDeferred r → pend t = Some r →
  h !! r = Some dr → _called dr = false → r ≠ self →
  ∃ d',
    _add_store (fuel (S n)) self k (VDeferred r) h =
      Some (Ok (), <[r := set_callbacks (_callbacks dr ++ [hook_of self k]) dr]>
                     (<[self := d']> h))
    ∧ building (<[r := set_callbacks (_callbacks dr ++ [hook_of self k]) dr]>
                  (<[self := d']> h)) self dict (cells ++ [(k, t)]).
Proof.
  intros [_ (d & m & Hd & Hidle & Hm & Hl & Hf & Hlog & Hv & Hs & Hp)] Hk Hsh Hpe Hr Hc Hne.
  assert (self < length h) as Hlt by (by eapply lookup_lt_Some).
  pose proof Hk as Hk'. rewrite fmap_app in Hk'. simpl in Hk'.
  destruct (setitem_append m dict (cell_of <$> cells) (cell_of (k, t)) Hlog Hs Hk')
    as [fs Hset].
  apply keys_ok_app_key in Hk' as [Hfresh _].
  unfold cell_of in Hset at 2 3. simpl in Hset. unfold cell_key, cell_value in Hset.
  simpl in Hset. rewrite Hsh in Hset.
  unfold _add_store. rewrite Hd. cbn [mbind option_bind]. rewrite Hm.
  cbn [mbind option_bind]. rewrite Hset.
  unfold _add_deferred. rewrite list_lookup_insert_eq by done.
  cbn [mbind option_bind multi set_multi]. rewrite list_insert_insert_eq.
  unfold add_both.
  erewrite add_callback_uncalled;
    [| by rewrite list_lookup_insert_ne by done | done].
  cbn [mbind option_bind]. eexists. split; [reflexivity|].
  split; [done|]. eexists _, _.
  split; [rewrite list_lookup_insert_ne by done; by apply list_lookup_insert_eq|].
  split; [exact Hidle|]. split; [reflexivity|]. cbn.
  rewrite fmap_app. repeat split; try done.
  rewrite pendings_app, <- Hp. cbn. rewrite Hpe. cbn. apply dict_set_fresh.
  intros Hin. apply Hfresh. rewrite Hp in Hin. by apply pendings_keys.
Qed.

(** The collection handed to [multi_async]: its nesting depth, the
    deferreds in it, and whether the keys of each dictionary are distinct. *)
Fixpoint depth (v : value) : nat :=
  match v with
  | VList l => S (foldr (λ x acc, depth x `max` acc) 0 l)
  | VDict l => S (foldr (λ p acc, depth p.2 `max` acc) 0 l)
  | _ => 0
  end.

Fixpoint dleaves (v : value) : list ref :=
  match v with
  | VDeferred a => [a]
  | VList l => mjoin (dleaves <$> l)
  | VDict l => mjoin ((λ p, dleaves p.2) <$> l)
  | _ => []
  end.

Fixpoint well_keyed (v : value) : bool :=
  match v with
  | VList l => forallb well_keyed l
  | VDict l => bool_decide (NoDup l.*1) && forallb (λ p, well_keyed p.2) l
  | _ => true
  end.

(** The collection with every deferred [a] replaced by [σ a], every other
    entry as [maybe_async] leaves it. *)
Fixpoint resolve (σ : ref → value) (v : value) : value :=
  match v with
  | VList l => VList (resolve σ <$> l)
  | VDict l => VDict ((λ p, (p.1, resolve σ p.2)) <$> l)
  | VDeferred a => σ a
  | _ => as_failure no_exc_info v
  end.

(** The keyed entries [update] goes through. *)
Definition items_of (v : value) : list (key * value) :=
  match v with
  | VDict l => l
  | VList l => imap (λ i x, (KInt (Z.of_nat i), x)) l
  | _ => []
  end.

Definition is_dict (v : value) : bool :=
  match v with VDict _ => true | _ => false end.

Definition keys_fine (dict : bool) (ks : list key) : Prop :=
  if dict then NoDup ks else ks = (λ i, KInt (Z.of_nat i)) <$> seq 0 (length ks).

Lemma keys_ok_fine dict cs : keys_ok dict cs ↔ keys_fine dict (cell_key <$> cs).
Proof. unfold keys_ok, keys_fine. by rewrite length_fmap. Qed.

Lemma keys_ok_cells dict cells : keys_ok dict (cell_of <$> cells) ↔ keys_fine dict cells.*1.
Proof. by rewrite keys_ok_fine, cell_key_of. Qed.

Lemma make_multi_async K self v h d m :
  h !! self = Some d → multi d = Some m →
  fireOnOneErrback m = false → handle_value m = None →
  _make K self v h =
  '(r, h2) ← multi_async K v h;
  match r with
  | Ok md => v' ← maybe_async h2 (VDeferred md); Some (Ok v', h2)
  | Err e => Some (Err e, h2)
  end.
Proof.
  intros Hd Hm Hf Hv. unfold _make, multi_async. rewrite Hd. cbn [mbind option_bind].
  rewrite Hm. cbn [mbind option_bind]. rewrite Hf, Hv.
  destruct (MultiDeferred_init K v false None false h) as [[[md|e] h1]|]; [|done..].
  cbn [mbind option_bind]. by destruct (lock K md h1) as [[[md'|e] h2]|].
Qed.

Definition fresh_leaves (h : heap) (bound : nat) (x : value) : Prop :=
  NoDup (dleaves x)
  ∧ ∀ a, a ∈ dleaves x → a < bound ∧ ∃ d, h !! a = Some d ∧ idle [] d.

(** The tree [t] was built from the collection [x] between the heaps [h]
    and [h']. *)
Definition tree_of (h h' : heap) (x : value) (t : ptree) : Prop :=
  NoDup (refs t)
  ∧ (∀ y, y ∈ refs t → y ∈ dleaves x ∨ length h ≤ y < length h')
  ∧ (∀ y, y ∈ leaves t ↔ y ∈ dleaves x)
  ∧ (∀ σ, eventual σ t = resolve σ x)
  ∧ height t ≤ depth x.

(** The multi-deferred at [root] holds the tree [t]. *)
Definition built (h : heap) (root : ref) (t : ptree) : Prop :=
  match t with
  | Done w => ∃ d, h !! root = Some d ∧ _called d = true ∧ _callbacks d = []
                   ∧ result d = Some w
  | Wait _ => False
  | Sub r _ _ => r = root ∧ tinv h [] t
  end.

Definition build_ok (m : nat) : Prop :=
  ∀ v h,
    is_container v = true → depth v + 1 ≤ m → well_keyed v = true →
    fresh_leaves h (length h) v →
    ∃ t h', multi_async (fuel m) v h = Some (Ok (length h), h')
            ∧ length h < length h'
            ∧ (∀ r, r < length h → r ∉ dleaves v → h' !! r = h !! r)
            ∧ built h' (length h) t
            ∧ tree_of h h' v t.

Lemma building_frame h h' self dict cells :
  h' !! self = h !! self → building h self dict cells → building h' self dict cells.
Proof. intros E [Hk (d & m & Hd & Hrest)]. split; [done|]. exists d, m. by rewrite E. Qed.

(** The root of a tree that was just built receives the hook of its
    parent. *)
Lemma tinv_rehook h r dict cells dr hook :
  tinv h [] (Sub r dict cells) →
  NoDup (refs (Sub r dict cells)) →
  h !! r = Some dr →
  tinv (<[r := set_callbacks ([] ++ [hook]) dr]> h) [hook] (Sub r dict cells).
Proof.
  intros Hinv Hnd Hr. apply tinv_Sub in Hinv as (Hl & Hp & Hc).
  assert (r < length h) as Hlt by (by eapply lookup_lt_Some).
  cbn [refs] in Hnd. apply NoDup_cons in Hnd as [Hnot _].
  apply tinv_Sub. split; [|split; [done|]].
  - destruct Hl as [Hk (d & Hd & Hcd & Hrd & Hpd & Hqd & Hm)]. split; [done|].
    cbn [d_ref] in *. rewrite Hr in Hd. injection Hd as <-.
    eexists. split; [by apply list_lookup_insert_eq|].
    repeat split; try done.
  - rewrite Forall_forall in Hc |- *. intros c Hin. eapply tinv_frame; [|by apply Hc].
    intros x Hx. apply list_lookup_insert_ne. intros <-. apply Hnot.
    apply elem_of_join_fmap. by exists c.
Qed.

Lemma resolve_container σ x : is_container x = true → is_async (resolve σ x) = false.
Proof. by destruct x. Qed.

Lemma plain_not_container x :
  is_container x = false → is_async x = false →
  is_container (as_failure no_exc_info x) = false
  ∧ is_async (as_failure no_exc_info x) = false
  ∧ (∀ σ, resolve σ x = as_failure no_exc_info x)
  ∧ dleaves x = [].
Proof. by destruct x. Qed.

(** One [_add]: the next cell of the multi-deferred that is being filled. *)
Lemma add_item m self dict cells h k x :
  build_ok m → 1 ≤ m →
  building h self dict cells →
  keys_fine dict (cells.*1 ++ [k]) →
  fresh_leaves h self x →
  well_keyed x = true →
  depth x + 1 ≤ m →
  ∃ t h', _add (fuel m) self k x h = Some (Ok (), h')
          ∧ building h' self dict (cells ++ [(k, t)])
          ∧ tinv h' [hook_of self k] t
          ∧ length h ≤ length h'
          ∧ (∀ r, r < length h → r ≠ self → r ∉ dleaves x → h' !! r = h !! r)
          ∧ tree_of h h' x t.
Proof.
  intros Hbuild Hm Hb Hkeys [Hnd Hfresh] Hwk Hdepth.
  assert (∀ t, keys_ok dict (cell_of <$> cells ++ [(k, t)])) as Hk.
  { intros t. apply keys_ok_cells. by rewrite fmap_app. }
  pose proof Hb as [_ (d & md & Hd & Hidle & Hmd & Hl & Hf & Hlog & Hv & Hs & Hp)].
  assert (self < length h) as Hlt by (by eapply lookup_lt_Some).
  unfold _add. rewrite Hd. cbn [mbind option_bind]. rewrite Hmd.
  cbn [mbind option_bind]. rewrite Hl, Hv.
  destruct (is_container x) eqn:Hcont; [|destruct (is_async x) eqn:Hasync].
  - (* a nested collection *)
    assert (maybe_async h x = Some x) as -> by (by destruct x).
    cbn [mbind option_bind]. rewrite Hcont.
    rewrite (make_multi_async _ self x h d md) by done.
    destruct (Hbuild x h) as (t & h1 & -> & Hlen & Hfr & Hbuilt & Htree); [done..| |].
    { split; [done|]. intros a Ha. destruct (Hfresh a Ha) as [? ?]. split; [lia|done]. }
    cbn [mbind option_bind maybe_async].
    assert (building h1 self dict cells) as Hb1.
    { eapply building_frame; [|done]. apply Hfr; [done|].
      intros Hin. destruct (Hfresh _ Hin). lia. }
    destruct Htree as (Hnd' & Hrefs & Hleaves & Hfinal & Hheight).
    destruct t as [w|a|r dict' cells'].
    + destruct Hbuilt as (dr & Hr & Hcalled & Hq & Hres).
      rewrite Hr. cbn [mbind option_bind]. unfold result_or_self.
      rewrite Hcalled, Hq, Hres. cbn [andb is_empty mbind option_bind].
      assert (is_async w = false) as Hw.
      { specialize (Hfinal (λ _, VNone)). simpl in Hfinal. rewrite Hfinal.
        by apply resolve_container. }
      rewrite Hw.
      destruct (add_store_done (fuel m) self dict cells h1 k w) as (d' & -> & Hb');
        [done..|].
      exists (Done w). eexists. split; [reflexivity|]. split; [done|]. split; [done|].
      split; [rewrite length_insert; lia|]. split.
      * intros r Hr0 Hne Hnot. rewrite list_lookup_insert_ne by done. by apply Hfr.
      * split; [done|]. split; [by intros y ?%elem_of_nil|]. done.
    + done.
    + destruct Hbuilt as [-> Hinv].
      pose proof Hinv as Hinv'. apply tinv_Sub in Hinv' as ([_ (dr & Hr & Hw)] & _).
      destruct Hw as (Hcalled & _ & _ & Hq & _). cbn [d_ref d_hook] in *.
      rewrite Hr. cbn [mbind option_bind]. unfold result_or_self.
      rewrite Hcalled. cbn [andb mbind option_bind is_async].
      destruct m as [|m']; [lia|].
      assert (length h ≠ self) as Hne by lia.
      destruct (add_store_wait m' self dict cells h1 k (length h) dr
                  (Sub (length h) dict' cells')) as (d' & -> & Hb'); [done..|].
      rewrite Hq in Hb' |- *.
      eexists (Sub (length h) dict' cells'), _. split; [reflexivity|].
      split; [done|].
      assert (length h < length (<[self:=d']> h1)) as Hlen' by (by rewrite length_insert).
      assert (self ∉ refs (Sub (length h) dict' cells')) as Hself.
      { intros Hin. destruct (Hrefs _ Hin) as [Hleaf|?]; [|lia].
        destruct (Hfresh _ Hleaf). lia. }
      split; [|split; [|split]].
      * apply tinv_rehook; [|done|].
        -- eapply tinv_frame; [|done]. intros y Hy. apply list_lookup_insert_ne.
           by intros <-.
        -- by rewrite list_lookup_insert_ne by done.
      * rewrite !length_insert. lia.
      * intros r Hr0 Hne0 Hnot. rewrite list_lookup_insert_ne by lia.
        rewrite list_lookup_insert_ne by done. by apply Hfr.
      * split; [done|]. split; [|done]. intros y Hy. rewrite !length_insert.
        by apply Hrefs.
  - (* a deferred that was not called *)
    destruct x as [| | | | | | |a|]; try done.
    destruct (Hfresh a) as [Ha (da & Hda & Hca & Hra & Hpa & Hqa)]; [simpl; by left|].
    cbn [maybe_async]. rewrite Hda. cbn [mbind option_bind]. unfold result_or_self.
    rewrite Hca. cbn [andb mbind option_bind is_container is_async].
    destruct m as [|m']; [lia|].
    destruct (add_store_wait m' self dict cells h k a da (Wait a)) as (d' & -> & Hb');
      [done..|lia|].
    rewrite Hqa in Hb' |- *.
    eexists (Wait a), _. split; [reflexivity|]. split; [done|].
    split; [|split; [|split]].
    + eexists. split; [apply list_lookup_insert_eq; rewrite length_insert;
        by eapply lookup_lt_Some|]. done.
    + by rewrite !length_insert.
    + intros r Hr0 Hne0 Hnot. simpl in Hnot.
      rewrite list_lookup_insert_ne by (intros <-; apply Hnot; by left).
      by rewrite list_lookup_insert_ne by done.
    + split; [apply NoDup_singleton|]. split; [by left|]. done.
  - (* a value *)
    destruct (plain_not_container x Hcont Hasync) as (Hc' & Ha' & Hres & Hleaves).
    rewrite maybe_async_plain by done. cbn [mbind option_bind]. rewrite Hc'.
    cbn [mbind option_bind]. rewrite Ha'.
    destruct (add_store_done (fuel m) self dict cells h k (as_failure no_exc_info x))
      as (d' & -> & Hb'); [done..|].
    eexists (Done _), _. split; [reflexivity|]. split; [done|]. split; [done|].
    split; [by rewrite length_insert|]. split.
    + intros r Hr0 Hne0 Hnot. by rewrite list_lookup_insert_ne by done.
    + split; [constructor|]. split; [by intros y ?%elem_of_nil|]. rewrite Hleaves.
      split; [done|]. split; [by intros σ; rewrite Hres|]. simpl. lia.
Qed.

Lemma keys_fine_prefix dict l1 l2 : keys_fine dict (l1 ++ l2) → keys_fine dict l1.
Proof.
  destruct dict; simpl.
  - by intros (? & _ & _)%NoDup_app.
  - rewrite length_app, seq_app, fmap_app. intros H.
    apply app_inj_1 in H as [H _]; [done|]. by rewrite length_fmap, length_seq.
Qed.

Lemma join_fmap_cons {A B} (f : A → list B) x l :
  mjoin (f <$> x :: l) = f x ++ mjoin (f <$> l).
Proof. done. Qed.

Lemma join_fmap_snoc {A B} (f : A → list B) x l :
  mjoin (f <$> l ++ [x]) = mjoin (f <$> l) ++ f x.
Proof. rewrite fmap_app, join_app. simpl. by rewrite app_nil_r. Qed.

(** What a cell built from an entry keeps of it. *)
Definition cell_for (c : key * ptree) (p : key * value) : Prop :=
  c.1 = p.1
  ∧ (∀ y, y ∈ leaves c.2 ↔ y ∈ dleaves p.2)
  ∧ (∀ σ, eventual σ c.2 = resolve σ p.2)
  ∧ height c.2 ≤ depth p.2.

(** The loop of [update]. *)
Lemma update_items m self dict :
  build_ok m → 1 ≤ m →
  ∀ items cells h,
    building h self dict cells →
    Forall (λ c, tinv h [hook_of self c.1] c.2) cells →
    keys_fine dict (cells.*1 ++ items.*1) →
    Forall (λ p, well_keyed p.2 = true ∧ depth p.2 + 1 ≤ m) items →
    NoDup (mjoin ((λ p, dleaves p.2) <$> items)) →
    (∀ a, a ∈ mjoin ((λ p, dleaves p.2) <$> items) →
          a < self ∧ ∃ d, h !! a = Some d ∧ idle [] d) →
    NoDup (mjoin ((λ c, refs c.2) <$> cells)) →
    (∀ y, y ∈ mjoin ((λ c, refs c.2) <$> cells) →
          (y < self ∧ y ∉ mjoin ((λ p, dleaves p.2) <$> items)) ∨ self < y < length h) →
    ∃ cells' h',
      update_loop (fuel (S m)) self items h = Some (Ok (), h')
      ∧ building h' self dict (cells ++ cells')
      ∧ Forall (λ c, tinv h' [hook_of self c.1] c.2) (cells ++ cells')
      ∧ length h ≤ length h'
      ∧ (∀ r, r < length h → r ≠ self →
              r ∉ mjoin ((λ p, dleaves p.2) <$> items) → h' !! r = h !! r)
      ∧ NoDup (mjoin ((λ c, refs c.2) <$> cells ++ cells'))
      ∧ (∀ y, y ∈ mjoin ((λ c, refs c.2) <$> cells') →
              y ∈ mjoin ((λ p, dleaves p.2) <$> items) ∨ length h ≤ y < length h')
      ∧ Forall2 cell_for cells' items.
Proof.
  intros Hbuild Hm. induction items as [|[k x] items IH];
    intros cells h Hb Hinv Hkeys Hwf Hnd Hfresh Hndc Hbound.
  - exists [], h. rewrite app_nil_r. cbn [update_loop].
    split; [done|]. split; [done|]. split; [done|]. split; [done|]. split; [done|].
    split; [done|]. split; [by intros y ?%elem_of_nil|]. constructor.
  - apply Forall_cons in Hwf as [[Hwk Hdepth] Hwf].
    rewrite join_fmap_cons in Hnd, Hfresh, Hbound. cbn [snd] in Hnd, Hfresh, Hbound.
    apply NoDup_app in Hnd as (Hndx & Hdisj & Hnd').
    pose proof Hb as [_ (d0 & _ & Hd0 & _)].
    assert (self < length h) as Hlt by (by eapply lookup_lt_Some).
    destruct (add_item m self dict cells h k x) as (t & h1 & Hadd & Hb1 & Ht & Hlen1 & Hfr1 & Htree);
      [done..| | | done|done|].
    { rewrite fmap_cons in Hkeys. cbn [fst] in Hkeys.
      change (k :: items.*1) with ([k] ++ items.*1) in Hkeys.
      rewrite (assoc (++)) in Hkeys. by apply keys_fine_prefix in Hkeys. }
    { split; [done|]. intros a Ha. apply Hfresh. apply elem_of_app. by left. }
    pose proof Htree as (Hndt & Hrefst & Hleavest & Hfinalt & Hheightt).
    destruct (IH (cells ++ [(k, t)]) h1)
      as (cells' & h' & Hloop & Hb' & Hinv' & Hlen' & Hfr' & Hndc' & Hbound' & Hfor);
      [done| | | done | done | | | |].
    { apply Forall_app. split; [|by constructor].
      rewrite Forall_forall in Hinv |- *. intros c Hc. eapply tinv_frame; [|by apply Hinv].
      intros y Hy.
      assert (y ∈ mjoin ((λ c, refs c.2) <$> cells)) as Hy'
        by (apply elem_of_join_fmap; by exists c).
      destruct (Hbound _ Hy') as [[Hys Hnot]|Hys].
      - apply Hfr1; [lia|lia|]. intros Hin. apply Hnot. apply elem_of_app. by left.
      - apply Hfr1; [lia|lia|]. intros Hin.
        destruct (Hfresh y) as [? _]; [apply elem_of_app; by left|]. lia. }
    { rewrite fmap_app, <- (assoc (++)). simpl. by rewrite fmap_cons in Hkeys. }
    { intros a Ha. destruct (Hfresh a) as [Has (da & Hda & Hia)];
        [apply elem_of_app; by right|]. split; [done|]. exists da. split; [|done].
      rewrite Hfr1; [done|lia|lia|]. intros Hin. by apply (Hdisj _ Hin). }
    { rewrite join_fmap_snoc. apply NoDup_app. split; [done|]. split; [|done].
      intros y Hy Hyt. cbn [snd] in Hyt.
      destruct (Hbound _ Hy) as [[Hys Hnot]|Hys]; destruct (Hrefst _ Hyt) as [Hleaf|Hnew].
      - apply Hnot. apply elem_of_app. by left.
      - lia.
      - destruct (Hfresh y) as [? _]; [apply elem_of_app; by left|]. lia.
      - lia. }
    { intros y Hy. rewrite join_fmap_snoc in Hy. cbn [snd] in Hy.
      apply elem_of_app in Hy as [Hy|Hy].
      - destruct (Hbound _ Hy) as [[Hys Hnot]|Hys]; [left|right; lia].
        split; [done|]. intros Hin. apply Hnot. apply elem_of_app. by right.
      - destruct (Hrefst _ Hy) as [Hleaf|Hnew]; [left|right; lia].
        destruct (Hfresh y) as [? _]; [apply elem_of_app; by left|]. split; [done|].
        by apply Hdisj. }
    exists ((k, t) :: cells'), h'. cbn [update_loop]. rewrite add_rec_S, Hadd.
    cbn [mbind option_bind]. rewrite Hloop.
    rewrite <- (assoc (++)) in Hb', Hinv', Hndc'. simpl in Hb', Hinv', Hndc'.
    split; [done|]. split; [done|]. split; [done|]. split; [lia|].
    split; [|split; [done|split]].
    + intros r Hr Hne Hnot. rewrite join_fmap_cons in Hnot. cbn [snd] in Hnot.
      apply not_elem_of_app in Hnot as [Hx Hrest].
      rewrite Hfr' by (done || lia). by apply Hfr1.
    + intros y Hy. rewrite join_fmap_cons in Hy. rewrite join_fmap_cons.
      cbn [snd] in Hy |- *.
      apply elem_of_app in Hy as [Hy|Hy].
      * destruct (Hrefst _ Hy) as [?|?]; [left; apply elem_of_app; by left|right; lia].
      * destruct (Hbound' _ Hy) as [?|?]; [left; apply elem_of_app; by right|right; lia].
    + constructor; [|done]. done.
Qed.

Lemma imap_keyed (l : list value) : ∀ s,
  (imap (λ i x, (KInt (Z.of_nat (s + i)), x)) l).*1
    = (λ i, KInt (Z.of_nat i)) <$> seq s (length l)
  ∧ (imap (λ i x, (KInt (Z.of_nat (s + i)), x)) l).*2 = l.
Proof.
  induction l as [|x l IH]; intros s; [done|]. rewrite imap_cons. cbn [length seq].
  rewrite !fmap_cons. cbn [fst snd]. rewrite Nat.add_0_r.
  rewrite (imap_ext _ (λ i x, (KInt (Z.of_nat (S s + i)), x)));
    [|intros i y _; simpl; do 3 f_equal; lia].
  destruct (IH (S s)) as [-> ->]. done.
Qed.

Lemma items_values l : (items_of (VList l)).*2 = l.
Proof. apply (imap_keyed l 0). Qed.

Lemma items_keys l :
  (items_of (VList l)).*1 = (λ i, KInt (Z.of_nat i)) <$> seq 0 (length l).
Proof. apply (imap_keyed l 0). Qed.

Lemma iterdata_items v : is_container v = true → iterdata v 0 = Some (Ok (items_of v)).
Proof. by destruct v. Qed.

Lemma items_keys_fine v :
  is_container v = true → well_keyed v = true → keys_fine (is_dict v) (items_of v).*1.
Proof.
  destruct v as [| | | | |l|l| |]; try done; intros _ Hwk; cbn [is_dict keys_fine].
  - rewrite items_keys. by rewrite length_fmap, length_seq.
  - simpl in Hwk |- *. apply andb_true_iff in Hwk as [Hnd _]. by apply bool_decide_eq_true in Hnd.
Qed.

Lemma dleaves_items v :
  is_container v = true → dleaves v = mjoin ((λ p, dleaves p.2) <$> items_of v).
Proof.
  destruct v as [| | | | |l|l| |]; try done; intros _.
  cbn [dleaves]. rewrite <- (items_values l) at 1. by rewrite <- list_fmap_compose.
Qed.

Lemma resolve_items σ v :
  is_container v = true →
  resolve σ v = mkstream (is_dict v) ((λ p, (p.1, resolve σ p.2, None)) <$> items_of v).
Proof.
  destruct v as [| | | | |l|l| |]; try done; intros _; cbn [resolve is_dict mkstream].
  - f_equal. rewrite <- (items_values l) at 1. rewrite <- !list_fmap_compose. done.
  - f_equal. rewrite <- list_fmap_compose. done.
Qed.

Lemma depth_items v :
  is_container v = true →
  depth v = S (foldr (λ p acc, depth p.2 `max` acc) 0 (items_of v)).
Proof.
  destruct v as [| | | | |l|l| |]; try done; intros _. cbn [depth]. f_equal.
  rewrite <- (items_values l) at 1. by rewrite foldr_fmap.
Qed.

Lemma depth_item (items : list (key * value)) p :
  p ∈ items → depth p.2 ≤ foldr (λ p acc, depth p.2 `max` acc) 0 items.
Proof.
  induction items as [|q items IH]; [by intros ?%elem_of_nil|].
  intros [->|Hin]%elem_of_cons; simpl; [lia|]. specialize (IH Hin). lia.
Qed.

Lemma well_keyed_items v p :
  is_container v = true → well_keyed v = true → p ∈ items_of v → well_keyed p.2 = true.
Proof.
  destruct v as [| | | | |l|l| |]; try done; intros _ Hwk Hin; simpl in Hwk.
  - rewrite forallb_forall in Hwk. apply Hwk. apply list_elem_of_In.
    rewrite <- (items_values l). by apply list_elem_of_fmap_2.
  - apply andb_true_iff in Hwk as [_ Hwk]. rewrite forallb_forall in Hwk.
    apply (Hwk p). by apply list_elem_of_In.
Qed.

Lemma truthy_items v : is_container v = true → truthy v = false → items_of v = [].
Proof. by destruct v as [| | | | |[|]|[|]| |]. Qed.

(** The multi-deferred [MultiDeferred.__init__] allocates. *)
Definition empty_node (dict : bool) : deferred :=
  set_multi {| _locked := false; _deferred := []; _failures := [];
               log_failure := false; fireOnOneErrback := false;
               handle_value := None; _stream := mkstream dict [] |} new_deferred.

Lemma init_update K v h :
  is_container v = true →
  MultiDeferred_init K v false None false h =
  '(u, h2) ← update_loop K (length h) (items_of v) (h ++ [empty_node (is_dict v)]);
  match u with
  | Ok _ => Some (Ok (length h), h2)
  | Err e => Some (Err e, h2)
  end.
Proof.
  intros Hc. unfold MultiDeferred_init.
  assert ((match v with VDict _ => VDict [] | _ => VList [] end) = mkstream (is_dict v) [])
    as -> by (by destruct v).
  fold (empty_node (is_dict v)).
  destruct (truthy v) eqn:Ht.
  - unfold update. rewrite lookup_app_r by done. rewrite Nat.sub_diag.
    cbn [lookup list_lookup mbind option_bind empty_node multi set_multi _stream].
    assert (stream_len (mkstream (is_dict v) []) = 0) as -> by (by destruct (is_dict v)).
    by rewrite iterdata_items.
  - by rewrite truthy_items.
Qed.

Lemma building_empty h dict :
  building (h ++ [empty_node dict]) (length h) dict [].
Proof.
  split; [by destruct dict; [constructor|]|].
  eexists _, _. split; [by rewrite lookup_app_r, Nat.sub_diag|]. done.
Qed.

Lemma cell_for_leaves cells items :
  Forall2 cell_for cells items →
  ∀ y, y ∈ mjoin ((λ c, leaves c.2) <$> cells) ↔ y ∈ mjoin ((λ p, dleaves p.2) <$> items).
Proof.
  intros H y. rewrite !elem_of_join_fmap. split.
  - intros (c & Hc & Hy). apply list_elem_of_lookup in Hc as [i Hi].
    destruct (Forall2_lookup_l _ _ _ _ _ H Hi) as (p & Hp & _ & Hl & _).
    exists p. split; [by eapply list_elem_of_lookup_2|]. by apply Hl.
  - intros (p & Hp & Hy). apply list_elem_of_lookup in Hp as [i Hi].
    destruct (Forall2_lookup_r _ _ _ _ _ H Hi) as (c & Hc & _ & Hl & _).
    exists c. split; [by eapply list_elem_of_lookup_2|]. by apply Hl.
Qed.

Lemma cell_for_final σ cells items :
  Forall2 cell_for cells items →
  (λ c : key * ptree, (c.1, eventual σ c.2, @None ref)) <$> cells
  = (λ p : key * value, (p.1, resolve σ p.2, None)) <$> items.
Proof.
  induction 1 as [|c p cells items (Hk & _ & Hf & _) _ IH]; [done|].
  rewrite !fmap_cons. by rewrite IH, Hk, Hf.
Qed.

Lemma cell_for_height cells items :
  Forall2 cell_for cells items →
  foldr (λ c acc, height c.2 `max` acc) 0 cells
  ≤ foldr (λ p acc, depth p.2 `max` acc) 0 items.
Proof.
  induction 1 as [|c p cells items (_ & _ & _ & Hh) _ IH]; [done|]. simpl. lia.
Qed.

Lemma cells_all_done σ cells :
  Forall (λ c, ∃ w, c.2 = Done w) cells →
  cell_of <$> cells = (λ c, (c.1, eventual σ c.2, None)) <$> cells.
Proof.
  intros H. apply list_fmap_ext. intros i [k t] Hi. apply list_elem_of_lookup_2 in Hi.
  rewrite Forall_forall in H. destruct (H _ Hi) as [w Hw]. simpl in Hw. by subst t.
Qed.

Lemma build_step m : build_ok m → build_ok (S m).
Proof.
  intros IHm v h Hc Hdepth Hwk [Hnd Hfresh].
  set (self := length h). set (dict := is_dict v).
  set (h1 := h ++ [empty_node dict]).
  pose proof (depth_items v Hc) as Hdv.
  assert (1 ≤ m) as Hm by lia.
  assert (length h1 = S self) as Hlen1 by (unfold h1; rewrite length_app; simpl; lia).
  destruct (update_items m self dict IHm Hm (items_of v) [] h1)
    as (cells & h2 & Hloop & Hb & Hinv & Hlen & Hfr & Hndc & Hbound & Hfor).
  { apply building_empty. }
  { constructor. }
  { by apply items_keys_fine. }
  { apply Forall_forall. intros p Hp. split; [by eapply well_keyed_items|].
    pose proof (depth_item _ _ Hp). lia. }
  { by rewrite <- dleaves_items. }
  { intros a Ha. rewrite <- dleaves_items in Ha by done.
    destruct (Hfresh a Ha) as [Hlt (d & Hd & Hi)]. split; [done|]. exists d.
    split; [|done]. unfold h1. by apply lookup_app_l_Some. }
  { constructor. }
  { by intros y ?%elem_of_nil. }
  rewrite app_nil_l in Hb, Hinv, Hndc.
  pose proof Hb as [Hkeys (d & md & Hd & Hidle & Hmd & Hl & Hf & Hlog & Hv & Hs & Hp)].
  assert (self < length h2) as Hlt2 by (by eapply lookup_lt_Some).
  assert (∀ r, r < length h → r ∉ dleaves v → h2 !! r = h !! r) as Hframe.
  { intros r Hr Hnot. rewrite Hfr; [|lia|unfold self; lia|by rewrite <- dleaves_items].
    unfold h1. by rewrite lookup_app_l. }
  assert (∀ y, y ∈ mjoin ((λ c, refs c.2) <$> cells) →
          y ∈ dleaves v ∨ S self ≤ y < length h2) as Hrefs.
  { intros y Hy. destruct (Hbound y Hy) as [?|?]; [left; by rewrite dleaves_items|].
    right. lia. }
  assert (self ∉ mjoin ((λ c, refs c.2) <$> cells)) as Hself.
  { intros Hin. destruct (Hrefs _ Hin) as [Hleaf|?]; [|lia].
    destruct (Hfresh _ Hleaf). unfold self in *. lia. }
  set (m1 := set_locked true md).
  set (h3 := <[self := set_multi m1 d]> h2).
  assert (Forall (λ c, tinv h3 [hook_of self c.1] c.2) cells) as Hinv3.
  { rewrite Forall_forall in Hinv |- *. intros c Hin. eapply tinv_frame; [|by apply Hinv].
    intros y Hy. unfold h3. apply list_lookup_insert_ne. intros <-. apply Hself.
    apply elem_of_join_fmap. by exists c. }
  unfold multi_async. rewrite init_update by done. fold self dict h1. rewrite Hloop.
  cbn [mbind option_bind]. unfold lock. rewrite Hd. cbn [mbind option_bind].
  rewrite Hmd. cbn [mbind option_bind]. rewrite Hl. fold m1 h3.
  assert (_deferred m1 = pendings (cell_of <$> cells)) as Hp1 by done.
  rewrite Hp1. destruct (is_empty (pendings (cell_of <$> cells))) eqn:He.
  - (* nothing to wait for *)
    apply is_empty_nil in He. pose proof (pendings_nil_Done _ He) as Hdone.
    set (w := mkstream dict (cell_of <$> cells)).
    erewrite (finish_complete _ self h3 (set_multi m1 d) m1);
      [| by apply list_lookup_insert_eq | done | done | by rewrite Hp1 | done].
    unfold callback.
    rewrite (callback_plain (S m) self (_stream m1) h3 (set_multi m1 d) no_exc_info);
      [| by apply list_lookup_insert_eq | apply Hidle | apply Hidle | apply Hidle
       | | | ]; first last.
    { destruct Hidle as (_ & _ & _ & Hq). cbn [_callbacks set_multi]. rewrite Hq.
      simpl. lia. }
    { cbn [_stream m1 set_locked]. rewrite Hs. apply mkstream_not_async. }
    { destruct Hidle as (_ & _ & _ & Hq). cbn [_callbacks set_multi]. by rewrite Hq. }
    destruct Hidle as (_ & _ & _ & Hq). cbn [_callbacks set_multi _stream m1 set_locked].
    rewrite Hq, Hs, mkstream_lifted. cbn [propagate foldl mbind option_bind]. fold w.
    exists (Done w). eexists. split; [reflexivity|].
    split; [unfold h3; rewrite !length_insert; lia|]. split; [|split].
    + intros r Hr Hnot. unfold h3. rewrite !list_lookup_insert_ne by (unfold self; lia).
      by apply Hframe.
    + eexists. split; [apply list_lookup_insert_eq; unfold h3; by rewrite length_insert|].
      done.
    + split; [constructor|]. split; [by intros y ?%elem_of_nil|]. split; [|split].
      * intros y. rewrite dleaves_items by done. rewrite <- (cell_for_leaves _ _ Hfor).
        split; [by intros ?%elem_of_nil|]. intros (c & Hin & Hy)%elem_of_join_fmap.
        rewrite Forall_forall in Hdone. destruct (Hdone _ Hin) as [w' Hw'].
        rewrite Hw' in Hy. by apply elem_of_nil in Hy.
      * intros σ. cbn [eventual]. unfold w. rewrite resolve_items by done.
        rewrite (cells_all_done σ) by done. by rewrite (cell_for_final σ _ _ Hfor).
      * simpl. lia.
  - (* the multi-deferred waits *)
    exists (Sub self dict cells), h3. split; [reflexivity|].
    split; [unfold h3; rewrite length_insert; lia|]. split; [|split].
    + intros r Hr Hnot. unfold h3. rewrite list_lookup_insert_ne by (unfold self; lia).
      by apply Hframe.
    + split; [done|]. apply tinv_Sub. split; [|split; [|done]].
      * split; [done|]. eexists. split; [unfold h3; by apply list_lookup_insert_eq|].
        destruct Hidle as (? & ? & ? & ?). repeat split; try done.
        exists m1. repeat split; done.
      * intros E. by rewrite E in He.
    + split; [|split; [|split; [|split]]].
      * cbn [refs]. apply NoDup_cons. done.
      * intros y [->|Hy]%elem_of_cons.
        -- right. unfold h3. rewrite length_insert. unfold self. lia.
        -- destruct (Hrefs _ Hy) as [?|?]; [by left|right].
           unfold h3. rewrite length_insert. unfold self in *. lia.
      * intros y. cbn [leaves]. rewrite dleaves_items by done.
        apply cell_for_leaves. done.
      * intros σ. cbn [eventual]. rewrite resolve_items by done.
        by rewrite (cell_for_final σ _ _ Hfor).
      * cbn [height]. rewrite Hdv. pose proof (cell_for_height _ _ Hfor). lia.
Qed.

Lemma build_all m : build_ok m.
Proof.
  induction m as [|m IH]; [|by apply build_step].
  intros v h Hc Hd. rewrite depth_items in Hd by done. lia.
Qed.

(** ** Calling the deferreds back *)

Lemma sublist_join {A} (ls ks : list (list A)) :
  Forall2 sublist ls ks → mjoin ls `sublist_of` mjoin ks.
Proof. induction 1; [done|]. simpl. by apply sublist_app. Qed.

Lemma refs_fire a v t : refs (fire a v t) `sublist_of` refs t.
Proof.
  induction t as [w|b|r dict cells IH] using ptree_nested_ind.
  - done.
  - simpl. case_decide; [apply sublist_nil_l|done].
  - cbn [fire]. destruct (is_empty _); [apply sublist_nil_l|]. cbn [refs].
    apply sublist_skip, sublist_join. rewrite <- list_fmap_compose.
    apply Forall2_fmap, Forall_Forall2_diag. eapply Forall_impl; [exact IH|]. done.
Qed.

Lemma height_fire a v t : height (fire a v t) ≤ height t.
Proof.
  induction t as [w|b|r dict cells IH] using ptree_nested_ind.
  - done.
  - simpl. by case_decide.
  - cbn [fire]. destruct (is_empty _); [simpl; lia|]. cbn [height].
    apply le_n_S. induction IH as [|c cells Hc _ IHc]; [done|].
    rewrite fmap_cons. cbn [foldr snd]. lia.
Qed.

Lemma pendings_some cells :
  pendings (cell_of <$> cells) ≠ [] → ∃ c, c ∈ cells ∧ pend c.2 ≠ None.
Proof.
  induction cells as [|c cells IH]; [done|]. rewrite fmap_cons, pendings_cons.
  destruct (pend c.2) eqn:Hp.
  - intros _. exists c. split; [by left|]. by rewrite Hp.
  - unfold cell_of at 1. unfold cell_pending. simpl. rewrite Hp.
    intros (c' & ? & ?)%IH. exists c'. split; [by right|done].
Qed.

(** A tree that waits has a leaf. *)
Lemma tinv_has_leaf t : ∀ h hook, tinv h hook t → pend t ≠ None → ∃ a, a ∈ leaves t.
Proof.
  induction t as [w|b|r dict cells IH] using ptree_nested_ind; intros h hook Hinv Hp.
  - done.
  - exists b. simpl. by left.
  - apply tinv_Sub in Hinv as (_ & Hpe & Hc).
    destruct (pendings_some _ Hpe) as (c & Hin & Hpc).
    rewrite Forall_forall in IH, Hc.
    destruct (IH c Hin h _ (Hc c Hin) Hpc) as [a Ha].
    exists a. simpl. apply elem_of_join_fmap. by exists c.
Qed.

(** The multi-deferred at [root] holds the tree: it was called with the
    value of the tree, or waits. *)
Definition state (h : heap) (root : ref) (t : ptree) : Prop :=
  match t with
  | Done w => ∃ d, h !! root = Some d ∧ _called d = true ∧ result d = Some w
  | Wait _ => False
  | Sub r _ _ => r = root ∧ tinv h [] t
  end.

Lemma built_state h root t : built h root t → state h root t.
Proof. destruct t; simpl; [|done..]. intros (d & ? & ? & ? & ?). by exists d. Qed.

Lemma fire_state n h root t a v :
  state h root t → NoDup (refs t) → a ∈ leaves t → is_async v = false →
  height t + 2 ≤ n →
  ∃ h', callback (fuel n) a v h = Some (Ok (as_failure no_exc_info v), h')
        ∧ state h' root (fire a (as_failure no_exc_info v) t).
Proof.
  intros Hst Hnd Ha Hv Hn. destruct t as [w|b|r dict cells].
  - by apply elem_of_nil in Ha.
  - done.
  - destruct Hst as [-> Hinv].
    destruct (fire_leaf (Sub root dict cells) h [] [] a v n)
      as (h' & Hcb & _ & _ & Hafter);
      [done|by rewrite app_nil_r|done..|cbn [length]; lia|].
    exists h'. split; [done|]. cbn [fire] in Hafter |- *.
    destruct (is_empty _); cbn [after_fire state] in Hafter |- *.
    + destruct Hafter as [(r & d & Hr & Hd) _]. simpl in Hr. injection Hr as <-.
      by exists d.
    + by destruct Hafter.
Qed.

(** The deferreds of [order] are called back in turn, [a] with [σ a]. *)
Fixpoint fire_all (K : knot) (σ : ref → value) (order : list ref) (h : heap)
    : option heap :=
  match order with
  | [] => Some h
  | a :: rest =>
      '(r, h1) ← callback K a (σ a) h;
      match r with
      | Ok _ => fire_all K σ rest h1
      | Err _ => None
      end
  end.

(** What a deferred holds once it was called back with [σ a]. *)
Definition settled (σ : ref → value) (a : ref) : value := as_failure no_exc_info (σ a).

Lemma fire_order n σ root : ∀ order t h,
  state h root t → NoDup (refs t) → NoDup order →
  (∀ a, a ∈ order → a ∈ leaves t) →
  (∀ a, a ∈ order → is_async (σ a) = false) →
  height t + 2 ≤ n →
  ∃ h' t', fire_all (fuel n) σ order h = Some h'
           ∧ state h' root t'
           ∧ (∀ b, b ∈ leaves t' ↔ b ∈ leaves t ∧ b ∉ order)
           ∧ eventual (settled σ) t' = eventual (settled σ) t.
Proof.
  induction order as [|a order IH]; intros t h Hst Hnd Hord Hin Hv Hn.
  - exists h, t. split; [done|]. split; [done|]. split; [|done].
    intros b. split; [|by intros [? _]]. intros Hb. split; [done|]. by intros ?%elem_of_nil.
  - apply NoDup_cons in Hord as [Ha Hord].
    destruct (fire_state n h root t a (σ a)) as (h1 & Hcb & Hst1);
      [done|done|apply Hin; by left|apply Hv; by left|done|].
    fold (settled σ a) in Hcb, Hst1.
    destruct (IH (fire a (settled σ a) t) h1) as (h' & t' & Hall & Hst' & Hleaves & Hfinal).
    { done. }
    { eapply sublist_NoDup; [exact Hnd|apply refs_fire]. }
    { done. }
    { intros b Hb. apply elem_of_leaves_fire. split; [apply Hin; by right|].
      by intros ->. }
    { intros b Hb. apply Hv. by right. }
    { pose proof (height_fire a (settled σ a) t). lia. }
    exists h', t'. cbn [fire_all]. rewrite Hcb. cbn [mbind option_bind].
    split; [done|]. split; [done|]. split.
    + intros b. rewrite Hleaves, elem_of_leaves_fire, not_elem_of_cons. tauto.
    + by rewrite Hfinal, final_fire.
Qed.

(** C6. [multi_async(C)], that is [MultiDeferred(C).lock()], on a list or
    dictionary [C] whose entries are values, deferreds that were not called
    (distinct, with nothing registered on them yet) and nested lists and
    dictionaries: it returns the multi-deferred allocated at the end of the
    heap.  The deferreds of [C] are then called back one after the other in
    any order, [a] with [σ a]; [fired] are those called so far and [rest]
    those still to be called.  The multi-deferred is called exactly when
    [rest] is empty, and then its result is [C] with every deferred [a]
    replaced by what [a] holds, [settled σ a], every nested collection by
    its own resolved collection, and every other entry as [maybe_async]
    leaves it (an exception instance becomes a failure, every other value
    is kept). *)
Theorem multi_deferred_completeness C h0 σ fired rest n :
  is_container C = true →
  well_keyed C = true →
  NoDup (dleaves C) →
  (∀ a, a ∈ dleaves C → ∃ d, h0 !! a = Some d ∧ idle [] d) →
  (∀ a, a ∈ dleaves C → is_async (σ a) = false) →
  fired ++ rest ≡ₚ dleaves C →
  depth C + 2 ≤ n →
  ∃ h1 h2 d,
    multi_async (fuel n) C h0 = Some (Ok (length h0), h1)
    ∧ fire_all (fuel n) σ fired h1 = Some h2
    ∧ h2 !! length h0 = Some d
    ∧ _called d = is_empty rest
    ∧ (rest = [] → result d = Some (resolve (settled σ) C)).
Proof.
  intros Hc Hwk Hnd Hidle Hσ Hperm Hn.
  destruct (build_all n C h0) as (t & h1 & Hma & Hlen & Hfr & Hbuilt & Htree);
    [done|lia|done| |].
  { split; [done|]. intros a Ha. destruct (Hidle a Ha) as (d & Hd & Hi).
    split; [by eapply lookup_lt_Some|by exists d]. }
  destruct Htree as (Hndt & _ & Hleaves & Hfinal & Hheight).
  assert (NoDup (fired ++ rest)) as Hndo by (by rewrite Hperm).
  apply NoDup_app in Hndo as (Hndf & Hdisj & _).
  destruct (fire_order n σ (length h0) fired t h1)
    as (h2 & t' & Hall & Hst & Hleaves' & Hfinal'); [by apply built_state|done..| | |lia|].
  { intros a Ha. apply Hleaves. rewrite <- Hperm. apply elem_of_app. by left. }
  { intros a Ha. apply Hσ. rewrite <- Hperm. apply elem_of_app. by left. }
  exists h1, h2. destruct rest as [|b rest].
  - assert (∀ a, a ∉ leaves t') as Hnone.
    { intros a [Ha Hnot]%Hleaves'. apply Hnot. apply Hleaves in Ha.
      rewrite <- Hperm, app_nil_r in Ha. done. }
    destruct t' as [w|a|r dict cells].
    + destruct Hst as (d & Hd & Hcalled & Hres). exists d.
      split; [done|]. split; [done|]. split; [done|]. split; [done|]. intros _.
      rewrite Hres. f_equal. rewrite <- Hfinal. by rewrite <- Hfinal'.
    + done.
    + destruct Hst as [-> Hinv]. destruct (tinv_has_leaf _ _ _ Hinv) as [a Ha]; [done|].
      by apply Hnone in Ha.
  - assert (b ∈ leaves t') as Hb.
    { apply Hleaves'. split.
      - apply Hleaves. rewrite <- Hperm. apply elem_of_app. right. by left.
      - intros Hin. apply (Hdisj _ Hin). by left. }
    destruct t' as [w|a|r dict cells].
    + by apply elem_of_nil in Hb.
    + done.
    + destruct Hst as [-> Hinv]. apply tinv_Sub in Hinv as ([_ (d & Hd & Hw)] & _).
      exists d. split; [done|]. split; [done|]. split; [done|]. split; [|done].
      by destruct Hw as (-> & _).
Qed.

(** [{"x": 1, "y": a, "z": [10, 20]}], [a] the deferred at reference [0]. *)
Definition one_async_child : value :=
  VDict [(KStr "x", VInt 1); (KStr "y", VDeferred 0);
         (KStr "z", VList [VInt 10; VInt 20])].

Lemma multi_deferred_completeness_witness :
  ∃ h1 h2 d,
    multi_async (fuel 4) one_async_child [new_deferred] = Some (Ok 1, h1)
    ∧ fire_all (fuel 4) (λ _, VInt 9) [0] h1 = Some h2
    ∧ h2 !! 1 = Some d
    ∧ _called d = true
    ∧ (@nil ref = [] →
       result d = Some (VDict [(KStr "x", VInt 1); (KStr "y", VInt 9);
                               (KStr "z", VList [VInt 10; VInt 20])])).
Proof.
  apply (multi_deferred_completeness one_async_child [new_deferred] (λ _, VInt 9)
           [0] [] 4).
  - reflexivity.
  - reflexivity.
  - apply NoDup_singleton.
  - intros a ->%list_elem_of_singleton. by exists new_deferred.
  - reflexivity.
  - reflexivity.
  - vm_compute. lia.
Defined.

(** The scenario of the specification: [m] is not called before
    [a.callback(9)], and holds the resolved dictionary after it. *)
Definition one_async_child_scenario : option (option bool * option value) :=
  '(r, h1) ← multi_async (fuel 4) one_async_child [new_deferred];
  match r with
  | Ok m =>
      '(_, h2) ← callback (fuel 4) 0 (VInt 9) h1;
      Some (_called <$> h1 !! m, h2 !! m ≫= result)
  | Err _ => None
  end.

Lemma one_async_child_settles :
  one_async_child_scenario
  = Some (Some false,
          Some (VDict [(KStr "x", VInt 1); (KStr "y", VInt 9);
                       (KStr "z", VList [VInt 10; VInt 20])])).
Proof. vm_compute. reflexivity. Qed.

End MultiTheory.

(** * Properties of connections and producers *)

Module ProtocolsTheory.
Import Defer Protocols.

(** ** The connection cap *)

(** [k] calls of [new_connection] in a row: what each call gave, and the
    producer at the end. *)
Fixpoint connect (k : nat) (address : string) (consumer_factory : consumer_class)
    (p : Producer) : list (res Connection) * Producer :=
  match k with
  | 0 => ([], p)
  | S k' =>
      let '(r, p1) := new_connection address consumer_factory None p in
      let '(rs, p2) := connect k' address consumer_factory p1 in
      (r :: rs, p2)
  end.

Lemma new_connection_below_cap address cf producer p :
  (_max_connections p = 0 ∨ _received p < _max_connections p)%Z →
  ∃ conn,
    new_connection address cf producer p = (Ok conn, set_received (_received p + 1) p)
    ∧ _session conn = (_received p + 1)%Z.
Proof.
  intros H. unfold new_connection.
  assert (negb (_max_connections p =? 0)%Z
          && (_max_connections p <=? _received p)%Z = false) as ->.
  { destruct H as [->|H]; [done|]. apply andb_false_iff. right. lia. }
  eexists. split; [reflexivity|done].
Qed.

Lemma new_connection_at_cap address cf producer p :
  (0 < _max_connections p ≤ _received p)%Z →
  new_connection address cf producer p = (Err (RuntimeError "Too many connections"), p).
Proof.
  intros H. unfold new_connection.
  assert (negb (_max_connections p =? 0)%Z
          && (_max_connections p <=? _received p)%Z = true) as ->; [|done].
  apply andb_true_iff. split; [apply negb_true_iff|]; lia.
Qed.

Lemma connect_below_cap k : ∀ address cf p,
  (_received p + Z.of_nat k ≤ _max_connections p)%Z →
  ∃ conns,
    connect k address cf p =
      (Ok <$> conns, set_received (_received p + Z.of_nat k) p)
    ∧ _session <$> conns = (λ i, _received p + Z.of_nat (S i))%Z <$> seq 0 k.
Proof.
  induction k as [|k IH]; intros address cf p Hk.
  - exists []. split; [|done]. simpl. rewrite Z.add_0_r. by destruct p.
  - destruct (new_connection_below_cap address cf None p) as (conn & Hn & Hs); [lia|].
    destruct (IH address cf (set_received (_received p + 1) p)) as (conns & Hc & Hss).
    { simpl. lia. }
    exists (conn :: conns). cbn [connect]. rewrite Hn, Hc. split.
    + simpl. f_equal. unfold set_received. simpl. f_equal. lia.
    + cbn [fmap list_fmap seq]. rewrite Hs. f_equal.
      change (list_fmap _ _ _ conns) with (_session <$> conns). rewrite Hss.
      rewrite <- (fmap_S_seq 0), <- list_fmap_compose.
      apply list_fmap_ext. intros _ i _. simpl. lia.
Qed.

(** C7.  With [max_connections = M > 0], each call of [new_connection] that
    finds [received] below [M] adds one to [received] and gives the new value
    as session to the connection; a call that finds [received] at [M] raises
    [RuntimeError('Too many connections')] (the spec's TooManyConnections) and
    leaves the producer as it was, without a connection; so of [M + 1] calls
    on a new producer the first [M] give sessions [1..M] and the last
    fails, with [received = M]. *)
Theorem connection_cap (M : Z) address cf :
  (0 < M)%Z →
  (∀ producer p,
     _max_connections p = M → (_received p < M)%Z →
     ∃ conn,
       new_connection address cf producer p
         = (Ok conn, set_received (_received p + 1) p)
       ∧ _session conn = (_received p + 1)%Z)
  ∧ (∀ producer p,
       _max_connections p = M → (M ≤ _received p)%Z →
       new_connection address cf producer p
         = (Err (RuntimeError "Too many connections"), p))
  ∧ (∀ id timeout,
       ∃ conns,
         connect (Z.to_nat M + 1) address cf (Producer_init id M timeout)
           = ((Ok <$> conns) ++ [Err (RuntimeError "Too many connections")],
              set_received M (Producer_init id M timeout))
         ∧ _session <$> conns = (λ i, Z.of_nat (S i)) <$> seq 0 (Z.to_nat M)).
Proof.
  intros HM. split; [|split].
  - intros producer p Hmax Hr. apply new_connection_below_cap. lia.
  - intros producer p Hmax Hr. apply new_connection_at_cap. lia.
  - intros id timeout.
    destruct (connect_below_cap (Z.to_nat M) address cf (Producer_init id M timeout))
      as (conns & Hc & Hs); [simpl; lia|].
    exists conns. split.
    + assert (∀ k k' p, connect (k + k') address cf p =
                let '(rs, p1) := connect k address cf p in
                let '(rs', p2) := connect k' address cf p1 in (rs ++ rs', p2)) as Happ.
      { induction k as [|k IH]; intros k' p.
        - simpl. by destruct (connect k' address cf p).
        - cbn [Nat.add connect]. destruct (new_connection address cf None p) as [r p1].
          rewrite IH. destruct (connect k address cf p1) as [rs p2].
          by destruct (connect k' address cf p2). }
      rewrite Happ, Hc. cbn [connect].
      rewrite new_connection_at_cap by (simpl; lia).
      f_equal. unfold set_received. simpl. f_equal. lia.
    + rewrite Hs. apply list_fmap_ext. intros _ i _. simpl. lia.
Qed.

(** A class of consumers that consume nothing and never finish. *)
Definition idle_consumer : consumer_class := λ _ data, Returns None (Some data).

Lemma connection_cap_witness :
  ∃ conns,
    connect (Z.to_nat 1 + 1) "peer" idle_consumer (Producer_init 0 1 0)
      = ((Ok <$> conns) ++ [Err (RuntimeError "Too many connections")],
         set_received 1 (Producer_init 0 1 0))
    ∧ _session <$> conns = (λ i, Z.of_nat (S i)) <$> seq 0 (Z.to_nat 1).
Proof.
  destruct (connection_cap 1 "peer" idle_consumer) as (_ & _ & H); [reflexivity|].
  apply H.
Defined.

(** ** Leftover bytes from a consumer that is still current *)

(** The passes of the [while data] loop that end without an error:
    [passes k data w data' w'] when [k] passes take the data and the world
    from [data] and [w] to [data'] and [w'].  A pass feeds the current
    consumer, or a new one from the factory, and ends well when the consumer
    returns nothing or is no longer current. *)
Inductive passes : nat → option bytes → world → option bytes → world → Prop :=
| passes_none data w : passes 0 data w data w
| passes_one k data w b c w1 data1 w2 data' w' :
    has_data data = Some b →
    current_or_new w = Some (Ok c, w1) →
    _data_received c b w1 = Some (Ok data1, w2) →
    has_data data1 = None ∨ _current_consumer (connection w2) = None →
    passes k data1 w2 data' w' →
    passes (S k) data w data' w'.

Lemma data_loop_passes k data w data' w' :
  passes k data w data' w' →
  ∀ n, data_loop (k + n) data w = data_loop n data' w'.
Proof.
  induction 1 as [|k data w b c w1 data1 w2 data' w' Hdata Hcons Hfeed Hok _ IH];
    intros n; [done|].
  cbn [Nat.add data_loop]. rewrite Hdata, Hcons. cbn [mbind option_bind].
  rewrite Hfeed. cbn [mbind option_bind].
  assert (bool_decide (is_Some (has_data data1))
          && bool_decide (is_Some (_current_consumer (connection w2))) = false) as ->.
  { destruct Hok as [->| ->].
    - rewrite bool_decide_eq_false_2; [done|]. by intros [? ?].
    - rewrite (bool_decide_eq_false_2 (is_Some None)) by (by intros [? ?]).
      apply andb_false_r. }
  apply IH.
Qed.

(** C9.  In [Connection.data_received], at whatever pass of the loop, when
    the consumer of the pass (the current one, or the one the factory just
    made) returns bytes it did not consume and is still the current consumer
    of the connection, [ProtocolError] is raised. *)
Theorem leftover_from_current_consumer k n data w data' w' b c w1 leftover w2 :
  passes k data (_cancel_timeout w) data' w' →
  has_data data' = Some b →
  current_or_new w' = Some (Ok c, w1) →
  _data_received c b w1 = Some (Ok leftover, w2) →
  is_Some (has_data leftover) →
  _current_consumer (connection w2) = Some c →
  k < n →
  data_received n data w = Some (Err ProtocolError, w2).
Proof.
  intros Hpasses Hdata Hcons Hfeed Hleft Hcur Hn.
  replace n with (k + S (n - S k)) by lia.
  unfold data_received. rewrite (data_loop_passes _ _ _ _ _ Hpasses).
  cbn [data_loop]. rewrite Hdata, Hcons.
  cbn [mbind option_bind]. rewrite Hfeed. cbn [mbind option_bind].
  rewrite Hcur. rewrite !bool_decide_eq_true_2 by done. done.
Qed.

(** A class of consumers that finish on two bytes or more, handing back
    all but the first, and consume nothing of a single byte. *)
Definition one_byte_consumer : consumer_class :=
  λ _ data,
    match data with
    | _ :: (_ :: _) as rest => Returns (Some NOTHING) (Some rest)
    | _ => Returns None (Some data)
    end.

(** A connection that was just made, with the factory of these consumers. *)
Definition fresh_world : world :=
  {| connection := Connection_init "peer" 1 0 one_byte_consumer 0;
     consumers := []; armed := []; handles := 0; notices := [] |}.

(** The world a call leaves; the worlds the two passes go through. *)
Definition world_after {A} (r : option (A * world)) : world :=
  from_option snd fresh_world r.

Definition pass1_made : world :=
  world_after (current_or_new (_cancel_timeout fresh_world)).
Definition pass1_fed : world := world_after (_data_received 0 [x00; x01] pass1_made).
Definition pass2_made : world := world_after (current_or_new pass1_fed).
Definition pass2_fed : world := world_after (_data_received 1 [x01] pass2_made).

(** The first consumer finishes and hands back a byte; the second, made
    for that byte, hands it back while still current. *)
Lemma leftover_from_current_consumer_witness :
  data_received 2 (Some [x00; x01]) fresh_world = Some (Err ProtocolError, pass2_fed)
  ∧ _current_consumer (connection pass2_fed) = Some 1
  ∧ length (consumers pass2_fed) = 2.
Proof.
  split; [|split; vm_compute; reflexivity].
  apply (leftover_from_current_consumer 1 2 (Some [x00; x01]) fresh_world
           (Some [x01]) pass1_fed [x01] 1 pass2_made (Some [x01]) pass2_fed).
  - apply (passes_one 0 (Some [x00; x01]) (_cancel_timeout fresh_world) [x00; x01] 0
             pass1_made (Some [x01]) pass1_fed (Some [x01]) pass1_fed).
    + reflexivity.
    + vm_compute; reflexivity.
    + vm_compute; reflexivity.
    + right. vm_compute; reflexivity.
    + apply passes_none.
  - reflexivity.
  - vm_compute; reflexivity.
  - vm_compute; reflexivity.
  - exists [x01]. reflexivity.
  - vm_compute; reflexivity.
  - apply le_n.
Defined.

End ProtocolsTheory.

(** * Properties of the generator driver *)

Module GeneratorTheory.
Import Defer DeferTheory Generator.

(** The deferred of the driver is ready to be settled. *)
Record ready (w : world) (d : deferred) : Prop := {
  ready_lookup : objects w !! self (driver w) = Some d;
  ready_called : _called d = false;
  ready_running : _runningCallbacks d = false;
  ready_paused : paused d = 0%Z;
  ready_plain : plain_pairs (_callbacks d)
}.

(** The world after the driver concluded with [r]. *)
Definition concluded (r : value) (d : deferred) (w : world) : world :=
  set_objects
    (<[self (driver w) := drained (propagate (_callbacks d) (as_failure no_exc_info r)) []
                            (set_called true d)]> (objects w))
    (set_driver (set_errors None (set_gen None (driver w))) w).

Lemma conclude_ready n last w d errs :
  ready w d →
  errors (driver w) = Some errs →
  is_async last = false →
  length (_callbacks d) + 1 ≤ n →
  let r := if is_empty errs then last else VFailure errs in
  conclude (fuel n) last w =
  Some (Ok (propagate (_callbacks d) (as_failure no_exc_info r)), concluded r d w).
Proof.
  intros [Hd Hc Hr Hp Hq] He Hl Hn r. unfold conclude. rewrite He.
  cbn [mbind option_bind]. fold r. unfold callback.
  erewrite callback_plain; [done| exact Hd | done..| | done].
  unfold r. by destruct (is_empty errs).
Qed.

Lemma ready_frame w d s :
  ready w d → self s = self (driver w) → ready (set_driver s w) d.
Proof. intros [] Hs. split; try done. simpl. by rewrite Hs. Qed.

Lemma set_errors_same s errs : errors s = Some errs → set_errors (Some errs) s = s.
Proof. destruct s. simpl. by intros ->. Qed.

Lemma stop_test_true k (l : list exc_info) :
  (0 < k)%Z → (k ≤ Z.of_nat (length l))%Z →
  negb (k =? 0)%Z && (k <=? Z.of_nat (length l))%Z = true.
Proof.
  intros. apply andb_true_iff. split; [apply negb_true_iff, Z.eqb_neq|apply Z.leb_le]; lia.
Qed.

(** The errors after a last result was handed over. *)
Definition absorbed (errs : list exc_info) (last : value) : list exc_info :=
  if is_failure last then Failure_append no_exc_info errs last else errs.

Lemma begin_unlimited last w errs :
  max_errors (driver w) = 0%Z →
  errors (driver w) = Some errs →
  begin_consume last w =
  Some (false, set_driver (set_errors (Some (absorbed errs last))
                             (set_start (clock w) (driver w))) w).
Proof.
  intros Hmax He. unfold begin_consume, should_stop, absorbed.
  destruct (is_failure last).
  - cbn [driver set_driver errors set_start]. rewrite He. cbn [mbind option_bind].
    cbn [max_errors set_errors set_start]. by rewrite Hmax.
  - do 3 f_equal. symmetry. by apply set_errors_same.
Qed.

Lemma begin_stops f w errs :
  errors (driver w) = Some errs →
  (0 < max_errors (driver w))%Z →
  (max_errors (driver w) ≤ Z.of_nat (length (absorbed errs (VFailure f))))%Z →
  begin_consume (VFailure f) w =
  Some (true, set_driver (set_errors (Some (absorbed errs (VFailure f)))
                            (set_start (clock w) (driver w))) w).
Proof.
  intros He Hk Hmax. unfold begin_consume, should_stop, absorbed in *.
  cbn [is_failure driver set_driver errors set_start] in *. rewrite He.
  cbn [mbind option_bind max_errors set_errors set_start].
  by rewrite stop_test_true.
Qed.

(** Stopping on a failure that was handed to [_consume]. *)
Lemma consume_stops_on_failure n items w d errs f :
  ready w d →
  errors (driver w) = Some errs →
  (0 < max_errors (driver w))%Z →
  (max_errors (driver w)
   ≤ Z.of_nat (length (Failure_append no_exc_info errs (VFailure f))))%Z →
  length (_callbacks d) + 1 ≤ n →
  let all := Failure_append no_exc_info errs (VFailure f) in
  ∃ w',
    consume_from (fuel n) items (VFailure f) w =
      Some (Ok (propagate (_callbacks d) (VFailure all)), w')
    ∧ objects w' !! self (driver w) =
      Some (drained (propagate (_callbacks d) (VFailure all)) [] (set_called true d))
    ∧ gen (driver w') = None ∧ loop w' = loop w.
Proof.
  intros Hready He Hk Hmax Hn all. fold all in Hmax.
  set (w1 := set_driver (set_errors (Some all) (set_start (clock w) (driver w))) w).
  assert (ready w1 d) as Hready1 by (by apply ready_frame).
  assert (all ≠ []) as Hall by (intros E; rewrite E in Hmax; simpl in Hmax; lia).
  exists (concluded (VFailure all) d w1).
  assert (consume_from (fuel n) items (VFailure f) w = conclude (fuel n) VNone w1) as ->.
  { destruct items as [|[]]; cbn [consume_from];
      by rewrite (begin_stops f w errs He Hk Hmax). }
  erewrite conclude_ready; [| exact Hready1 | done | done | done].
  destruct all as [|a all']; [done|]. cbn [is_empty as_failure].
  split; [done|]. split; [|done].
  destruct Hready as [Hd _ _ _ _]. simpl.
  apply list_lookup_insert_eq. by eapply lookup_lt_Some.
Qed.

(** Stopping on an exception raised by the generator. *)
Lemma consume_stops_on_exception n rest w d errs last e tb :
  ready w d →
  errors (driver w) = Some errs →
  is_failure last = false →
  (0 < max_errors (driver w))%Z →
  (max_errors (driver w) ≤ Z.of_nat (length errs) + 1)%Z →
  length (_callbacks d) + 1 ≤ n →
  let all := errs ++ [handling e tb] in
  ∃ w',
    consume_from (fuel n) (GenRaise e tb :: rest) last w =
      Some (Ok (propagate (_callbacks d) (VFailure all)), w')
    ∧ objects w' !! self (driver w) =
      Some (drained (propagate (_callbacks d) (VFailure all)) [] (set_called true d))
    ∧ gen (driver w') = None ∧ loop w' = loop w.
Proof.
  intros Hready He Hl Hk Hmax Hn all.
  set (w1 := set_driver (set_errors (Some all)
                (set_gen (Some []) (set_start (clock w) (driver w)))) w).
  assert (ready w1 d) as Hready1 by (by apply ready_frame).
  exists (concluded (VFailure all) d w1).
  assert (consume_from (fuel n) (GenRaise e tb :: rest) last w
          = conclude (fuel n) VNone w1) as ->.
  { cbn [consume_from]. unfold begin_consume. rewrite Hl. cbn [mbind option_bind fst snd].
    unfold should_stop. cbn [driver set_driver errors set_start set_gen]. rewrite He.
    cbn [mbind option_bind fst snd Failure_append truthy]. fold all.
    cbn [max_errors set_errors set_start set_gen].
    rewrite stop_test_true; [done|done|].
    unfold all; rewrite ?length_app; simpl; lia. }
  erewrite conclude_ready; [| exact Hready1 | done | done | done].
  assert (is_empty all = false) as -> by (unfold all; by destruct errs).
  cbn [as_failure].
  split; [done|]. split; [|done].
  destruct Hready as [Hd _ _ _ _]. simpl.
  apply list_lookup_insert_eq. by eapply lookup_lt_Some.
Qed.

(** An item that needs no waiting: a raise, or a yield of anything but a
    deferred. *)
Definition sync (i : item) : Prop :=
  match i with
  | Yield v => is_async v = false
  | GenRaise _ _ => True
  end.

(** What the driver settles with when no threshold stops it, in the words of
    the specification: a failure handed over is added to the errors; a raise
    is added and ends the generator; [NOT_DONE] and [CLEAR_ERRORS] leave no
    last result, and [CLEAR_ERRORS] discards the errors; at the end the errors
    are the result when there are any, the last result otherwise. *)
Fixpoint final (items : list item) (errs : list exc_info) (last : value) : value :=
  let errs := absorbed errs last in
  match items with
  | [] => if is_empty errs then last else VFailure errs
  | GenRaise e tb :: _ => VFailure (errs ++ [handling e tb])
  | Yield v :: rest =>
      match as_failure no_exc_info v with
      | VSentinel NOT_DONE => final rest errs VNone
      | VSentinel CLEAR_ERRORS => final rest [] VNone
      | r => final rest errs r
      end
  end.

Lemma run_loop_idle K times w : loop w = [] → run_loop K times w = Some (Ok VNone, w).
Proof. intros H. destruct times; [done|]. simpl. by rewrite H. Qed.

Lemma consume_runs_to_end items : ∀ n w d errs last times,
  Forall sync items →
  max_errors (driver w) = 0%Z →
  ready w d →
  errors (driver w) = Some errs →
  loop w = [] →
  is_async last = false → lifted last →
  length items ≤ length times →
  length (_callbacks d) + 1 ≤ n →
  ∃ r w1 r' w2,
    consume_from (fuel n) items last w = Some (Ok r, w1)
    ∧ run_loop (fuel n) times w1 = Some (Ok r', w2)
    ∧ objects w2 !! self (driver w) =
      Some (drained (propagate (_callbacks d) (final items errs last)) []
              (set_called true d))
    ∧ gen (driver w2) = None ∧ loop w2 = [].
Proof.
  induction items as [|i items IH];
    intros n w d errs last times Hsync Hmax Hready He Hloop Hal Hll Htimes Hn;
    set (errs1 := absorbed errs last);
    set (w0 := set_driver (set_errors (Some errs1) (set_start (clock w) (driver w))) w);
    cbn [consume_from]; rewrite (begin_unlimited last w errs Hmax He);
    cbn [mbind option_bind fst snd]; fold errs1; fold w0;
    assert (ready w0 d) as Hready0 by (by apply ready_frame).
  - (* StopIteration *)
    set (w1 := set_driver (set_gen (Some []) (driver w0)) w0).
    assert (ready w1 d) as Hready1 by (by apply ready_frame).
    eexists _, _, _, _.
    erewrite conclude_ready; [| exact Hready1 | done | done | done].
    split; [done|]. split; [by apply run_loop_idle|].
    split; [|done]. cbn [final]. fold errs1.
    destruct Hready as [Hd _ _ _ _]. simpl.
    rewrite list_lookup_insert_eq by (by eapply lookup_lt_Some).
 do 3 f_equal. destruct (is_empty errs1); [apply Hll|done].
  - apply Forall_cons in Hsync as [Hi Hsync].
    destruct i as [v|e tb].
    + (* a yield *)
      simpl in Hi.
      set (w1 := set_driver (set_gen (Some items) (driver w0)) w0).
      assert (ready w1 d) as Hready1 by (by apply ready_frame).
      rewrite maybe_async_plain by done. cbn [mbind option_bind].
      assert (is_async (as_failure no_exc_info v) = false) as Hr
        by (by apply as_failure_not_async).
      assert (lifted (as_failure no_exc_info v)) as Hlr by apply as_failure_lifted.
      rewrite Hr. cbn [final]. fold errs1.
      assert (∀ r, is_async r = false → lifted r →
                ∃ r0 w2 r' w3,
                  consume_from (fuel n) items r w1 = Some (Ok r0, w2)
                  ∧ run_loop (fuel n) times w2 = Some (Ok r', w3)
                  ∧ objects w3 !! self (driver w) =
                    Some (drained (propagate (_callbacks d) (final items errs1 r)) []
                            (set_called true d))
                  ∧ gen (driver w3) = None ∧ loop w3 = []) as Hgo.
      { intros r Har Hlr'. apply (IH n w1 d errs1 r times); try done. simpl in *. lia. }
      destruct (as_failure no_exc_info v) as [| | | | | | | |[]] eqn:Hv;
        try (by apply Hgo).
      * (* NOT_DONE *)
        destruct times as [|t times]; [simpl in Htimes; lia|].
        set (w2 := set_clock t (set_loop [] (call_soon_threadsafe consume_task w1))).
        assert (ready w2 d) as Hready2 by (by destruct Hready1).
        destruct (IH n w2 d errs1 VNone times) as (r0 & w3 & r' & w4 & Hc & Hl & Hpost);
          try done; [simpl in *; lia|].
        eexists _, _, r', w4. split; [done|]. split; [|done].
        cbn [run_loop]. unfold call_soon_threadsafe at 1. cbn [loop set_loop].
        change (loop w1) with (loop w). rewrite Hloop. cbn [app is_empty]. unfold loop_turn.
        unfold call_soon_threadsafe at 1. cbn [loop set_loop].
        change (loop w1) with (loop w). rewrite Hloop. cbn [app]. fold w2. unfold _consume.
        cbn [mbind option_bind]. change (gen (driver w2)) with (Some items).
        cbn [mbind option_bind]. rewrite Hc. done.
      * (* CLEAR_ERRORS *)
        change (errors (driver w1)) with (Some errs1). cbn [mbind option_bind].
        set (w2 := set_driver (set_errors (Some []) (driver w1)) w1).
        assert (ready w2 d) as Hready2 by (by apply ready_frame).
        apply (IH n w2 d [] VNone times); try done. simpl in *. lia.
    + (* the generator raises *)
      set (w1 := set_driver (set_gen (Some []) (driver w0)) w0).
      unfold should_stop. change (errors (driver w1)) with (Some errs1).
      cbn [mbind option_bind fst snd Failure_append truthy].
      change (max_errors (set_errors _ (driver w1))) with (max_errors (driver w)).
      rewrite Hmax. cbn [Z.eqb negb andb].
      set (w2 := set_driver (set_start _ _) _).
      assert (ready w2 d) as Hready2 by (by destruct Hready).
      eexists _, _, _, _.
      erewrite (conclude_ready n VNone w2 d (errs1 ++ [handling e tb]));
        [| done | done | done | done].
      split; [done|]. split; [by apply run_loop_idle|].
      split; [|done]. cbn [final]. fold errs1.
      destruct Hready as [Hd _ _ _ _]. simpl.
      rewrite list_lookup_insert_eq by (by eapply lookup_lt_Some).
      by destruct errs1.
Qed.

(** A driver made for the generator [g], and the event loop run at the
    given times. *)
Definition drive (K : knot) (g : list item) (max_errs : option Z) (tmo : Z)
    (h : heap) (now : Z) (times : list Z) : option (res value * world) :=
  '(r, w) ← DeferredGenerator_init K g max_errs tmo h now;
  match r with
  | Ok _ => run_loop K times w
  | Err e => Some (Err e, w)
  end.

Lemma drive_unlimited n items max_errs tmo h now times :
  max_errs = None ∨ max_errs = Some 0%Z →
  Forall sync items →
  length items ≤ length times →
  1 ≤ n →
  ∃ r w,
    drive (fuel n) items max_errs tmo h now times = Some (Ok r, w)
    ∧ objects w !! length h = Some (drained_once (final items [] VNone))
    ∧ gen (driver w) = None ∧ loop w = [].
Proof.
  intros Hmax Hsync Htimes Hn. unfold drive, DeferredGenerator_init, _consume.
  cbn [gen driver mbind option_bind].
  set (w := {| objects := h ++ [new_deferred]; driver := _; loop := []; clock := now |}).
  destruct (consume_runs_to_end items n w new_deferred [] VNone times)
    as (r & w1 & r' & w2 & Hc & Hl & Hobj & Hgen & Hloop); try done.
  - by destruct Hmax as [->| ->].
  - split; try done; try constructor. simpl. rewrite lookup_app_r by done.
    by rewrite Nat.sub_diag.
  - rewrite Hc. cbn [mbind option_bind]. by exists r', w2.
Qed.

(** C8 (as amended).  With [max_errors = k > 0], as soon as [k] errors have
    accumulated, on a failure handed over as last result or on an exception
    raised by the generator, the driver concludes without asking the generator
    again, and its deferred settles with the failure that holds all the
    errors accumulated.  With [max_errors = 0] a generator whose items need no
    waiting is consumed to its end whatever the number of errors, and the
    driver concludes on [StopIteration] only, with the accumulated errors if
    there are any and else with the last result: the last value yielded, or
    [None] when the generator yielded nothing or yielded [NOT_DONE] or
    [CLEAR_ERRORS] last. *)
Theorem max_errors_spec :
  (∀ n items w d errs f,
     ready w d →
     errors (driver w) = Some errs →
     (0 < max_errors (driver w))%Z →
     (max_errors (driver w)
      ≤ Z.of_nat (length (Failure_append no_exc_info errs (VFailure f))))%Z →
     length (_callbacks d) + 1 ≤ n →
     let all := Failure_append no_exc_info errs (VFailure f) in
     ∃ w',
       consume_from (fuel n) items (VFailure f) w =
         Some (Ok (propagate (_callbacks d) (VFailure all)), w')
       ∧ objects w' !! self (driver w) =
         Some (drained (propagate (_callbacks d) (VFailure all)) [] (set_called true d))
       ∧ gen (driver w') = None ∧ loop w' = loop w)
  ∧ (∀ n rest w d errs last e tb,
       ready w d →
       errors (driver w) = Some errs →
       is_failure last = false →
       (0 < max_errors (driver w))%Z →
       (max_errors (driver w) ≤ Z.of_nat (length errs) + 1)%Z →
       length (_callbacks d) + 1 ≤ n →
       let all := errs ++ [handling e tb] in
       ∃ w',
         consume_from (fuel n) (GenRaise e tb :: rest) last w =
           Some (Ok (propagate (_callbacks d) (VFailure all)), w')
         ∧ objects w' !! self (driver w) =
           Some (drained (propagate (_callbacks d) (VFailure all)) []
                   (set_called true d))
         ∧ gen (driver w') = None ∧ loop w' = loop w)
  ∧ (∀ n items max_errs tmo h now times,
       max_errs = None ∨ max_errs = Some 0%Z →
       Forall sync items →
       length items ≤ length times →
       1 ≤ n →
       ∃ r w,
         drive (fuel n) items max_errs tmo h now times = Some (Ok r, w)
         ∧ objects w !! length h = Some (drained_once (final items [] VNone))
         ∧ gen (driver w) = None ∧ loop w = []).
Proof.
  split; [|split].
  - intros. by apply consume_stops_on_failure.
  - intros. by apply consume_stops_on_exception.
  - intros. by apply drive_unlimited.
Qed.

(** A driver with [max_errors = 2] that holds one error. *)
Definition stopping_world : world :=
  {| objects := [new_deferred];
     driver := {| gen := Some [Yield (VInt 1)]; max_errors := 2; timeout := 30;
                  errors := Some [value_error]; _start := 0; self := 0 |};
     loop := []; clock := 0 |}.

Lemma max_errors_spec_witness :
  ∃ w',
    consume_from (fuel 1) [Yield (VInt 1)] (VFailure [key_error]) stopping_world =
      Some (Ok (VFailure [value_error; key_error]), w')
    ∧ objects w' !! 0 = Some (drained_once (VFailure [value_error; key_error]))
    ∧ gen (driver w') = None ∧ loop w' = [].
Proof.
  apply (proj1 max_errors_spec 1 [Yield (VInt 1)] stopping_world new_deferred
           [value_error] [key_error]);
    first [ reflexivity | by split; try constructor | by vm_compute ].
Defined.

(** A generator that yields [7] and then [NOT_DONE], driven with
    [max_errors = 0]: what its deferred is settled with. *)
Definition not_done_last : option (option value) :=
  '(_, w) ← drive (fuel 1) [Yield (VInt 7); Yield (VSentinel NOT_DONE)] None 30 [] 0 [1; 2]%Z;
  result <$> objects w !! 0.

(** C8, as stated, fails for a generator whose last yield is [NOT_DONE]:
    with no error accumulated the driver settles with [None], which is neither
    the value yielded last nor the value [7] yielded before it. *)
Lemma settles_with_none_after_not_done :
  not_done_last = Some (Some VNone)
  ∧ not_done_last ≠ Some (Some (VSentinel NOT_DONE))
  ∧ not_done_last ≠ Some (Some (VInt 7)).
Proof. by vm_compute. Qed.

End GeneratorTheory.

(** * More on the deferred engine *)

Module DeferMore.
Import Defer DeferTheory.

(** ** Callbacks added after the call *)

Lemma add_callback_settled n self cb eb h d r :
  h !! self = Some d →
  _called d = true → _runningCallbacks d = false → paused d = 0%Z →
  _callbacks d = [] → result d = Some r →
  is_async r = false → plain cb → plain eb →
  add_callback (fuel (S (S n))) self (Callable cb) (Callable eb) h =
  Some (Ok self, <[self := drained (step r (cb, eb)) [] d]> h).
Proof.
  intros Hd Hc Hr Hp Hq Hres Hnr Hcb Heb.
  assert (self < length h) as Hlt by (by eapply lookup_lt_Some).
  unfold add_callback. cbn [is_None]. rewrite Hd. cbn [mbind option_bind].
  rewrite Hq. cbn [app]. rewrite run_rec_S.
  erewrite run_ready; [| by apply list_lookup_insert_eq | done..].
  erewrite (while_plain [(cb, eb)] (S n) self _ _ r);
    [| by apply list_lookup_insert_eq | done | done | done | | done | simpl; lia].
  - cbn [mbind option_bind]. rewrite list_insert_insert_eq. done.
  - by repeat constructor.
Qed.

Lemma add_callbacks_settled q : ∀ n self h d r,
  h !! self = Some d →
  _called d = true → _runningCallbacks d = false → paused d = 0%Z →
  _callbacks d = [] → result d = Some r →
  is_async r = false → plain_pairs q →
  add_callbacks (fuel (S (S n))) self q h =
  Some (<[self := drained (propagate q r) [] d]> h).
Proof.
  induction q as [|[cb eb] q IH]; intros n self h d r Hd Hc Hr Hp Hq Hres Hnr Hplain.
  - simpl. f_equal. symmetry. apply list_insert_id. rewrite Hd. f_equal.
    destruct d; simpl in *; by subst.
  - apply Forall_cons in Hplain as [[Hcb Heb] Hplain].
    assert (self < length h) as Hlt by (by eapply lookup_lt_Some).
    cbn [add_callbacks]. erewrite add_callback_settled by done.
    cbn [mbind option_bind].
    erewrite (IH n self _ (drained (step r (cb, eb)) [] d) (step r (cb, eb)));
      [| by apply list_lookup_insert_eq | done..| by apply step_not_async | done].
    by rewrite list_insert_insert_eq.
Qed.

(** X1.  A callback added to a deferred that was called and has run all its
    callbacks runs at once, when the handlers hand back no deferred and the
    result it holds is no deferred: the handler the current result selects
    is applied to it, the queue is empty again, and no other object
    changes. *)
Theorem late_callback_runs_at_once n self cb eb h d r :
  h !! self = Some d →
  _called d = true → _runningCallbacks d = false → paused d = 0%Z →
  _callbacks d = [] → result d = Some r →
  is_async r = false → plain cb → plain eb →
  2 ≤ n →
  ∃ h',
    add_callback (fuel n) self (Callable cb) (Callable eb) h = Some (Ok self, h')
    ∧ h' !! self = Some (drained (step r (cb, eb)) [] d)
    ∧ ∀ r', r' ≠ self → h' !! r' = h !! r'.
Proof.
  intros Hd Hc Hr Hp Hq Hres Hnr Hcb Heb Hn.
  destruct n as [|[|n]]; [lia..|]. eexists. split; [by eapply add_callback_settled|].
  split; [apply list_lookup_insert_eq; by eapply lookup_lt_Some|].
  intros r' Hne. by apply list_lookup_insert_ne.
Qed.

Lemma late_callback_runs_at_once_witness :
  ∃ h',
    add_callback (fuel 2) 0 (Callable inc) (Callable pass_through)
      [drained_once (VInt 1)] = Some (Ok 0, h')
    ∧ h' !! 0 = Some (drained (step (VInt 1) (inc, pass_through)) [] (drained_once (VInt 1)))
    ∧ ∀ r', r' ≠ 0 → h' !! r' = [drained_once (VInt 1)] !! r'.
Proof.
  apply (late_callback_runs_at_once 2 0 inc pass_through [drained_once (VInt 1)]
           (drained_once (VInt 1)) (VInt 1));
    first [ reflexivity | exact I | apply le_n | intros x; by destruct x ].
Defined.

(** X2.  Callbacks may be added before the call or after it: a queue of
    handlers that hand back no deferred leaves the same deferred, with the
    same result, either way. *)
Theorem callbacks_before_or_after n self q v h d :
  h !! self = Some d →
  _called d = false → _runningCallbacks d = false → paused d = 0%Z →
  _callbacks d = [] →
  plain_pairs q → is_async v = false →
  length q + 2 ≤ n →
  ∃ h1 h2 hf,
    add_callbacks (fuel n) self q h = Some h1
    ∧ callback (fuel n) self v h1 = Some (Ok (propagate q (as_failure no_exc_info v)), hf)
    ∧ callback (fuel n) self v h = Some (Ok (as_failure no_exc_info v), h2)
    ∧ add_callbacks (fuel n) self q h2 = Some hf
    ∧ hf !! self = Some (drained (propagate q (as_failure no_exc_info v)) []
                           (set_called true d)).
Proof.
  intros Hd Hc Hr Hp Hq Hplain Hv Hn.
  assert (self < length h) as Hlt by (by eapply lookup_lt_Some).
  destruct n as [|[|n]]; [lia..|].
  set (d1 := set_callbacks (_callbacks d ++ q) d).
  set (R := propagate q (as_failure no_exc_info v)).
  assert (_callbacks d1 = q) as Hq1 by (unfold d1; simpl; by rewrite Hq).
  exists (<[self := d1]> h), (<[self := drained (as_failure no_exc_info v) []
                                         (set_called true d)]> h),
         (<[self := drained R [] (set_called true d)]> h).
  split; [|split; [|split; [|split]]].
  - by eapply add_callbacks_uncalled.
  - unfold callback.
    rewrite (callback_plain (S (S n)) self v (<[self := d1]> h) d1 no_exc_info);
      [| by apply list_lookup_insert_eq | done | done | done | by rewrite Hq1 | done
       | rewrite Hq1; lia].
    rewrite Hq1, list_insert_insert_eq. done.
  - unfold callback.
    rewrite (callback_plain (S (S n)) self v h d no_exc_info);
      [| done | done | done | done | by rewrite Hq | done | rewrite Hq; simpl; lia].
    by rewrite Hq.
  - erewrite (add_callbacks_settled q n self _ _ (as_failure no_exc_info v));
      [| by apply list_lookup_insert_eq | done | done | done | done | done
       | by apply as_failure_not_async | done].
    by rewrite list_insert_insert_eq.
  - by apply list_lookup_insert_eq.
Qed.

Lemma callbacks_before_or_after_witness :
  ∃ h1 h2 hf,
    add_callbacks (fuel 6) 0 recovery_chain [new_deferred] = Some h1
    ∧ callback (fuel 6) 0 (VInt 1) h1
      = Some (Ok (propagate recovery_chain (as_failure no_exc_info (VInt 1))), hf)
    ∧ callback (fuel 6) 0 (VInt 1) [new_deferred]
      = Some (Ok (as_failure no_exc_info (VInt 1)), h2)
    ∧ add_callbacks (fuel 6) 0 recovery_chain h2 = Some hf
    ∧ hf !! 0 = Some (drained (propagate recovery_chain (as_failure no_exc_info (VInt 1)))
                        [] (set_called true new_deferred)).
Proof.
  apply (callbacks_before_or_after 6 0 recovery_chain (VInt 1) [new_deferred] new_deferred);
    first [ reflexivity | apply plain_recovery_chain | apply le_n ].
Defined.

(** ** Errors accumulate *)

(** A handler that raises [p.1] with traceback [p.2]. *)
Definition raiser (p : exn * trace) : handler := Fn (λ _, Raise p.1 p.2).

(** The records of a failure; a value that is no failure has none. *)
Definition traces_of (v : value) : list exc_info :=
  match v with VFailure t => t | _ => [] end.

Lemma propagate_raisers es : ∀ r,
  es ≠ [] →
  propagate ((λ p, (raiser p, raiser p)) <$> es) r
  = VFailure (traces_of r ++ ((λ p, handling p.1 p.2) <$> es)).
Proof.
  induction es as [|p es IH]; intros r Hne; [done|].
  rewrite fmap_cons. cbn [propagate foldl].
  assert (step r (raiser p, raiser p) = VFailure (traces_of r ++ [handling p.1 p.2])) as ->.
  { unfold step, select. cbn [fst snd]. destruct (is_failure r); by destruct r. }
  destruct es as [|p' es]; [done|].
  change (foldl step ?a ?l) with (propagate l a).
  rewrite IH by done. cbn [traces_of]. by rewrite <- (assoc (++)).
Qed.

Lemma raisers_plain es : plain_pairs ((λ p, (raiser p, raiser p)) <$> es).
Proof. apply Forall_fmap, Forall_forall. intros p _. by split. Qed.

(** X3.  When every handler registered on a deferred raises, the exceptions
    accumulate: [callback(v)] leaves a failure that holds the records [v]
    came with, if it was a failure, followed by one record for each handler
    in the order of registration. *)
Theorem raised_errors_accumulate n self es v h d :
  h !! self = Some d →
  _called d = false → _runningCallbacks d = false → paused d = 0%Z →
  _callbacks d = (λ p, (raiser p, raiser p)) <$> es →
  es ≠ [] →
  is_async v = false →
  length es + 1 ≤ n →
  ∃ h',
    callback (fuel n) self v h
    = Some (Ok (VFailure (traces_of (as_failure no_exc_info v)
                          ++ ((λ p, handling p.1 p.2) <$> es))), h').
Proof.
  intros Hd Hc Hr Hp Hq Hne Hv Hn. unfold callback.
  rewrite (callback_plain n self v h d no_exc_info);
    [| done | done | done | done | rewrite Hq; apply raisers_plain | done
     | by rewrite Hq, length_fmap].
  rewrite Hq, propagate_raisers by done. by eexists.
Qed.

Lemma raised_errors_accumulate_witness :
  ∃ h',
    callback (fuel 3) 0 (VInt 1)
      [set_callbacks ((λ p, (raiser p, raiser p))
                        <$> [(TypeError "a", LiveTrace 1); (TypeError "b", LiveTrace 2)])
         new_deferred]
    = Some (Ok (VFailure (traces_of (as_failure no_exc_info (VInt 1))
                          ++ ((λ p, handling p.1 p.2)
                                <$> [(TypeError "a", LiveTrace 1);
                                     (TypeError "b", LiveTrace 2)]))), h').
Proof.
  apply (raised_errors_accumulate 3 0
           [(TypeError "a", LiveTrace 1); (TypeError "b", LiveTrace 2)] (VInt 1) _
           (set_callbacks ((λ p, (raiser p, raiser p))
                             <$> [(TypeError "a", LiveTrace 1); (TypeError "b", LiveTrace 2)])
              new_deferred));
    first [ reflexivity | discriminate | apply le_n ].
Defined.

(** ** [as_failure] *)

(** X4.  [as_failure] is idempotent, whatever exception is being handled at
    either call, and an exception instance becomes a failure with one
    record: the record of the exception being handled when that is this
    exception, and else its class, the exception and no traceback. *)
Theorem as_failure_idempotent exc exc' v :
  as_failure exc' (as_failure exc v) = as_failure exc v
  ∧ (∀ e, v = VExc e →
          as_failure exc v
          = VFailure [if decide (ErrExc e = exc_value exc) then exc
                      else ExcInfo (Some (eclass e)) (ErrExc e) NoTrace]).
Proof.
  split.
  - destruct v; simpl; try done. by case_decide.
  - intros e ->. simpl. by case_decide.
Qed.

(** ** [make_async] *)

(** X6.  [make_async] of a value that is no deferred (and no generator:
    the values here have none) gives a new deferred, allocated at the end of
    the heap, that was called with the value and has no callbacks;
    [maybe_async] gives the value back, as [as_failure] leaves it. *)
Theorem make_async_of_value n val h :
  is_async val = false → 1 ≤ n →
  make_async (fuel n) val h
  = Some (Ok (length h), h ++ [drained_once (as_failure no_exc_info val)])
  ∧ maybe_async (h ++ [drained_once (as_failure no_exc_info val)]) (VDeferred (length h))
    = Some (as_failure no_exc_info val).
Proof.
  intros Hv Hn. split.
  - unfold make_async. rewrite maybe_async_plain by done. cbn [mbind option_bind].
    rewrite not_async_case by (by apply as_failure_not_async).
    unfold callback.
    rewrite (callback_plain n (length h) _ (h ++ [new_deferred]) new_deferred no_exc_info);
      [| by rewrite lookup_app_r, Nat.sub_diag | done | done | done | done
       | by apply as_failure_not_async | simpl; lia].
    cbn [mbind option_bind _callbacks new_deferred propagate foldl].
    rewrite as_failure_lifted.
    rewrite insert_app_r_alt, Nat.sub_diag by done. done.
  - cbn [maybe_async]. rewrite lookup_app_r, Nat.sub_diag by done. done.
Qed.

Lemma make_async_of_value_witness :
  make_async (fuel 1) (VInt 7) []
  = Some (Ok (length (@nil deferred)), [] ++ [drained_once (as_failure no_exc_info (VInt 7))])
  ∧ maybe_async ([] ++ [drained_once (as_failure no_exc_info (VInt 7))])
      (VDeferred (length (@nil deferred)))
    = Some (as_failure no_exc_info (VInt 7)).
Proof. apply (make_async_of_value 1 (VInt 7) []); [reflexivity|apply le_n]. Defined.

(** X7.  [make_async] of a deferred that still waits, because it was not
    called or has callbacks left, hands back that deferred and changes
    nothing; of a deferred that was called and has no callbacks left it
    gives a new deferred called with the same result. *)
Theorem make_async_of_deferred n r h d :
  h !! r = Some d →
  (_called d = false ∨ _callbacks d ≠ [] →
   make_async (fuel n) (VDeferred r) h = Some (Ok r, h))
  ∧ (∀ v, _called d = true → _callbacks d = [] → result d = Some v →
          is_async v = false → 1 ≤ n →
          make_async (fuel n) (VDeferred r) h
          = Some (Ok (length h), h ++ [drained_once (as_failure no_exc_info v)])).
Proof.
  intros Hd. split.
  - intros Hw. unfold make_async. cbn [maybe_async]. rewrite Hd.
    cbn [mbind option_bind]. unfold result_or_self.
    destruct Hw as [->|Hq]; [done|]. destruct (_callbacks d); [done|].
    by rewrite andb_false_r.
  - intros v Hc Hq Hres Hv Hn.
    assert (make_async (fuel n) (VDeferred r) h = make_async (fuel n) v h) as ->.
    { unfold make_async at 1. cbn [maybe_async]. rewrite Hd. cbn [mbind option_bind].
      unfold result_or_self. rewrite Hc, Hq, Hres. cbn [andb is_empty mbind option_bind].
      unfold make_async. rewrite maybe_async_plain by done. cbn [mbind option_bind].
      rewrite !not_async_case by (done || by apply as_failure_not_async).
      unfold callback, callback_in. rewrite !lookup_app_r, !Nat.sub_diag by done.
      cbn [lookup list_lookup mbind option_bind].
      rewrite Hv, as_failure_not_async by done. cbn [_called new_deferred].
      by rewrite as_failure_lifted. }
    by apply make_async_of_value.
Qed.

Lemma make_async_of_deferred_witness :
  (_called new_deferred = false ∨ _callbacks new_deferred ≠ [] →
   make_async (fuel 1) (VDeferred 0) [new_deferred] = Some (Ok 0, [new_deferred]))
  ∧ (∀ v, _called new_deferred = true → _callbacks new_deferred = [] →
          result new_deferred = Some v →
          is_async v = false → 1 ≤ 1 →
          make_async (fuel 1) (VDeferred 0) [new_deferred]
          = Some (Ok (length [new_deferred]),
                  [new_deferred] ++ [drained_once (as_failure no_exc_info v)])).
Proof. apply (make_async_of_deferred 1 0 [new_deferred] new_deferred). reflexivity. Defined.

(** ** What no call undoes *)

Lemma multi_async_keeps n C h r h' :
  multi_async (fuel n) C h = Some (r, h') → keeps h h'.
Proof.
  unfold multi_async. intros H. apply bind_Some in H as ([i h1] & Hi & H).
  apply (MultiDeferred_init_keeps _ (fuel_keeps n)) in Hi.
  destruct i as [md|e].
  - apply (lock_keeps _ (fuel_keeps n)) in H. by eapply keeps_trans.
  - by injection H as <- <-.
Qed.

Lemma make_async_keeps n val h r h' :
  make_async (fuel n) val h = Some (r, h') → keeps h h'.
Proof.
  unfold make_async. intros H. inv_some;
    repeat match goal with
    | H : callback _ _ _ _ = Some _ |- _ => apply (callback_keeps _ (fuel_keeps n)) in H
    end;
    first [ apply keeps_refl | (eapply keeps_trans; [apply keeps_app|eassumption]) ].
Qed.

(** X8.  No call removes a deferred from the heap, and none makes a deferred
    that was called uncalled again: this holds for [callback],
    [add_callback], [multi_async] and [make_async], whatever they return. *)
Theorem called_stays_called n :
  (∀ self v h r h', callback (fuel n) self v h = Some (r, h') → keeps h h')
  ∧ (∀ self cb eb h r h', add_callback (fuel n) self cb eb h = Some (r, h') → keeps h h')
  ∧ (∀ C h r h', multi_async (fuel n) C h = Some (r, h') → keeps h h')
  ∧ (∀ val h r h', make_async (fuel n) val h = Some (r, h') → keeps h h').
Proof.
  split; [|split; [|split]].
  - intros *. apply callback_keeps, fuel_keeps.
  - intros *. apply add_callback_keeps, fuel_keeps.
  - intros *. apply multi_async_keeps.
  - intros *. apply make_async_keeps.
Qed.

End DeferMore.
